(** * ultrafxr: the quadratic sine kernel and the error registry

    A shallow embedding of [c/ops/sin1_2.c] (both conditional-compilation
    branches of [ufxr_sin1_2]) and of the interface declared in
    [c/compiler/error.h], together with the properties the specification
    states about them and further properties read off the code.

    Single-precision values are the binary32 instance of the standard
    library's [SpecFloat] (precision 24, [emax] 128).  Its operations round
    to nearest, ties to even: the default rounding direction of SSE, and
    of C when every operation is rounded to [float].

    The file has three parts: the embedding of the sources, a small
    theory of binary32 arithmetic on exact integers (every finite binary32
    number is a whole number of quanta of [2^-149]), and the properties. *)

From Stdlib Require Import ZArith Lia Bool String List QArith Qabs SpecFloat PeanoNat.
Import ListNotations.
Local Open Scope Z_scope.

(* ================================================================== *)
(** * Error registry ([c/compiler/error.h]) *)

Module Err.

(** The anonymous enumeration of the header. *)
Inductive code := ERR_OK | ERR_NOMEM | ERR_LARGETEXT.

Definition all_codes : list code := [ERR_OK; ERR_NOMEM; ERR_LARGETEXT].

(** Enumerators number from zero, as in C. *)
Definition to_int (c : code) : Z :=
  match c with ERR_OK => 0 | ERR_NOMEM => 1 | ERR_LARGETEXT => 2 end.

Definition of_int (n : Z) : option code :=
  match n with
  | 0 => Some ERR_OK
  | 1 => Some ERR_NOMEM
  | 2 => Some ERR_LARGETEXT
  | _ => None
  end.

(** Modelled from the spec: the body of [ufxr_errname], of which only
    the declaration is in the header.  The specification asks for a
    canonical short all-caps identifier per code; the header documents
    [ufxr_errname(ERR_LARGETEXT) = "LARGETEXT"], and the other names
    follow the same pattern (the enumerator without its prefix).  A
    value outside the enumeration has no defined result. *)
Definition ufxr_errname (err : Z) : option string :=
  match of_int err with
  | Some ERR_OK => Some "OK"%string
  | Some ERR_NOMEM => Some "NOMEM"%string
  | Some ERR_LARGETEXT => Some "LARGETEXT"%string
  | None => None
  end.

(** Modelled from the spec: the body of [ufxr_errtext], of which only
    the declaration is in the header.  The specification asks for one
    human-readable sentence per code; the sentences are the ones the
    header attaches to the enumerators. *)
Definition ufxr_errtext (err : Z) : option string :=
  match of_int err with
  | Some ERR_OK => Some "No error."%string
  | Some ERR_NOMEM => Some "Out of memory."%string
  | Some ERR_LARGETEXT => Some "Source text too large."%string
  | None => None
  end.

End Err.

(* ================================================================== *)
(** * IEEE binary32 *)

Module B32.

Definition prec : Z := 24.
Definition emax : Z := 128.

Definition float := spec_float.

(** The values a C [float] can hold. *)
Definition is_f32 (x : float) : Prop := valid_binary prec emax x = true.

Definition is_finite (x : float) : bool :=
  match x with
  | S754_zero _ | S754_finite _ _ _ => true
  | _ => false
  end.

Definition is_zero (x : float) : bool :=
  match x with S754_zero _ => true | _ => false end.

Definition fsub : float -> float -> float := SFsub prec emax.
Definition fmul : float -> float -> float := SFmul prec emax.
Definition fabs : float -> float := SFabs.
Definition fopp : float -> float := SFopp.
Definition flt : float -> float -> bool := SFltb.
Definition feq : float -> float -> bool := SFeqb.
Definition fadd : float -> float -> float := SFadd prec emax.

Definition sign_of (x : float) : bool :=
  match x with
  | S754_zero s | S754_infinity s | S754_finite s _ _ => s
  | S754_nan => false
  end.

(** Conversion of an integer to [float] (round to nearest even). *)
Definition of_Z (n : Z) : float := binary_normalize prec emax n 0 false.

(** The literals of the source. *)
Definition f0_5 : float := S754_finite false 8388608 (-24).
Definition fm0_5 : float := S754_finite true 8388608 (-24).
Definition f0_25 : float := S754_finite false 8388608 (-25).
Definition fm0_25 : float := S754_finite true 8388608 (-25).
Definition f1 : float := S754_finite false 8388608 (-23).
Definition fm1 : float := S754_finite true 8388608 (-23).
Definition f8 : float := S754_finite false 8388608 (-20).
Definition f16 : float := S754_finite false 8388608 (-19).
Definition fzero : float := S754_zero false.

(** Further values used as inputs below: [2^31], [0.75], [1.5], [2^-30]
    and [0.625]. *)
Definition f2p31 : float := S754_finite false 8388608 8.
Definition f0_75 : float := S754_finite false 12582912 (-24).
Definition f1_5 : float := S754_finite false 12582912 (-23).
Definition f2pm30 : float := S754_finite false 8388608 (-53).
Definition f0_625 : float := S754_finite false 10485760 (-24).

(** The value of a finite [float] counted in units of [2^-149], the
    smallest positive binary32 number: every finite binary32 value is an
    integer number of these. *)
Definition quanta (x : float) : Z :=
  match x with
  | S754_finite s m e => cond_Zopp s (Zpos m * 2 ^ (e + 149))
  | _ => 0
  end.

(** The same value as a rational number. *)
Definition F2Q (x : float) : Q := quanta x # (2 ^ 149)%positive.

(** The 32-bit encoding, as an unsigned word. *)
Definition sign_bit (s : bool) : Z := if s then 2 ^ 31 else 0.

Definition bits_of (x : float) : Z :=
  match x with
  | S754_zero s => sign_bit s
  | S754_infinity s => sign_bit s + 255 * 2 ^ 23
  | S754_nan => 255 * 2 ^ 23 + 2 ^ 22
  | S754_finite s m e =>
      sign_bit s +
      (if Zpos m <? 2 ^ 23 then Zpos m
       else (e + 150) * 2 ^ 23 + (Zpos m - 2 ^ 23))
  end.

Definition of_bits (w : Z) : float :=
  let s := Z.testbit w 31 in
  let be := Z.land (Z.shiftr w 23) (Z.ones 8) in
  let fr := Z.land w (Z.ones 23) in
  if be =? 0 then
    match fr with Zpos m => S754_finite s m (-149) | _ => S754_zero s end
  else if be =? 255 then
    (if fr =? 0 then S754_infinity s else S754_nan)
  else
    match fr + 2 ^ 23 with
    | Zpos m => S754_finite s m (be - 150)
    | _ => S754_nan
    end.

(** Rounding [m / 2^k] to the nearest integer, ties to the even one. *)
Definition rne_div (m k : Z) : Z :=
  let q := m / 2 ^ k in
  let r := m mod 2 ^ k in
  match 2 * r ?= 2 ^ k with
  | Lt => q
  | Eq => if Z.even q then q else q + 1
  | Gt => q + 1
  end.

Definition in_int32 (n : Z) : bool := (- 2 ^ 31 <=? n) && (n <=? 2 ^ 31 - 1).

End B32.
Import B32.

(** Modelled from the spec: [UFXR_QUANTUM], the quantum of the operators,
    is defined in [c/ops/ops.h], which is not part of the sources at hand;
    the specification gives 4, the lane count of the vector unit. *)
Definition UFXR_QUANTUM : Z := 4.

(* ================================================================== *)
(** * Buffers and outcomes of a kernel call *)

(** What a call does to the two buffers, in program order. *)
Inductive event :=
| EvLoad (i : Z)
| EvStore (i : Z) (v : float).

Record kstate := KState { ks_outs : list float; ks_trace : list event }.

Inductive outcome (A : Type) :=
| Done (a : A)
| AssertFailed      (* [assert] aborted the call *)
| OutOfBounds       (* access past the end of a buffer *)
| Undefined         (* conversion to [int] of a value [int] cannot hold *)
| OutOfFuel.
Arguments Done {A} a.
Arguments AssertFailed {A}.
Arguments OutOfBounds {A}.
Arguments Undefined {A}.
Arguments OutOfFuel {A}.

Definition bind {A B} (c : outcome A) (k : A -> outcome B) : outcome B :=
  match c with
  | Done a => k a
  | AssertFailed => AssertFailed
  | OutOfBounds => OutOfBounds
  | Undefined => Undefined
  | OutOfFuel => OutOfFuel
  end.

Notation "x <- c ;; k" := (bind c (fun x => k))
  (at level 61, c at next level, right associativity).

(** [assert(c)] of a build without [NDEBUG]. *)
Definition assert (c : bool) : outcome unit :=
  if c then Done tt else AssertFailed.

Fixpoint update (l : list float) (i : nat) (v : float) : option (list float) :=
  match l, i with
  | [], _ => None
  | _ :: t, O => Some (v :: t)
  | h :: t, S i' => option_map (cons h) (update t i' v)
  end.

(** [xs[i]] *)
Definition load (xs : list float) (i : Z) (st : kstate) : outcome (float * kstate) :=
  if i <? 0 then OutOfBounds else
  match nth_error xs (Z.to_nat i) with
  | Some v => Done (v, KState (ks_outs st) (ks_trace st ++ [EvLoad i]))
  | None => OutOfBounds
  end.

(** [outs[i] = v] *)
Definition store (i : Z) (v : float) (st : kstate) : outcome kstate :=
  if i <? 0 then OutOfBounds else
  match update (ks_outs st) (Z.to_nat i) v with
  | Some outs' => Done (KState outs' (ks_trace st ++ [EvStore i v]))
  | None => OutOfBounds
  end.

(* ================================================================== *)
(** * The SSE2 branch of [sin1_2.c] *)

Module Sse2.

(** A 128-bit register seen as four lanes. *)
Record vec4 (A : Type) := V4 { lane0 : A; lane1 : A; lane2 : A; lane3 : A }.
Arguments V4 {A}.
Arguments lane0 {A}.
Arguments lane1 {A}.
Arguments lane2 {A}.
Arguments lane3 {A}.

Definition vmap {A B} (f : A -> B) (v : vec4 A) : vec4 B :=
  V4 (f (lane0 v)) (f (lane1 v)) (f (lane2 v)) (f (lane3 v)).

Definition vmap2 {A B C} (f : A -> B -> C) (v : vec4 A) (w : vec4 B) : vec4 C :=
  V4 (f (lane0 v) (lane0 w)) (f (lane1 v) (lane1 w))
     (f (lane2 v) (lane2 w)) (f (lane3 v) (lane3 w)).

(** Integer lanes are unsigned 32-bit words; [signed] reads one as a
    two's complement number. *)
Definition word (n : Z) : Z := n mod 2 ^ 32.
Definition signed (w : Z) : Z := if w <? 2 ^ 31 then w else w - 2 ^ 32.

Definition mm_set1_epi32 (n : Z) : vec4 Z := V4 (word n) (word n) (word n) (word n).
Definition mm_srli_epi32 (v : vec4 Z) (count : Z) : vec4 Z :=
  vmap (fun w => Z.shiftr w count) v.

(** [_mm_castsi128_ps] reinterprets the register; the mask it yields is
    only ever used as a bit pattern, so it stays a vector of words. *)
Definition mm_castsi128_ps (v : vec4 Z) : vec4 Z := v.

Definition mm_set1_ps (c : float) : vec4 float := V4 c c c c.
Definition mm_sub_ps : vec4 float -> vec4 float -> vec4 float := vmap2 fsub.
Definition mm_mul_ps : vec4 float -> vec4 float -> vec4 float := vmap2 fmul.

(** Bitwise and of a float register with a mask. *)
Definition and_bits (x : float) (mask : Z) : float :=
  of_bits (Z.land (bits_of x) mask).
Definition mm_and_ps (x : vec4 float) (mask : vec4 Z) : vec4 float :=
  vmap2 and_bits x mask.

(** One lane of [_mm_cvtps_epi32] under the default rounding direction
    of MXCSR: the nearest integer, ties to even; the "integer
    indefinite" value [0x80000000] when that integer does not fit, and
    for infinities and NaN. *)
Definition int_indefinite : Z := 2 ^ 31.

Definition cvtps_epi32 (x : float) : Z :=
  match x with
  | S754_zero _ => 0
  | S754_finite s m e =>
      let n := cond_Zopp s (if 0 <=? e then Zpos m * 2 ^ e
                            else rne_div (Zpos m) (- e)) in
      if in_int32 n then word n else int_indefinite
  | _ => int_indefinite
  end.
Definition mm_cvtps_epi32 : vec4 float -> vec4 Z := vmap cvtps_epi32.

(** One lane of [_mm_cvtepi32_ps]. *)
Definition cvtepi32_ps (w : Z) : float := of_Z (signed w).
Definition mm_cvtepi32_ps : vec4 Z -> vec4 float := vmap cvtepi32_ps.

(** [_mm_load_ps(xs + i)] and [_mm_store_ps(outs + i, x)]; the alignment
    the instructions require is not modelled. *)
Definition mm_load_ps (xs : list float) (i : Z) (st : kstate)
  : outcome (vec4 float * kstate) :=
  r0 <- load xs i st ;;
  r1 <- load xs (i + 1) (snd r0) ;;
  r2 <- load xs (i + 2) (snd r1) ;;
  r3 <- load xs (i + 3) (snd r2) ;;
  Done (V4 (fst r0) (fst r1) (fst r2) (fst r3), snd r3).

Definition mm_store_ps (i : Z) (x : vec4 float) (st : kstate) : outcome kstate :=
  st <- store i (lane0 x) st ;;
  st <- store (i + 1) (lane1 x) st ;;
  st <- store (i + 2) (lane2 x) st ;;
  store (i + 3) (lane3 x) st.

(** The three constants set up before the loop. *)
Definition abs : vec4 Z := mm_castsi128_ps (mm_srli_epi32 (mm_set1_epi32 (-1)) 1).
Definition c2 : vec4 float := mm_set1_ps f8.
Definition c3 : vec4 float := mm_set1_ps f16.

(** The two arithmetic statements of the loop body. *)
Definition kernel (x : vec4 float) : vec4 float :=
  let x := mm_sub_ps x (mm_cvtepi32_ps (mm_cvtps_epi32 x)) in
  mm_mul_ps x (mm_sub_ps c2 (mm_mul_ps c3 (mm_and_ps x abs))).

(** [for (int i = 0; i < n; i += 4)], from index [i] on. *)
Fixpoint loop (fuel : nat) (n : Z) (xs : list float) (i : Z) (st : kstate)
  : outcome kstate :=
  if i <? n then
    match fuel with
    | O => OutOfFuel
    | S fuel' =>
        r <- mm_load_ps xs i st ;;
        st' <- mm_store_ps i (kernel (fst r)) (snd r) ;;
        loop fuel' n xs (i + 4) st'
    end
  else Done st.

Definition ufxr_sin1_2 (n : Z) (outs xs : list float) : outcome kstate :=
  _ <- assert (Z.rem n UFXR_QUANTUM =? 0) ;;
  loop (Z.to_nat n) n xs 0 (KState outs []).

(** What the loop body computes in each lane. *)
Definition phase (x : float) : float := fsub x (cvtepi32_ps (cvtps_epi32 x)).
Definition shape (x : float) : float :=
  fmul x (fsub f8 (fmul f16 (and_bits x (lane0 abs)))).
Definition lane (x : float) : float := shape (phase x).

End Sse2.

(* ================================================================== *)
(** * The scalar branch of [sin1_2.c] *)

Module Scalar.

(** Every operation of this branch is taken to be rounded to [float]
    ([FLT_EVAL_METHOD] 0), as on the targets without x87 arithmetic. *)

(** [(int)x]: the value is truncated toward zero; the conversion is
    undefined when the truncated value is not an [int], and for
    infinities and NaN. *)
Definition float_to_int (x : float) : option Z :=
  match x with
  | S754_zero _ => Some 0
  | S754_finite s m e =>
      let n := cond_Zopp s (if 0 <=? e then Zpos m * 2 ^ e
                            else Zpos m / 2 ^ (- e)) in
      if in_int32 n then Some n else None
  | _ => None
  end.

Definition fabsf : float -> float := fabs.

(** [x -= (float)(int)x] *)
Definition phase (x : float) : option float :=
  match float_to_int x with
  | Some n => Some (fsub x (of_Z n))
  | None => None
  end.

(** The rest of the loop body, from [t1] on. *)
Definition shape (x : float) : float :=
  let t1 := fsub f0_5 x in
  let t2 := fsub fm0_5 x in
  let x := if flt t1 x then t1 else x in
  let x := if flt x t2 then t2 else x in
  fmul x (fsub f8 (fmul f16 (fabsf x))).

(** The value of [x] when it is multiplied, after the two tests. *)
Definition fold (x : float) : float :=
  let t1 := fsub f0_5 x in
  let t2 := fsub fm0_5 x in
  let x := if flt t1 x then t1 else x in
  if flt x t2 then t2 else x.

Definition elem (x : float) : option float := option_map shape (phase x).

(** [for (int i = 0; i < n; i++)], from index [i] on. *)
Fixpoint loop (fuel : nat) (n : Z) (xs : list float) (i : Z) (st : kstate)
  : outcome kstate :=
  if i <? n then
    match fuel with
    | O => OutOfFuel
    | S fuel' =>
        r <- load xs i st ;;
        match elem (fst r) with
        | None => Undefined
        | Some y =>
            st' <- store i y (snd r) ;;
            loop fuel' n xs (i + 1) st'
        end
    end
  else Done st.

Definition ufxr_sin1_2 (n : Z) (outs xs : list float) : outcome kstate :=
  _ <- assert (Z.rem n UFXR_QUANTUM =? 0) ;;
  loop (Z.to_nat n) n xs 0 (KState outs []).

End Scalar.

(* ================================================================== *)
(** * The exemplar batch *)

Definition batch_in : list float := [fzero; f0_25; f0_5; fm0_25].
Definition batch_expected : list float := [fzero; f1; fzero; fm1].

(* ================================================================== *)
(** * Auxiliary definitions for the properties *)

(** The outputs of the scalar loop, when every element has one. *)
Fixpoint all_elems (xs : list float) : option (list float) :=
  match xs with
  | [] => Some []
  | x :: t =>
      match Scalar.elem x, all_elems t with
      | Some y, Some ys => Some (y :: ys)
      | _, _ => None
      end
  end.

(** The last statement of both loop bodies: [x * (8 - 16 * |x|)]. *)
Definition quad (p : float) : float := fmul p (fsub f8 (fmul f16 (fabs p))).

(** Finite inputs from [-2^31] up to, but not including, [2^31], that is
    from [-2^180] to [2^180] quanta: the values both conversions to an
    integer can handle. *)
Definition in_range (x : float) : Prop :=
  is_f32 x /\ is_finite x = true /\ - 2 ^ 180 <= quanta x < 2 ^ 180.

(** ** Arithmetic on quanta *)

(** [rnd s v] rounds the non-negative value [v], counted in units of
    [2^-(149+s)], to a binary32 number counted in quanta: 24 significant
    bits, nothing below one quantum. *)
Definition rnd (s v : Z) : Z :=
  let k := Z.max (Zdigits2 v - 24) s in
  rne_div v k * 2 ^ (k - s).

Definition rndZ (s v : Z) : Z := Z.sgn v * rnd s (Z.abs v).

(** Numbers of quanta that are binary32 values (overflow apart). *)
Definition repr (v : Z) : Prop :=
  exists c j, v = c * 2 ^ j /\ Z.abs c < 2 ^ 24 /\ 0 <= j.

(** Nearest integer (ties to even) and truncation of a number of quanta. *)
Definition rint (v : Z) : Z := Z.sgn v * rne_div (Z.abs v) 149.
Definition tint (v : Z) : Z := Z.quot v (2 ^ 149).

(** What is left after subtracting the one or the other. *)
Definition phaseV (v : Z) : Z := v - rint v * 2 ^ 149.
Definition phaseS (v : Z) : Z := v - tint v * 2 ^ 149.

(** The two reflections of the scalar branch. *)
Definition foldZ (r : Z) : Z :=
  if 2 ^ 147 <? r then 2 ^ 148 - r
  else if r <? - 2 ^ 147 then - 2 ^ 148 - r
  else r.

(** [x * (8 - 16 * |x|)] with its two roundings. *)
Definition shapeZ (p : Z) : Z := rndZ 149 (p * rndZ 0 (2 ^ 152 - 16 * Z.abs p)).

(** Membership in [in_range] of a literal. *)
Ltac in_range_now :=
  unfold in_range; split;
  [reflexivity | split; [reflexivity | vm_compute; split; [discriminate | reflexivity]]].

(** ** Traces, further inputs and the exact parabola *)

(** The loads and stores of the SSE2 loop over the elements [xs], the
    first of them at index [i]: for every group of four, the four loads
    of [_mm_load_ps], then the four stores of [_mm_store_ps]. *)
Fixpoint sse_events (i : Z) (xs : list float) : list event :=
  match xs with
  | a :: b :: c :: d :: t =>
      [EvLoad i; EvLoad (i + 1); EvLoad (i + 2); EvLoad (i + 3);
       EvStore i (Sse2.lane a); EvStore (i + 1) (Sse2.lane b);
       EvStore (i + 2) (Sse2.lane c); EvStore (i + 3) (Sse2.lane d)]
      ++ sse_events (i + 4) t
  | _ => []
  end.

(** The loads and stores of the scalar loop that stores the outputs
    [ys], the first of them at index [i]: element by element, the load,
    then the store. *)
Fixpoint scalar_events (i : Z) (ys : list float) : list event :=
  match ys with
  | y :: t => EvLoad i :: EvStore i y :: scalar_events (i + 1) t
  | [] => []
  end.

(** The indices a trace loads from, and the indices it stores to. *)
Definition loads (tr : list event) : list Z :=
  flat_map (fun e => match e with EvLoad i => [i] | EvStore _ _ => [] end) tr.
Definition stores (tr : list event) : list Z :=
  flat_map (fun e => match e with EvLoad _ => [] | EvStore i _ => [i] end) tr.

(** A scan of a trace that accepts it when every store goes to an index
    loaded before ([seen] holds the indices met so far). *)
Fixpoint stores_after_loads (seen : list Z) (tr : list event) : bool :=
  match tr with
  | [] => true
  | EvLoad i :: t => stores_after_loads (i :: seen) t
  | EvStore i _ :: t => existsb (Z.eqb i) seen && stores_after_loads seen t
  end.

(** The parabola the kernel evaluates, on exact numbers: [p (8 - 16 |p|)],
    which is 0 at 0 and at one half, and 1 at one quarter. *)
Definition parabola (p : Q) : Q := p * (8 - 16 * Qabs p).

(** A further input used below: [4194304.5], that is [2^22 + 0.5]. *)
Definition f4194304_5 : float := S754_finite false 8388609 (-1).

(* ================================================================== *)
(** * Binary32 arithmetic on quanta *)

(** ** Number of binary digits *)

Lemma fexp_eq e : fexp prec emax e = Z.max (e - 24) (-149).
Proof. reflexivity. Qed.

Lemma digits2_pos_size p : digits2_pos p = Pos.size p.
Proof. induction p; simpl; congruence. Qed.

Lemma digits_pos_bounds p :
  2 ^ (Zpos (digits2_pos p) - 1) <= Zpos p < 2 ^ Zpos (digits2_pos p).
Proof.
  rewrite digits2_pos_size. split.
  - pose proof (Pos.size_le p) as H.
    apply Pos2Z.pos_le_pos in H. rewrite Pos2Z.inj_pow in H.
    replace (Zpos (Pos.size p)) with (Zpos (Pos.size p) - 1 + 1) in H by lia.
    rewrite Z.pow_add_r in H by lia. change (Zpos p~0) with (2 * Zpos p) in H. lia.
  - pose proof (Pos.size_gt p) as H.
    apply Pos2Z.pos_lt_pos in H. now rewrite Pos2Z.inj_pow in H.
Qed.

Lemma digits_bounds m : 0 < m ->
  2 ^ (Zdigits2 m - 1) <= m < 2 ^ Zdigits2 m.
Proof. destruct m; try lia. intros _. apply digits_pos_bounds. Qed.

Lemma digits_pos m : 0 < m -> 0 < Zdigits2 m.
Proof. destruct m; simpl; lia. Qed.

Lemma digits_unique m d : 0 < m -> 2 ^ (d - 1) <= m < 2 ^ d -> Zdigits2 m = d.
Proof.
  intros Hm [Hl Hu]. pose proof (digits_bounds m Hm) as [Dl Du].
  pose proof (digits_pos m Hm) as Dp.
  assert (0 < d).
  { destruct (Z_lt_le_dec 0 d); trivial. exfalso.
    assert (2 ^ d <= 1) by (destruct (Z.eq_dec d 0); [subst; simpl; lia | rewrite Z.pow_neg_r; lia]).
    lia. }
  destruct (Z.lt_trichotomy (Zdigits2 m) d) as [H1|[H1|H1]]; trivial; exfalso.
  - assert (2 ^ Zdigits2 m <= 2 ^ (d - 1)) by (apply Z.pow_le_mono_r; lia). lia.
  - assert (2 ^ d <= 2 ^ (Zdigits2 m - 1)) by (apply Z.pow_le_mono_r; lia). lia.
Qed.

Lemma digits_shift m c : 0 < m -> 0 <= c -> Zdigits2 (m * 2 ^ c) = Zdigits2 m + c.
Proof.
  intros Hm Hc. pose proof (digits_bounds m Hm) as [Dl Du].
  pose proof (digits_pos m Hm) as Dp.
  assert (0 < 2 ^ c) by (apply Z.pow_pos_nonneg; lia).
  apply digits_unique. nia.
  replace (Zdigits2 m + c - 1) with (Zdigits2 m - 1 + c) by lia.
  rewrite !Z.pow_add_r by lia. nia.
Qed.

Lemma digits_le m d : 0 < m -> 0 <= d -> m < 2 ^ d -> Zdigits2 m <= d.
Proof.
  intros Hm Hd H. pose proof (digits_bounds m Hm) as [Dl Du].
  destruct (Z_le_gt_dec (Zdigits2 m) d); trivial. exfalso.
  assert (2 ^ d <= 2 ^ (Zdigits2 m - 1)) by (apply Z.pow_le_mono_r; lia). lia.
Qed.

Lemma digits_ge m d : 0 < m -> 2 ^ d <= m -> d < Zdigits2 m.
Proof.
  intros Hm H. pose proof (digits_bounds m Hm) as [Dl Du].
  destruct (Z_lt_le_dec d (Zdigits2 m)); trivial. exfalso.
  assert (2 ^ (Zdigits2 m) <= 2 ^ d) by (apply Z.pow_le_mono_r; lia). lia.
Qed.

(** ** Right shifts with rounding information *)

Lemma iter_pos_nat {A} (f : A -> A) p x :
  iter_pos f p x = Nat.iter (Pos.to_nat p) f x.
Proof.
  revert x. induction p as [p IH|p IH|]; intros x; simpl iter_pos.
  - rewrite !IH, Pos2Nat.inj_xI, <- Nat.iter_add, Nat.iter_succ_r.
    f_equal. lia.
  - rewrite !IH, Pos2Nat.inj_xO, <- Nat.iter_add. f_equal. lia.
  - reflexivity.
Qed.

Lemma shr_1_nonneg m r s : 0 <= m ->
  shr_1 (Build_shr_record m r s) = Build_shr_record (m / 2) (Z.odd m) (r || s).
Proof.
  intros Hm. rewrite <- Z.div2_div.
  destruct m as [|[p|p|]|]; try reflexivity; lia.
Qed.

Lemma mod_pow2_succ m n : 0 <= n ->
  m mod 2 ^ (n + 1) = 2 ^ n * ((m / 2 ^ n) mod 2) + m mod 2 ^ n.
Proof.
  intros Hn. rewrite Z.pow_add_r, Z.pow_1_r by lia.
  assert (0 < 2 ^ n) by (apply Z.pow_pos_nonneg; lia).
  rewrite Z.rem_mul_r by lia. lia.
Qed.

(** [n + 1] applications of [shr_1]: the quotient, the last bit shifted
    out, and whether anything below it was set. *)
Lemma shr_iter m r s n : 0 <= m ->
  Nat.iter (S n) shr_1 (Build_shr_record m r s) =
  Build_shr_record (m / 2 ^ (Z.of_nat n + 1))
                   (Z.odd (m / 2 ^ Z.of_nat n))
                   (r || s || negb (m mod 2 ^ Z.of_nat n =? 0)).
Proof.
  intros Hm. induction n as [|n IH].
  - unfold Nat.iter, nat_rect. rewrite shr_1_nonneg by trivial.
    simpl Z.of_nat. rewrite Z.pow_0_r, Z.div_1_r, Z.mod_1_r.
    simpl. now rewrite orb_false_r.
  - rewrite Nat.iter_succ, IH.
    assert (0 < 2 ^ Z.of_nat n) by (apply Z.pow_pos_nonneg; lia).
    assert (0 < 2 ^ (Z.of_nat n + 1)) by (apply Z.pow_pos_nonneg; lia).
    rewrite shr_1_nonneg by (apply Z.div_pos; lia).
    rewrite Nat2Z.inj_succ. unfold Z.succ.
    f_equal.
    + rewrite Z.div_div by lia. f_equal.
      rewrite (Z.pow_add_r 2 (Z.of_nat n + 1) 1) by lia. reflexivity.
    + rewrite (mod_pow2_succ m (Z.of_nat n)) by lia.
      rewrite (Zmod_odd (m / 2 ^ Z.of_nat n)).
      pose proof (Z.mod_pos_bound m (2 ^ Z.of_nat n) ltac:(lia)).
      destruct (Z.odd (m / 2 ^ Z.of_nat n)), r, s; simpl; trivial;
      destruct (Z.eqb_spec (m mod 2 ^ Z.of_nat n) 0) as [E0|E0];
      match goal with |- context [?a =? 0] => destruct (Z.eqb_spec a 0) as [E1|E1] end;
      simpl; trivial; exfalso; nia.
Qed.

(** Rounding after a right shift by [k] bits is [rne_div]. *)
Lemma shr_exact_rne m e k : 0 <= m -> 0 < k ->
  exists mrs, shr (shr_record_of_loc m loc_Exact) e k = (mrs, e + k) /\
              round_nearest_even (shr_m mrs) (loc_of_shr_record mrs) = rne_div m k.
Proof.
  intros Hm Hk. destruct k as [|p|p]; try lia.
  unfold shr, shr_record_of_loc. rewrite iter_pos_nat.
  destruct (Pos2Nat.is_succ p) as [n Hn]. rewrite Hn.
  rewrite shr_iter by trivial.
  eexists. split. reflexivity.
  assert (Hp : Zpos p = Z.of_nat n + 1) by lia.
  rewrite Hp. clear Hp Hn Hk p.
  set (j := Z.of_nat n). assert (Hj : 0 <= j) by lia. clearbody j.
  unfold rne_div. rewrite (mod_pow2_succ m j) by lia.
  rewrite (Z.pow_add_r 2 j 1), Z.pow_1_r by lia.
  assert (0 < 2 ^ j) by (apply Z.pow_pos_nonneg; lia).
  rewrite (Zmod_odd (m / 2 ^ j)).
  pose proof (Z.mod_pos_bound m (2 ^ j) ltac:(lia)).
  destruct (Z.odd (m / 2 ^ j));
  destruct (Z.eqb_spec (m mod 2 ^ j) 0) as [E0|E0];
  cbn [shr_m shr_r shr_s loc_of_shr_record round_nearest_even orb negb];
  match goal with |- context [?a ?= ?b] => destruct (Z.compare_spec a b) end;
  trivial; exfalso; nia.
Qed.

(** ** Rounding a quotient by a power of two *)

Lemma pow2_pos k : 0 <= k -> 0 < 2 ^ k.
Proof. intros; apply Z.pow_pos_nonneg; lia. Qed.

Lemma rne_div_0 m : rne_div m 0 = m.
Proof.
  unfold rne_div. rewrite Z.pow_0_r, Z.div_1_r, Z.mod_1_r. reflexivity.
Qed.

Lemma rne_div_range m k : 0 <= k ->
  m / 2 ^ k <= rne_div m k <= m / 2 ^ k + 1.
Proof.
  intros Hk. unfold rne_div.
  destruct (2 * (m mod 2 ^ k) ?= 2 ^ k); try destruct (Z.even _); lia.
Qed.

Lemma rne_div_exact m k : 0 <= k -> m mod 2 ^ k = 0 -> rne_div m k = m / 2 ^ k.
Proof.
  intros Hk H. unfold rne_div. rewrite H.
  pose proof (pow2_pos k Hk).
  destruct (Z.compare_spec (2 * 0) (2 ^ k)); lia.
Qed.

Lemma rne_div_mul c k j : 0 <= k <= j -> rne_div (c * 2 ^ j) k = c * 2 ^ (j - k).
Proof.
  intros H. replace j with ((j - k) + k) at 1 by lia.
  rewrite Z.pow_add_r by lia. pose proof (pow2_pos k ltac:(lia)).
  rewrite rne_div_exact by (try lia; rewrite Z.mul_assoc; apply Z.mod_mul; lia).
  rewrite Z.mul_assoc, Z.div_mul by lia. reflexivity.
Qed.

Lemma rne_div_down m k : 0 <= k -> 2 * (m mod 2 ^ k) < 2 ^ k -> rne_div m k = m / 2 ^ k.
Proof.
  intros Hk H. unfold rne_div.
  destruct (Z.compare_spec (2 * (m mod 2 ^ k)) (2 ^ k)); lia.
Qed.

Lemma rne_div_error m k : 0 <= k ->
  2 * Z.abs (rne_div m k * 2 ^ k - m) <= 2 ^ k.
Proof.
  intros Hk. pose proof (pow2_pos k Hk).
  pose proof (Z.div_mod m (2 ^ k) ltac:(lia)).
  pose proof (Z.mod_pos_bound m (2 ^ k) ltac:(lia)).
  unfold rne_div.
  destruct (Z.compare_spec (2 * (m mod 2 ^ k)) (2 ^ k)); try destruct (Z.even _); nia.
Qed.

Lemma rne_div_scale m k c : 0 <= k -> 0 <= c ->
  rne_div (m * 2 ^ c) (k + c) = rne_div m k.
Proof.
  intros Hk Hc. unfold rne_div.
  pose proof (pow2_pos k Hk). pose proof (pow2_pos c Hc).
  rewrite Z.pow_add_r by lia.
  rewrite (Z.mul_comm (2 ^ k) (2 ^ c)), (Z.mul_comm m (2 ^ c)).
  rewrite Z.div_mul_cancel_l by lia.
  rewrite Z.mul_mod_distr_l by lia.
  replace (2 * (2 ^ c * (m mod 2 ^ k)) ?= 2 ^ c * 2 ^ k)
    with (2 * (m mod 2 ^ k) ?= 2 ^ k); trivial.
  rewrite (Zmult_compare_compat_l _ _ (2 ^ c)) by lia.
  f_equal. lia.
Qed.

Lemma rne_div_lt_pow m k j : 0 <= k -> 0 <= j -> 0 <= m < 2 ^ (k + j) ->
  0 <= rne_div m k <= 2 ^ j.
Proof.
  intros Hk Hj [H0 H]. pose proof (pow2_pos k Hk). pose proof (pow2_pos j Hj).
  rewrite Z.pow_add_r in H by lia.
  pose proof (rne_div_range m k Hk).
  assert (0 <= m / 2 ^ k) by (apply Z.div_pos; lia).
  assert (m / 2 ^ k < 2 ^ j) by (apply Z.div_lt_upper_bound; lia).
  lia.
Qed.

Lemma rne_div_small m k : 0 < k -> 0 <= m -> 2 * m < 2 ^ k -> rne_div m k = 0.
Proof.
  intros Hk H0 H. pose proof (pow2_pos k ltac:(lia)).
  rewrite rne_div_down by (try lia; rewrite Z.mod_small; lia).
  apply Z.div_small; lia.
Qed.

Lemma rne_div_ge_pow m k j : 0 <= k -> 0 <= j -> 2 ^ (k + j) <= m ->
  2 ^ j <= rne_div m k.
Proof.
  intros Hk Hj H. pose proof (pow2_pos k Hk). pose proof (pow2_pos j Hj).
  rewrite Z.pow_add_r in H by lia.
  pose proof (rne_div_range m k Hk).
  assert (2 ^ j <= m / 2 ^ k) by (apply Z.div_le_lower_bound; lia).
  lia.
Qed.

Lemma shr_nop mrs e n : n <= 0 -> shr mrs e n = (mrs, e).
Proof. destruct n; trivial; lia. Qed.

Lemma cond_Zopp_0 s : cond_Zopp s 0 = 0.
Proof. now destruct s. Qed.

Lemma bounded_intro m e :
  Z.max (Zpos (digits2_pos m) + e - 24) (-149) = e -> e <= 104 ->
  bounded prec emax m e = true.
Proof.
  intros H1 H2. unfold bounded, canonical_mantissa. rewrite fexp_eq.
  apply andb_true_intro; split.
  - apply Z.eqb_eq. exact H1.
  - apply Z.leb_le. exact H2.
Qed.

Lemma bounded_elim m e :
  bounded prec emax m e = true ->
  Z.max (Zpos (digits2_pos m) + e - 24) (-149) = e /\ e <= 104.
Proof.
  unfold bounded, canonical_mantissa. rewrite fexp_eq.
  intros H. apply andb_prop in H. destruct H as [H1 H2].
  apply Z.eqb_eq in H1. apply Z.leb_le in H2. auto.
Qed.

(** The rounding step shared by all operations: an infinity on overflow,
    otherwise a valid number of the intended sign whose value is the
    mantissa rounded at the position the format prescribes. *)
Lemma bra_gen sgn m e :
  0 < m ->
  0 <= fexp prec emax (Zdigits2 m + e) - e ->
  let k := fexp prec emax (Zdigits2 m + e) - e in
  let f := binary_round_aux prec emax sgn m e loc_Exact in
  (f = S754_infinity sgn /\ 127 < Zdigits2 m + e) \/
  (is_f32 f /\ is_finite f = true /\ sign_of f = sgn /\
   quanta f = cond_Zopp sgn (rne_div m k * 2 ^ (e + k + 149))).
Proof.
  intros Hm Hk k f. subst f. unfold binary_round_aux, shr_fexp. fold k.
  fold k in Hk.
  assert (E : exists mrs, shr (shr_record_of_loc m loc_Exact) e k = (mrs, e + k) /\
              round_nearest_even (shr_m mrs) (loc_of_shr_record mrs) = rne_div m k).
  { destruct (Z.eq_dec k 0) as [K0|K0].
    - rewrite K0. eexists; split. rewrite Z.add_0_r; reflexivity.
      simpl. now rewrite rne_div_0.
    - apply shr_exact_rne; lia. }
  destruct E as [mrs [E1 E2]]. rewrite E1, E2. clear E1 E2 mrs.
  pose proof (digits_bounds m Hm) as [Dl Du].
  pose proof (digits_pos m Hm) as Dp.
  set (d := Zdigits2 m) in *.
  assert (Ke : e + k = Z.max (d + e - 24) (-149)) by (unfold k; rewrite fexp_eq; lia).
  set (m' := rne_div m k). set (e' := e + k) in *.
  replace (e + k + 149) with (e' + 149) by (unfold e'; lia).
  assert (Hm' : 0 <= m' <= 2 ^ 24 /\ (m' = 0 \/ e' = -149 \/ 2 ^ 23 <= m')).
  { destruct (Z_lt_le_dec (d - k) 0) as [J|J].
    - assert (m' = 0).
      { apply rne_div_small; try lia.
        assert (2 ^ (d + 1) <= 2 ^ k) by (apply Z.pow_le_mono_r; lia).
        rewrite Z.pow_add_r in H by lia. lia. }
      lia.
    - assert (B : 0 <= m' <= 2 ^ (d - k)).
      { apply rne_div_lt_pow; try lia. replace (k + (d - k)) with d by lia. lia. }
      assert (2 ^ (d - k) <= 2 ^ 24) by (apply Z.pow_le_mono_r; lia).
      split. lia.
      destruct (Z.eq_dec e' (-149)) as [E|E]; [now auto|].
      right; right. apply rne_div_ge_pow; try lia.
      replace (k + 23) with (d - 1) by lia. lia. }
  destruct Hm' as [[M0 M1] M2].
  assert (He' : -149 <= e' /\ (103 < e' -> 127 < d + e)) by lia.
  clearbody m' e'. clear Ke Hk k Dl Du Dp Hm.
  destruct (Z.eq_dec m' 0) as [Z0|NZ].
  { right. subst m'. simpl Zdigits2. rewrite shr_nop by (rewrite fexp_eq; lia).
    cbn [shr_record_of_loc shr_m]. cbv iota beta. rewrite Z.mul_0_l, cond_Zopp_0.
    repeat split. }
  destruct (Z.eq_dec m' (2 ^ 24)) as [C|NC].
  { subst m'. change (2 ^ 24) with 16777216. change (Zdigits2 16777216) with 25.
    replace (fexp prec emax (25 + e') - e') with 1 by (rewrite fexp_eq; lia).
    cbn [shr iter_pos shr_record_of_loc shr_1 shr_m].
    change (emax - prec) with 104.
    destruct (Z.leb_spec (e' + 1) 104) as [L|G]; [right|left; split; [reflexivity|lia]].
    split; [|split; [|split]]; trivial.
    - apply bounded_intro; simpl digits2_pos; lia.
    - cbn [quanta]. f_equal.
      replace (e' + 1 + 149) with (1 + (e' + 149)) by lia.
      rewrite (Z.pow_add_r 2 1 (e' + 149)) by lia. change (2 ^ 1) with 2. lia. }
  assert (0 < m' < 2 ^ 24) by lia.
  pose proof (digits_bounds m' ltac:(lia)) as [Dl Du].
  pose proof (digits_pos m' ltac:(lia)) as Dp.
  assert (Zdigits2 m' <= 24) by (apply digits_le; lia).
  assert (D' : Z.max (Zdigits2 m' + e' - 24) (-149) = e').
  { destruct M2 as [M2|[M2|M2]]; try lia.
    assert (23 < Zdigits2 m') by (apply digits_ge; lia). lia. }
  rewrite shr_nop by (rewrite fexp_eq; lia).
  destruct m' as [|p|p]; try lia.
  simpl shr_m. cbv iota beta.
  change (emax - prec) with 104.
  destruct (Z.leb_spec e' 104) as [L|G]; [right|left; split; [reflexivity|lia]].
  split; [|split; [|split]]; trivial.
  apply bounded_intro; trivial.
Qed.

(** The same without overflow. *)
Lemma bra_spec sgn m e :
  0 < m ->
  0 <= fexp prec emax (Zdigits2 m + e) - e ->
  Zdigits2 m + e <= 127 ->
  let k := fexp prec emax (Zdigits2 m + e) - e in
  let f := binary_round_aux prec emax sgn m e loc_Exact in
  is_f32 f /\ is_finite f = true /\ sign_of f = sgn /\
  quanta f = cond_Zopp sgn (rne_div m k * 2 ^ (e + k + 149)).
Proof.
  intros Hm Hk Hd k f.
  destruct (bra_gen sgn m e Hm Hk) as [[_ O]|F]; [lia | exact F].
Qed.

(** ** Rounding on the grid of quanta *)

Lemma rnd_0 s : 0 <= s -> rnd s 0 = 0.
Proof.
  intros Hs. unfold rnd. simpl Zdigits2.
  set (k := Z.max (0 - 24) s). assert (0 <= k) by lia.
  pose proof (pow2_pos k ltac:(lia)).
  rewrite rne_div_exact by (try lia; apply Z.mod_0_l; lia).
  rewrite Z.div_0_l by lia. reflexivity.
Qed.

Lemma rndZ_0 s : rndZ s 0 = 0.
Proof. reflexivity. Qed.

Lemma rndZ_opp s v : rndZ s (- v) = - rndZ s v.
Proof. unfold rndZ. rewrite Z.sgn_opp, Z.abs_opp. lia. Qed.

Lemma rndZ_pos s v : 0 <= s -> 0 <= v -> rndZ s v = rnd s v.
Proof.
  intros Hs H. unfold rndZ. destruct (Z.eq_dec v 0) as [->|N].
  - change (Z.abs 0) with 0. rewrite rnd_0 by lia. reflexivity.
  - rewrite Z.sgn_pos, Z.abs_eq by lia. lia.
Qed.

Lemma rnd_scale s v c : 0 < v -> 0 <= c -> 0 <= Z.max (Zdigits2 v - 24) s ->
  rnd (s + c) (v * 2 ^ c) = rnd s v.
Proof.
  intros Hv Hc Hk. unfold rnd. rewrite digits_shift by lia.
  replace (Z.max (Zdigits2 v + c - 24) (s + c)) with (Z.max (Zdigits2 v - 24) s + c) by lia.
  rewrite rne_div_scale by lia. f_equal. f_equal. lia.
Qed.

(** Values with at most 24 significant bits are not changed. *)
Lemma rnd_exact s c j : 0 <= s <= j -> 0 <= c < 2 ^ 24 ->
  rnd s (c * 2 ^ j) = c * 2 ^ (j - s).
Proof.
  intros Hs Hc. destruct (Z.eq_dec c 0) as [->|N].
  - rewrite !Z.mul_0_l. apply rnd_0; lia.
  - unfold rnd. rewrite digits_shift by lia.
    assert (Zdigits2 c <= 24) by (apply digits_le; lia).
    pose proof (digits_pos c ltac:(lia)).
    set (k := Z.max (Zdigits2 c + j - 24) s).
    assert (0 <= k <= j) by lia.
    rewrite rne_div_mul by lia.
    rewrite <- Z.mul_assoc, <- Z.pow_add_r by lia. f_equal. f_equal. lia.
Qed.

Lemma rndZ_exact s c j : 0 <= s <= j -> Z.abs c < 2 ^ 24 ->
  rndZ s (c * 2 ^ j) = c * 2 ^ (j - s).
Proof.
  intros Hs Hc. unfold rndZ. pose proof (pow2_pos j ltac:(lia)).
  rewrite Z.abs_mul, (Z.abs_eq (2 ^ j)) by lia.
  rewrite rnd_exact by lia.
  rewrite Z.sgn_mul, (Z.sgn_pos (2 ^ j)) by lia.
  rewrite Z.mul_1_r, Z.mul_assoc. f_equal. pose proof (Z.abs_sgn c). lia.
Qed.

(** The error is at most half a unit in the last place. *)
Lemma rnd_error s v : 0 <= s -> 0 <= v ->
  2 * Z.abs (rnd s v * 2 ^ s - v) <= 2 ^ Z.max (Zdigits2 v - 24) s.
Proof.
  intros Hs Hv. unfold rnd. set (k := Z.max (Zdigits2 v - 24) s).
  rewrite <- Z.mul_assoc, <- Z.pow_add_r by lia.
  replace (k - s + s) with k by lia.
  apply rne_div_error. lia.
Qed.

(** Rounding does not cross a power of two. *)
Lemma rnd_le_pow s v j : 0 <= s <= j -> 0 <= v <= 2 ^ j -> rnd s v <= 2 ^ (j - s).
Proof.
  intros Hs [H0 H]. destruct (Z.eq_dec v (2 ^ j)) as [->|N].
  - replace (2 ^ j) with (1 * 2 ^ j) at 1 by lia.
    rewrite rnd_exact by (try lia; change (2 ^ 24) with 16777216; lia). lia.
  - destruct (Z.eq_dec v 0) as [->|N0].
    { rewrite rnd_0 by lia. pose proof (pow2_pos (j - s)); lia. }
    unfold rnd. set (k := Z.max (Zdigits2 v - 24) s).
    assert (Zdigits2 v <= j) by (apply digits_le; lia).
    assert (0 <= k <= j) by lia.
    pose proof (rne_div_lt_pow v k (j - k) ltac:(lia) ltac:(lia)) as B.
    replace (k + (j - k)) with j in B by lia.
    specialize (B ltac:(lia)).
    replace (j - s) with ((j - k) + (k - s)) by lia.
    rewrite Z.pow_add_r by lia.
    pose proof (pow2_pos (k - s) ltac:(lia)). nia.
Qed.

Lemma rnd_ge_pow s v j : 0 <= s <= j -> 2 ^ j <= v -> 2 ^ (j - s) <= rnd s v.
Proof.
  intros Hs H. pose proof (pow2_pos j ltac:(lia)).
  unfold rnd. set (k := Z.max (Zdigits2 v - 24) s).
  assert (j < Zdigits2 v) by (apply digits_ge; lia).
  destruct (Z_le_gt_dec k j) as [L|G].
  - pose proof (rne_div_ge_pow v k (j - k) ltac:(lia) ltac:(lia)) as B.
    replace (k + (j - k)) with j in B by lia. specialize (B H).
    replace (j - s) with ((j - k) + (k - s)) by lia.
    rewrite Z.pow_add_r by lia.
    pose proof (pow2_pos (k - s) ltac:(lia)). nia.
  - (* k = digits - 24 > j, so the mantissa keeps 24 bits *)
    assert (k = Zdigits2 v - 24) by lia.
    pose proof (digits_bounds v ltac:(lia)) as [Dl _].
    pose proof (rne_div_ge_pow v k 23 ltac:(lia) ltac:(lia)) as B.
    replace (k + 23) with (Zdigits2 v - 1) in B by lia. specialize (B Dl).
    assert (2 ^ (j - s) <= 2 ^ (k - s)) by (apply Z.pow_le_mono_r; lia).
    change (2 ^ 23) with 8388608 in B.
    pose proof (pow2_pos (k - s) ltac:(lia)). nia.
Qed.

Lemma rnd_nonneg s v : 0 <= s -> 0 <= v -> 0 <= rnd s v.
Proof.
  intros Hs Hv. unfold rnd. set (k := Z.max (Zdigits2 v - 24) s).
  assert (0 <= k) by lia.
  pose proof (rne_div_range v k ltac:(lia)).
  assert (0 <= v / 2 ^ k) by (apply Z.div_pos; [lia | apply pow2_pos; lia]).
  pose proof (pow2_pos (k - s) ltac:(lia)). nia.
Qed.

(** ** Valid binary32 numbers *)

Lemma f32_finite_inv s m e : is_f32 (S754_finite s m e) ->
  -149 <= e <= 104 /\ Zpos m < 2 ^ 24 /\ (e = -149 \/ 2 ^ 23 <= Zpos m).
Proof.
  unfold is_f32. cbn [valid_binary]. intros H.
  apply bounded_elim in H. destruct H as [H1 H2].
  pose proof (digits_pos_bounds m) as [Dl Du].
  assert (D : Zpos (digits2_pos m) <= 24) by lia.
  assert (2 ^ Zpos (digits2_pos m) <= 2 ^ 24) by (apply Z.pow_le_mono_r; lia).
  split; [lia|]. split; [lia|].
  destruct (Z.eq_dec e (-149)); [now left|right].
  assert (Zpos (digits2_pos m) = 24) by lia.
  replace 23 with (Zpos (digits2_pos m) - 1) by lia. exact Dl.
Qed.

Lemma quanta_finite_abs s m e : -149 <= e ->
  Z.abs (quanta (S754_finite s m e)) = Zpos m * 2 ^ (e + 149).
Proof.
  intros He. pose proof (pow2_pos (e + 149) ltac:(lia)).
  assert (0 < Zpos m * 2 ^ (e + 149)) by (apply Z.mul_pos_pos; lia).
  cbn [quanta]. destruct s; cbn [cond_Zopp]; lia.
Qed.

Lemma quanta_bound x : is_f32 x -> Z.abs (quanta x) < 2 ^ 277.
Proof.
  destruct x as [s|s| |s m e]; try (intros _; simpl; lia).
  intros H. apply f32_finite_inv in H. destruct H as [He [Hm _]].
  rewrite quanta_finite_abs by lia.
  assert (2 ^ (e + 149) <= 2 ^ 253) by (apply Z.pow_le_mono_r; lia).
  pose proof (pow2_pos (e + 149) ltac:(lia)).
  change (2 ^ 277) with (2 ^ 24 * 2 ^ 253). nia.
Qed.

Lemma rndZ_quanta x : is_f32 x -> rndZ 0 (quanta x) = quanta x.
Proof.
  destruct x as [s|s| |s m e]; try reflexivity.
  intros H. apply f32_finite_inv in H. destruct H as [He [Hm _]].
  cbn [quanta].
  replace (cond_Zopp s (Zpos m * 2 ^ (e + 149)))
    with (cond_Zopp s (Zpos m) * 2 ^ (e + 149)) by (destruct s; cbn [cond_Zopp]; ring).
  rewrite rndZ_exact; try lia.
  - now rewrite Z.sub_0_r.
  - destruct s; cbn [cond_Zopp]; lia.
Qed.

Lemma quanta_zero_iff x : is_f32 x -> is_finite x = true ->
  (quanta x = 0 <-> is_zero x = true).
Proof.
  destruct x as [s|s| |s m e]; intros V H; cbn [is_finite is_zero quanta] in *;
    try discriminate; split; trivial; intros E; [exfalso|discriminate].
  apply f32_finite_inv in V. destruct V as [He _].
  pose proof (pow2_pos (e + 149) ltac:(lia)).
  assert (0 < Zpos m * 2 ^ (e + 149)) by (apply Z.mul_pos_pos; lia).
  destruct s; cbn [cond_Zopp] in E; lia.
Qed.

(** ** The operations on quanta *)

Lemma iter_xO m p : Zpos (Pos.iter xO m p) = Zpos m * 2 ^ Zpos p.
Proof.
  induction p as [|p IH] using Pos.peano_ind.
  - cbn [Pos.iter]. change (2 ^ 1) with 2. lia.
  - rewrite Pos.iter_succ, Pos2Z.inj_succ, Z.pow_succ_r by lia.
    change (Zpos (Pos.iter xO m p)~0) with (2 * Zpos (Pos.iter xO m p)).
    rewrite IH. ring.
Qed.

Lemma shl_align_spec m e e' :
  snd (shl_align m e e') = Z.min e e' /\
  Zpos (fst (shl_align m e e')) = Zpos m * 2 ^ (e - Z.min e e').
Proof.
  unfold shl_align. destruct (e' - e) as [|d|d] eqn:D; cbn [fst snd].
  - replace (Z.min e e') with e by lia. rewrite Z.sub_diag. simpl. lia.
  - replace (Z.min e e') with e by lia. rewrite Z.sub_diag. simpl. lia.
  - replace (Z.min e e') with e' by lia. rewrite iter_xO.
    split; trivial. f_equal. f_equal. lia.
Qed.

Lemma pow_split a b : 0 <= a -> 0 <= b -> 2 ^ (a + b) = 2 ^ a * 2 ^ b.
Proof. intros; apply Z.pow_add_r; lia. Qed.

(** [binary_round] first aligns the mantissa; in quanta it is [rnd 0]. *)
Lemma binary_round_gen sgn m e :
  -149 <= e ->
  let f := binary_round prec emax sgn m e in
  (f = S754_infinity sgn /\ 127 < Zpos (digits2_pos m) + e) \/
  (is_f32 f /\ is_finite f = true /\ sign_of f = sgn /\
   quanta f = cond_Zopp sgn (rnd 0 (Zpos m * 2 ^ (e + 149)))).
Proof.
  intros He f. subst f. unfold binary_round.
  set (t := fexp prec emax (Zpos (digits2_pos m) + e)).
  assert (Ht : t = Z.max (Zpos (digits2_pos m) + e - 24) (-149)) by (unfold t; now rewrite fexp_eq).
  pose proof (shl_align_spec m e t) as [Ez Mz].
  destruct (shl_align m e t) as [mz ez]. cbn [fst snd] in Ez, Mz.
  rewrite <- Ez in Mz.
  assert (Dz : Zdigits2 (Zpos mz) = Zpos (digits2_pos m) + (e - ez)).
  { rewrite Mz. apply (digits_shift (Zpos m)); lia. }
  assert (Tz : fexp prec emax (Zdigits2 (Zpos mz) + ez) = t).
  { rewrite Dz. unfold t. f_equal. lia. }
  pose proof (bra_gen sgn (Zpos mz) ez ltac:(lia)) as B.
  rewrite Tz in B. specialize (B ltac:(lia)).
  cbv zeta in B. destruct B as [[B1 B2]|(B1 & B2 & B3 & B4)]; [left; split; [trivial|lia]|right].
  repeat split; trivial.
  rewrite B4. f_equal.
  unfold rnd.
  assert (V : Zpos m * 2 ^ (e + 149) = Zpos mz * 2 ^ (ez + 149)).
  { rewrite Mz, <- Z.mul_assoc, <- pow_split by lia. f_equal. f_equal. lia. }
  rewrite V. rewrite digits_shift by lia.
  replace (Z.max (Zdigits2 (Zpos mz) + (ez + 149) - 24) 0) with ((t - ez) + (ez + 149)) by lia.
  rewrite rne_div_scale by lia. f_equal. f_equal. lia.
Qed.

Lemma cond_Zopp_sgn s v : 0 < v -> Z.sgn (cond_Zopp s v) = if s then -1 else 1.
Proof. intros; destruct s; cbn [cond_Zopp]; [apply Z.sgn_neg | apply Z.sgn_pos]; lia. Qed.

(** [binary_normalize], with its sign handling, is [rndZ 0]. *)
Lemma binary_normalize_gen n e sz :
  -149 <= e ->
  let f := binary_normalize prec emax n e sz in
  (exists s, f = S754_infinity s /\ 2 ^ 276 <= Z.abs n * 2 ^ (e + 149)) \/
  (is_f32 f /\ is_finite f = true /\ quanta f = rndZ 0 (n * 2 ^ (e + 149))).
Proof.
  intros He f. subst f.
  pose proof (pow2_pos (e + 149) ltac:(lia)) as P.
  assert (D : forall p, 127 < Zpos (digits2_pos p) + e -> 2 ^ 276 <= Zpos p * 2 ^ (e + 149)).
  { intros p L. pose proof (digits_pos_bounds p) as [Dl _].
    assert (2 ^ 276 <= 2 ^ (Zpos (digits2_pos p) - 1 + (e + 149))) by (apply Z.pow_le_mono_r; lia).
    rewrite pow_split in H by lia. nia. }
  destruct n as [|p|p]; cbn [binary_normalize].
  - right. repeat split.
  - destruct (binary_round_gen false p e He) as [[B1 B2]|(B1 & B2 & _ & B4)].
    + left. exists false. split; trivial. apply D; trivial.
    + right. repeat split; trivial. rewrite B4. cbn [cond_Zopp].
      rewrite rndZ_pos; lia.
  - destruct (binary_round_gen true p e He) as [[B1 B2]|(B1 & B2 & _ & B4)].
    + left. exists true. split; trivial. apply D; trivial.
    + right. repeat split; trivial. rewrite B4. cbn [cond_Zopp].
      change (Zneg p) with (- Zpos p). rewrite Z.mul_opp_l, rndZ_opp.
      rewrite rndZ_pos; lia.
Qed.

Lemma binary_normalize_spec n e sz :
  -149 <= e -> Z.abs n * 2 ^ (e + 149) < 2 ^ 276 ->
  let f := binary_normalize prec emax n e sz in
  is_f32 f /\ is_finite f = true /\ quanta f = rndZ 0 (n * 2 ^ (e + 149)).
Proof.
  intros He Hb f.
  destruct (binary_normalize_gen n e sz He) as [[s [_ O]]|F]; [lia | exact F].
Qed.

(** Conversion from an integer. *)
Lemma of_Z_spec n : Z.abs n < 2 ^ 127 ->
  is_f32 (of_Z n) /\ is_finite (of_Z n) = true /\
  quanta (of_Z n) = rndZ 0 (n * 2 ^ 149).
Proof.
  intros H. apply (binary_normalize_spec n 0 false); lia.
Qed.

(** Integers of at most 24 bits convert exactly. *)
Lemma of_Z_exact n : Z.abs n <= 2 ^ 24 ->
  is_f32 (of_Z n) /\ is_finite (of_Z n) = true /\ quanta (of_Z n) = n * 2 ^ 149.
Proof.
  intros H. destruct (of_Z_spec n) as (A & B & C). { lia. }
  repeat split; trivial. rewrite C.
  destruct (Z.eq_dec (Z.abs n) (2 ^ 24)) as [E|E].
  - assert (n = 2 ^ 24 \/ n = - 2 ^ 24) as [-> | ->] by lia; reflexivity.
  - rewrite rndZ_exact by lia. f_equal.
Qed.

Lemma is_f32_opp s m e : is_f32 (S754_finite s m e) -> is_f32 (S754_finite (negb s) m e).
Proof. exact (fun H => H). Qed.

Lemma quanta_opp x : quanta (fopp x) = - quanta x.
Proof.
  destruct x as [s|s| |s m e]; try reflexivity.
  cbn [fopp SFopp quanta]. destruct s; cbn [negb cond_Zopp]; lia.
Qed.

Lemma quanta_abs x : quanta (fabs x) = Z.abs (quanta x).
Proof.
  destruct x as [s|s| |s m e]; try reflexivity.
  cbn [fabs SFabs quanta cond_Zopp].
  assert (0 <= Zpos m * 2 ^ (e + 149)) by (apply Z.mul_nonneg_nonneg; [lia|apply Z.pow_nonneg; lia]).
  destruct s; cbn [cond_Zopp]; lia.
Qed.

Lemma quanta_finite s m e :
  quanta (S754_finite s m e) = cond_Zopp s (Zpos m) * 2 ^ (e + 149).
Proof. cbn [quanta]. destruct s; cbn [cond_Zopp]; ring. Qed.

(** Subtraction: the exact difference, rounded; an infinity only when the
    difference is out of range. *)
Lemma fsub_gen a b :
  is_f32 a -> is_f32 b -> is_finite a = true -> is_finite b = true ->
  (exists s, fsub a b = S754_infinity s /\ 2 ^ 276 <= Z.abs (quanta a - quanta b)) \/
  (is_f32 (fsub a b) /\ is_finite (fsub a b) = true /\
   quanta (fsub a b) = rndZ 0 (quanta a - quanta b)).
Proof.
  intros Va Vb Fa Fb.
  destruct a as [sa|sa| |sa ma ea]; try discriminate;
  destruct b as [sb|sb| |sb mb eb]; try discriminate.
  - right. destruct sa, sb; repeat split.
  - right. unfold fsub. cbn [SFsub]. repeat split; trivial.
    change (quanta (S754_finite (negb sb) mb eb)) with (quanta (fopp (S754_finite sb mb eb))).
    rewrite quanta_opp. change (quanta (S754_zero sa)) with 0.
    replace (0 - quanta (S754_finite sb mb eb)) with (- quanta (S754_finite sb mb eb)) by lia.
    rewrite rndZ_opp, (rndZ_quanta _ Vb). reflexivity.
  - right. unfold fsub. cbn [SFsub]. repeat split; trivial.
    change (quanta (S754_zero sb)) with 0.
    rewrite Z.sub_0_r, (rndZ_quanta _ Va). reflexivity.
  - pose proof (f32_finite_inv _ _ _ Va) as (Ea & Ma & _).
    pose proof (f32_finite_inv _ _ _ Vb) as (Eb & Mb & _).
    unfold fsub. cbn [SFsub].
    pose proof (shl_align_spec ma ea (Z.min ea eb)) as [_ A].
    pose proof (shl_align_spec mb eb (Z.min ea eb)) as [_ B].
    rewrite A, B. clear A B.
    replace (Z.min ea (Z.min ea eb)) with (Z.min ea eb) by lia.
    replace (Z.min eb (Z.min ea eb)) with (Z.min ea eb) by lia.
    set (ez := Z.min ea eb).
    assert (Q : quanta (S754_finite sa ma ea) - quanta (S754_finite sb mb eb) =
                (cond_Zopp sa (Zpos ma * 2 ^ (ea - ez)) - cond_Zopp sb (Zpos mb * 2 ^ (eb - ez)))
                * 2 ^ (ez + 149)).
    { rewrite !quanta_finite.
      replace (ea + 149) with ((ea - ez) + (ez + 149)) by lia.
      replace (eb + 149) with ((eb - ez) + (ez + 149)) at 1 by lia.
      rewrite (pow_split (ea - ez) (ez + 149)), (pow_split (eb - ez) (ez + 149)) by (unfold ez; lia).
      destruct sa, sb; cbn [cond_Zopp]; ring. }
    rewrite Q.
    pose proof (pow2_pos (ez + 149) ltac:(unfold ez; lia)).
    rewrite Z.abs_mul, (Z.abs_eq (2 ^ (ez + 149))) by lia.
    apply binary_normalize_gen. unfold ez; lia.
Qed.

(** The same without overflow. *)
Lemma fsub_spec a b :
  is_f32 a -> is_f32 b -> is_finite a = true -> is_finite b = true ->
  Z.abs (quanta a - quanta b) < 2 ^ 276 ->
  is_f32 (fsub a b) /\ is_finite (fsub a b) = true /\
  quanta (fsub a b) = rndZ 0 (quanta a - quanta b).
Proof.
  intros Va Vb Fa Fb Hb.
  destruct (fsub_gen a b Va Vb Fa Fb) as [[s [_ O]]|F]; [lia | exact F].
Qed.

(** Multiplication: the exact product, counted in units of [2^-298],
    rounded to quanta. *)
Lemma fmul_spec a b :
  is_f32 a -> is_f32 b -> is_finite a = true -> is_finite b = true ->
  Z.abs (quanta a * quanta b) < 2 ^ 425 ->
  is_f32 (fmul a b) /\ is_finite (fmul a b) = true /\
  sign_of (fmul a b) = xorb (sign_of a) (sign_of b) /\
  quanta (fmul a b) = rndZ 149 (quanta a * quanta b).
Proof.
  intros Va Vb Fa Fb Hb.
  destruct a as [sa|sa| |sa ma ea]; try discriminate;
  destruct b as [sb|sb| |sb mb eb]; try discriminate;
  try (unfold fmul; cbn [SFmul quanta sign_of];
       rewrite ?Z.mul_0_l, ?Z.mul_0_r; repeat split; fail).
  pose proof (f32_finite_inv _ _ _ Va) as (Ea & Ma & Na).
  pose proof (f32_finite_inv _ _ _ Vb) as (Eb & Mb & Nb).
  unfold fmul. cbn [SFmul sign_of].
  set (m := Zpos (ma * mb)). set (e := ea + eb).
  assert (Hm : m = Zpos ma * Zpos mb) by reflexivity.
  assert (V : Z.abs (quanta (S754_finite sa ma ea) * quanta (S754_finite sb mb eb))
              = m * 2 ^ (e + 298)).
  { rewrite Z.abs_mul, !quanta_finite_abs by lia.
    replace (e + 298) with ((ea + 149) + (eb + 149)) by (unfold e; lia).
    rewrite (pow_split (ea + 149) (eb + 149)) by lia. rewrite Hm. ring. }
  rewrite V in Hb.
  pose proof (pow2_pos (e + 298) ltac:(unfold e; lia)) as P.
  assert (Hd : Zdigits2 m + e <= 127).
  { assert (Zdigits2 m <= 127 - e); [|lia].
    assert (e + 298 < 425) by (apply (Z.pow_lt_mono_r_iff 2); try lia; nia).
    apply digits_le; try lia.
    apply (Z.mul_lt_mono_pos_r (2 ^ (e + 298))); trivial.
    rewrite <- pow_split by lia. replace (127 - e + (e + 298)) with 425 by lia. exact Hb. }
  assert (Hk : 0 <= Z.max (Zdigits2 m - 24) (-149 - e)).
  { destruct (Z.eq_dec ea (-149)); destruct (Z.eq_dec eb (-149)); try (unfold e; lia);
    assert (23 < Zdigits2 m) by (apply digits_ge; [lia|]; change (2 ^ 23) with 8388608 in *; nia); lia. }
  pose proof (bra_spec (xorb sa sb) m e ltac:(lia)) as B.
  rewrite fexp_eq in B.
  replace (Z.max (Zdigits2 m + e - 24) (-149) - e) with (Z.max (Zdigits2 m - 24) (-149 - e)) in B by lia.
  specialize (B Hk Hd). cbv zeta in B. destruct B as (B1 & B2 & B3 & B4).
  repeat split; trivial.
  rewrite B4. unfold rndZ. rewrite V.
  assert (S : Z.sgn (quanta (S754_finite sa ma ea) * quanta (S754_finite sb mb eb))
              = cond_Zopp (xorb sa sb) 1).
  { rewrite Z.sgn_mul. cbn [quanta].
    rewrite !cond_Zopp_sgn by (apply Z.mul_pos_pos; try lia; apply pow2_pos; lia).
    now destruct sa, sb. }
  rewrite S.
  replace (rnd 149 (m * 2 ^ (e + 298))) with
          (rne_div m (Z.max (Zdigits2 m - 24) (-149 - e)) *
           2 ^ (e + Z.max (Zdigits2 m - 24) (-149 - e) + 149)).
  { destruct (xorb sa sb); cbn [cond_Zopp]; lia. }
  unfold rnd. rewrite digits_shift by lia.
  replace (Z.max (Zdigits2 m + (e + 298) - 24) 149)
     with (Z.max (Zdigits2 m - 24) (-149 - e) + (e + 298)) by lia.
  rewrite rne_div_scale by lia. f_equal. f_equal. lia.
Qed.

(** ** Comparison *)

(** Among valid numbers a smaller exponent means a smaller magnitude. *)
Lemma mag_lt m1 e1 m2 e2 s1 s2 :
  is_f32 (S754_finite s1 m1 e1) -> is_f32 (S754_finite s2 m2 e2) -> e1 < e2 ->
  Zpos m1 * 2 ^ (e1 + 149) < Zpos m2 * 2 ^ (e2 + 149).
Proof.
  intros V1 V2 L.
  apply f32_finite_inv in V1. destruct V1 as (E1 & M1 & _).
  apply f32_finite_inv in V2. destruct V2 as (E2 & M2 & N2).
  replace (e2 + 149) with ((e2 - e1 - 1) + (1 + (e1 + 149))) by lia.
  rewrite (pow_split (e2 - e1 - 1) (1 + (e1 + 149))), (pow_split 1 (e1 + 149)) by lia.
  pose proof (pow2_pos (e1 + 149) ltac:(lia)).
  pose proof (pow2_pos (e2 - e1 - 1) ltac:(lia)).
  change (2 ^ 1) with 2. change (2 ^ 23) with 8388608 in N2. change (2 ^ 24) with 16777216 in M1.
  set (X := 2 ^ (e1 + 149)) in *. set (Y := 2 ^ (e2 - e1 - 1)) in *.
  assert (8388608 <= Zpos m2) by lia.
  assert (Zpos m1 * X < 16777216 * X) by nia.
  assert (16777216 * X <= 8388608 * (Y * (2 * X))) by nia.
  assert (8388608 * (Y * (2 * X)) <= Zpos m2 * (Y * (2 * X))) by (apply Z.mul_le_mono_nonneg_r; nia).
  lia.
Qed.

(** Comparison of finite numbers is comparison of their quanta. *)
Lemma fcompare_spec a b :
  is_f32 a -> is_f32 b -> is_finite a = true -> is_finite b = true ->
  SFcompare a b = Some (quanta a ?= quanta b).
Proof.
  intros Va Vb Fa Fb.
  destruct a as [sa|sa| |sa ma ea]; try discriminate;
  destruct b as [sb|sb| |sb mb eb]; try discriminate; cbn [SFcompare].
  - reflexivity.
  - pose proof (f32_finite_inv _ _ _ Vb) as (Eb & Mb & _).
    pose proof (pow2_pos (eb + 149) ltac:(lia)).
    assert (0 < Zpos mb * 2 ^ (eb + 149)) by (apply Z.mul_pos_pos; lia).
    f_equal. symmetry. cbn [quanta].
    destruct sb; cbn [cond_Zopp]; [apply Z.compare_gt_iff | apply Z.compare_lt_iff]; lia.
  - pose proof (f32_finite_inv _ _ _ Va) as (Ea & Ma & _).
    pose proof (pow2_pos (ea + 149) ltac:(lia)).
    assert (0 < Zpos ma * 2 ^ (ea + 149)) by (apply Z.mul_pos_pos; lia).
    f_equal. symmetry. cbn [quanta].
    destruct sa; cbn [cond_Zopp]; [apply Z.compare_lt_iff | apply Z.compare_gt_iff]; lia.
  - pose proof (f32_finite_inv _ _ _ Va) as (Ea & Ma & _).
    pose proof (f32_finite_inv _ _ _ Vb) as (Eb & Mb & _).
    pose proof (pow2_pos (ea + 149) ltac:(lia)).
    pose proof (pow2_pos (eb + 149) ltac:(lia)).
    assert (0 < Zpos ma * 2 ^ (ea + 149)) by (apply Z.mul_pos_pos; lia).
    assert (0 < Zpos mb * 2 ^ (eb + 149)) by (apply Z.mul_pos_pos; lia).
    assert (C : (Zpos ma * 2 ^ (ea + 149) ?= Zpos mb * 2 ^ (eb + 149)) =
                match ea ?= eb with
                | Eq => Pos.compare_cont Eq ma mb
                | Lt => Lt
                | Gt => Gt
                end).
    { destruct (Z.compare_spec ea eb) as [E|L|G].
      - subst eb. change (Pos.compare_cont Eq ma mb) with (Zpos ma ?= Zpos mb).
        destruct (Z.compare_spec (Zpos ma) (Zpos mb)) as [E|L|G].
        + rewrite E. apply Z.compare_refl.
        + apply Z.compare_lt_iff. nia.
        + apply Z.compare_gt_iff. nia.
      - apply Z.compare_lt_iff. apply (mag_lt _ _ _ _ sa sb); trivial.
      - apply Z.compare_gt_iff. apply (mag_lt _ _ _ _ sb sa); trivial. }
    f_equal. cbn [quanta].
    destruct sa, sb; cbn [cond_Zopp].
    + rewrite Z.compare_opp, (Z.compare_antisym (Zpos ma * 2 ^ (ea + 149)) (Zpos mb * 2 ^ (eb + 149))), C.
      destruct (ea ?= eb); trivial.
    + symmetry. apply Z.compare_lt_iff. lia.
    + symmetry. apply Z.compare_gt_iff. lia.
    + rewrite C. reflexivity.
Qed.

Lemma flt_spec a b :
  is_f32 a -> is_f32 b -> is_finite a = true -> is_finite b = true ->
  flt a b = (quanta a <? quanta b).
Proof.
  intros. unfold flt, SFltb, Z.ltb. rewrite fcompare_spec by trivial.
  now destruct (quanta a ?= quanta b).
Qed.

Lemma feq_spec a b :
  is_f32 a -> is_f32 b -> is_finite a = true -> is_finite b = true ->
  feq a b = (quanta a =? quanta b).
Proof.
  intros. unfold feq, SFeqb. rewrite fcompare_spec, Z.eqb_compare by trivial.
  reflexivity.
Qed.

(** Equal values have equal representations, up to the sign of zero. *)
Lemma quanta_inj a b :
  is_f32 a -> is_f32 b -> is_finite a = true -> is_finite b = true ->
  quanta a = quanta b -> a = b \/ (is_zero a = true /\ is_zero b = true).
Proof.
  intros Va Vb Fa Fb Q.
  destruct (Z.eq_dec (quanta a) 0) as [Z|NZ].
  - right. split; apply quanta_zero_iff; trivial; congruence.
  - left.
    destruct a as [sa|sa| |sa ma ea]; try discriminate; [now elim NZ|].
    destruct b as [sb|sb| |sb mb eb]; try discriminate; [now elim NZ; rewrite Q|].
    pose proof (f32_finite_inv _ _ _ Va) as (Ea & Ma & _).
    pose proof (f32_finite_inv _ _ _ Vb) as (Eb & Mb & _).
    pose proof (pow2_pos (ea + 149) ltac:(lia)).
    pose proof (pow2_pos (eb + 149) ltac:(lia)).
    assert (0 < Zpos ma * 2 ^ (ea + 149)) by (apply Z.mul_pos_pos; lia).
    assert (0 < Zpos mb * 2 ^ (eb + 149)) by (apply Z.mul_pos_pos; lia).
    assert (S : sa = sb).
    { cbn [quanta] in Q. destruct sa, sb; cbn [cond_Zopp] in Q; trivial; lia. }
    subst sb.
    assert (M : Zpos ma * 2 ^ (ea + 149) = Zpos mb * 2 ^ (eb + 149)).
    { cbn [quanta] in Q. destruct sa; cbn [cond_Zopp] in Q; lia. }
    assert (ea = eb).
    { destruct (Z.lt_trichotomy ea eb) as [L|[E|G]]; trivial; exfalso.
      - pose proof (mag_lt _ _ _ _ sa sa Va Vb L). lia.
      - pose proof (mag_lt _ _ _ _ sa sa Vb Va G). lia. }
    subst eb. assert (Zpos ma = Zpos mb) by nia. congruence.
Qed.

(** ** The absolute-value mask *)

Lemma abs_mask : Sse2.lane0 Sse2.abs = Z.ones 31.
Proof. reflexivity. Qed.

(** Decoding a non-negative word from its exponent and fraction fields. *)
Lemma of_bits_fields be fr :
  0 <= be < 256 -> 0 <= fr < 2 ^ 23 ->
  of_bits (be * 2 ^ 23 + fr) =
    let s := false in
    if be =? 0 then
      match fr with Zpos m => S754_finite s m (-149) | _ => S754_zero s end
    else if be =? 255 then
      (if fr =? 0 then S754_infinity s else S754_nan)
    else
      match fr + 2 ^ 23 with
      | Zpos m => S754_finite s m (be - 150)
      | _ => S754_nan
      end.
Proof.
  intros Hbe Hfr. unfold of_bits.
  assert (T : Z.testbit (be * 2 ^ 23 + fr) 31 = false).
  { apply Z.testbit_false; [lia|].
    rewrite Z.div_small; [reflexivity|]. change (2 ^ 31) with (256 * 2 ^ 23). nia. }
  assert (B : Z.land (Z.shiftr (be * 2 ^ 23 + fr) 23) (Z.ones 8) = be).
  { rewrite Z.shiftr_div_pow2, Z.land_ones by lia.
    rewrite Z.div_add_l, (Z.div_small fr) by lia.
    rewrite Z.add_0_r. apply Z.mod_small. change (2 ^ 8) with 256. lia. }
  assert (F : Z.land (be * 2 ^ 23 + fr) (Z.ones 23) = fr).
  { rewrite Z.land_ones by lia. rewrite Z.add_comm, Z.mod_add by lia.
    apply Z.mod_small; lia. }
  rewrite T, B, F. reflexivity.
Qed.

(** Anding with the mask [0x7fffffff] clears the sign: [fabs]. *)
Lemma and_bits_abs x : is_f32 x -> Sse2.and_bits x (Sse2.lane0 Sse2.abs) = fabs x.
Proof.
  intros V. unfold Sse2.and_bits. rewrite abs_mask, Z.land_ones by lia.
  destruct x as [s|s| |s m e].
  - destruct s; reflexivity.
  - destruct s; reflexivity.
  - reflexivity.
  - apply f32_finite_inv in V. destruct V as (He & Hm & Hn).
    change (2 ^ 24) with 16777216 in Hm. change (2 ^ 23) with 8388608 in Hn.
    cbn [bits_of fabs SFabs].
    set (mag := if Zpos m <? 2 ^ 23 then Zpos m else (e + 150) * 2 ^ 23 + (Zpos m - 2 ^ 23)).
    assert (M : 0 <= mag < 2 ^ 31).
    { unfold mag. change (2 ^ 23) with 8388608. change (2 ^ 31) with 2147483648.
      destruct (Z.ltb_spec (Zpos m) 8388608); lia. }
    replace ((sign_bit s + mag) mod 2 ^ 31) with mag.
    2:{ destruct s; unfold sign_bit.
        - rewrite Z.add_comm. rewrite <- (Z.mul_1_l (2 ^ 31)) at 1.
          rewrite Z.mod_add by lia. symmetry; apply Z.mod_small; lia.
        - symmetry; apply Z.mod_small; lia. }
    unfold mag. change (2 ^ 23) with 8388608 in *.
    destruct (Z.ltb_spec (Zpos m) 8388608) as [L|G].
    + assert (e = -149) by lia. subst e.
      change (Zpos m) with (0 * 2 ^ 23 + Zpos m) at 1.
      rewrite of_bits_fields by (change (2 ^ 23) with 8388608; lia).
      reflexivity.
    + change 8388608 with (2 ^ 23) at 1.
      rewrite of_bits_fields by (change (2 ^ 23) with 8388608; lia).
      cbv zeta.
      destruct (Z.eqb_spec (e + 150) 0); [lia|].
      destruct (Z.eqb_spec (e + 150) 255); [lia|].
      replace (Zpos m - 8388608 + 2 ^ 23) with (Zpos m) by (change (2 ^ 23) with 8388608; lia).
      f_equal. lia.
Qed.

(** ** Representable numbers of quanta *)

Lemma repr_0 : repr 0.
Proof. exists 0, 0. repeat split; simpl; lia. Qed.

Lemma repr_quanta x : is_f32 x -> repr (quanta x).
Proof.
  destruct x as [s|s| |s m e]; try (intros _; apply repr_0).
  intros V. apply f32_finite_inv in V. destruct V as (He & Hm & _).
  exists (cond_Zopp s (Zpos m)), (e + 149). rewrite quanta_finite.
  repeat split; try lia. destruct s; cbn [cond_Zopp]; lia.
Qed.

Lemma rndZ_repr v : repr v -> rndZ 0 v = v.
Proof.
  intros (c & j & -> & Hc & Hj). rewrite rndZ_exact by lia. now rewrite Z.sub_0_r.
Qed.

Lemma repr_opp v : repr v -> repr (- v).
Proof.
  intros (c & j & -> & Hc & Hj). exists (- c), j. repeat split; try lia.
Qed.

Lemma repr_abs v : repr v -> repr (Z.abs v).
Proof.
  intros H. destruct (Z.abs_spec v) as [[_ ->]|[_ ->]]; trivial. now apply repr_opp.
Qed.

Lemma repr_shift v n : 0 <= n -> repr v -> repr (v * 2 ^ n).
Proof.
  intros Hn (c & j & -> & Hc & Hj). exists c, (j + n). repeat split; try lia.
  rewrite pow_split by lia. ring.
Qed.

(** A representable value of magnitude at least [2^n] is a multiple of
    [2^(n-23)]. *)
Lemma repr_divide v n : repr v -> 23 <= n -> 2 ^ n <= Z.abs v -> (2 ^ (n - 23) | v).
Proof.
  intros (c & j & -> & Hc & Hj) Hn H.
  pose proof (pow2_pos j Hj) as P.
  rewrite Z.abs_mul, (Z.abs_eq (2 ^ j)) in H by lia.
  assert (n - 23 <= j).
  { destruct (Z_le_gt_dec (n - 23) j); trivial. exfalso.
    assert (2 ^ (24 + j) <= 2 ^ n) by (apply Z.pow_le_mono_r; lia).
    rewrite pow_split in H0 by lia. nia. }
  exists (c * 2 ^ (j - (n - 23))).
  rewrite <- Z.mul_assoc, <- pow_split by lia. f_equal. f_equal. lia.
Qed.

Lemma repr_intro v j : 0 <= j -> (2 ^ j | v) -> Z.abs v < 2 ^ (24 + j) -> repr v.
Proof.
  intros Hj [c ->] H. pose proof (pow2_pos j Hj) as P.
  exists c, j. repeat split; trivial.
  rewrite Z.abs_mul, (Z.abs_eq (2 ^ j)), pow_split in H by lia. nia.
Qed.

Lemma divide_pow2 a b : 0 <= a <= b -> (2 ^ a | 2 ^ b).
Proof.
  intros H. exists (2 ^ (b - a)). rewrite <- pow_split by lia. f_equal. lia.
Qed.

(** ** The kernel on quanta *)

Lemma rint_opp v : rint (- v) = - rint v.
Proof. unfold rint. rewrite Z.sgn_opp, Z.abs_opp. lia. Qed.

Lemma shapeZ_opp p : shapeZ (- p) = - shapeZ p.
Proof. unfold shapeZ. rewrite Z.abs_opp, Z.mul_opp_l, rndZ_opp. reflexivity. Qed.

Lemma rint_error v : 2 * Z.abs (v - rint v * 2 ^ 149) <= 2 ^ 149.
Proof.
  unfold rint. pose proof (rne_div_error (Z.abs v) 149 ltac:(lia)).
  destruct (Z.abs_spec v) as [[P E]|[P E]]; rewrite E in *.
  - destruct (Z.eq_dec v 0) as [->|N]. simpl; lia.
    rewrite Z.sgn_pos by lia. lia.
  - rewrite Z.sgn_neg by lia. lia.
Qed.

Lemma rint_small v : 2 * Z.abs v < 2 ^ 149 -> rint v = 0.
Proof.
  intros H. unfold rint. rewrite rne_div_small; lia.
Qed.

Lemma shapeZ_0 : shapeZ 0 = 0.
Proof. reflexivity. Qed.

Lemma shapeZ_half : shapeZ (2 ^ 148) = 0.
Proof.
  vm_compute. reflexivity.
Qed.

(** Two values of the same sign whose magnitudes add up to one half give
    the same product, because each is the other's rounded factor. *)
Lemma shapeZ_complement p g :
  repr p -> repr g -> 0 <= p * g -> Z.abs p + Z.abs g = 2 ^ 148 ->
  shapeZ p = shapeZ g.
Proof.
  intros Rp Rg S H. unfold shapeZ.
  replace (2 ^ 152 - 16 * Z.abs p) with (Z.abs g * 2 ^ 4)
    by (change (2 ^ 152) with (16 * 2 ^ 148); change (2 ^ 4) with 16; lia).
  replace (2 ^ 152 - 16 * Z.abs g) with (Z.abs p * 2 ^ 4)
    by (change (2 ^ 152) with (16 * 2 ^ 148); change (2 ^ 4) with 16; lia).
  rewrite !rndZ_repr by (apply repr_shift; [lia | now apply repr_abs]).
  f_equal. change (2 ^ 4) with 16.
  destruct (Z.abs_spec p) as [[P1 ->]|[P1 ->]];
  destruct (Z.abs_spec g) as [[G1 ->]|[G1 ->]]; nia.
Qed.

Lemma rndZ_ge s v j : 0 <= s <= j -> 2 ^ j <= v -> 2 ^ (j - s) <= rndZ s v.
Proof.
  intros Hs H. pose proof (pow2_pos j ltac:(lia)).
  rewrite rndZ_pos by lia. now apply rnd_ge_pow.
Qed.

Lemma rndZ_le s v j : 0 <= s <= j -> v <= - 2 ^ j -> rndZ s v <= - 2 ^ (j - s).
Proof.
  intros Hs H. pose proof (rndZ_ge s (- v) j Hs ltac:(lia)) as B.
  rewrite rndZ_opp in B. lia.
Qed.

Lemma rndZ_abs_le s v j : 0 <= s <= j -> Z.abs v <= 2 ^ j -> Z.abs (rndZ s v) <= 2 ^ (j - s).
Proof.
  intros Hs H.
  assert (P : forall w, 0 <= w <= 2 ^ j -> 0 <= rndZ s w <= 2 ^ (j - s)).
  { intros w Hw. rewrite rndZ_pos by lia. split.
    apply rnd_nonneg; lia. apply rnd_le_pow; lia. }
  destruct (Z.abs_spec v) as [[P1 E]|[P1 E]]; rewrite E in H.
  - specialize (P v ltac:(lia)). lia.
  - specialize (P (- v) ltac:(lia)). rewrite rndZ_opp in P. lia.
Qed.

(** ** The float computations on quanta *)

Lemma is_f32_abs p : is_f32 p -> is_f32 (fabs p).
Proof. destruct p; trivial. Qed.

Lemma is_finite_abs p : is_finite (fabs p) = is_finite p.
Proof. destruct p; trivial. Qed.

(** The product [x * (8 - 16 * |x|)]: multiplying by 16 is exact, the
    other two operations round. *)
Lemma quad_spec p :
  is_f32 p -> is_finite p = true -> Z.abs (quanta p) <= 2 ^ 149 ->
  is_f32 (quad p) /\ is_finite (quad p) = true /\ quanta (quad p) = shapeZ (quanta p).
Proof.
  intros V F B. unfold quad.
  pose proof (is_f32_abs p V) as Va.
  assert (Fa : is_finite (fabs p) = true) by now rewrite is_finite_abs.
  assert (V16 : is_f32 f16) by reflexivity.
  assert (V8 : is_f32 f8) by reflexivity.
  assert (Q16 : quanta f16 = 2 ^ 153) by reflexivity.
  assert (Q8 : quanta f8 = 2 ^ 152) by reflexivity.
  (* 16 * |p| is exact *)
  destruct (fmul_spec f16 (fabs p) V16 Va eq_refl Fa) as (A1 & A2 & _ & A4).
  { rewrite Q16, quanta_abs, Z.abs_mul, Z.abs_idemp.
    change (Z.abs (2 ^ 153)) with (2 ^ 153).
    change (2 ^ 425) with (2 ^ 153 * 2 ^ 272).
    apply Z.mul_lt_mono_pos_l; lia. }
  assert (A : quanta (fmul f16 (fabs p)) = 16 * Z.abs (quanta p)).
  { rewrite A4, Q16, quanta_abs.
    destruct (repr_abs _ (repr_quanta p V)) as (c & j & E & Hc & Hj).
    rewrite E. replace (2 ^ 153 * (c * 2 ^ j)) with (c * 2 ^ (j + 153))
      by (rewrite pow_split by lia; ring).
    rewrite rndZ_exact by lia.
    replace (j + 153 - 149) with (j + 4) by lia.
    rewrite pow_split by lia. change (2 ^ 4) with 16. ring. }
  (* 8 - 16 * |p| *)
  destruct (fsub_spec f8 (fmul f16 (fabs p)) V8 A1 eq_refl A2) as (T1 & T2 & T3).
  { rewrite Q8, A. lia. }
  rewrite Q8, A in T3.
  assert (TB : Z.abs (quanta (fsub f8 (fmul f16 (fabs p)))) <= 2 ^ 154).
  { rewrite T3. apply (rndZ_abs_le 0 _ 154); lia. }
  destruct (fmul_spec p _ V T1 F T2) as (O1 & O2 & _ & O4).
  { rewrite Z.abs_mul.
    set (t := Z.abs (quanta (fsub f8 (fmul f16 (fabs p))))) in *.
    change (2 ^ 425) with (2 ^ 150 * 2 ^ 275). nia. }
  repeat split; trivial. rewrite O4, T3. reflexivity.
Qed.

(** The two tests of the scalar branch: above one quarter the value is
    reflected to [0.5 - x], below minus one quarter to [-0.5 - x], both
    exactly; in between it is kept. *)
Lemma fold_spec r :
  is_f32 r -> is_finite r = true -> Z.abs (quanta r) < 2 ^ 149 ->
  is_f32 (Scalar.fold r) /\ is_finite (Scalar.fold r) = true /\
  quanta (Scalar.fold r) = foldZ (quanta r).
Proof.
  intros V F B. unfold Scalar.fold.
  assert (Vh : is_f32 f0_5) by reflexivity.
  assert (Vm : is_f32 fm0_5) by reflexivity.
  assert (Qh : quanta f0_5 = 2 ^ 148) by reflexivity.
  assert (Qm : quanta fm0_5 = - 2 ^ 148) by reflexivity.
  destruct (fsub_spec f0_5 r Vh V eq_refl F) as (A1 & A2 & A3). { rewrite Qh. lia. }
  destruct (fsub_spec fm0_5 r Vm V eq_refl F) as (B1 & B2 & B3). { rewrite Qm. lia. }
  rewrite Qh in A3. rewrite Qm in B3.
  set (R := quanta r) in *.
  pose proof (repr_quanta r V) as Rr. fold R in Rr.
  unfold foldZ.
  assert (EX : forall h, Z.abs h = 2 ^ 148 -> 2 ^ 147 <= Z.abs R -> Z.abs (h - R) < 2 ^ 148 ->
               rndZ 0 (h - R) = h - R).
  { intros h Hh HR HD. apply rndZ_repr, (repr_intro _ 124); try lia.
    apply Z.divide_sub_r.
    - assert (D : (2 ^ 124 | 2 ^ 148)) by (apply divide_pow2; lia).
      destruct (Z.abs_spec h) as [[_ E]|[_ E]].
      + rewrite <- Hh, E in D. exact D.
      + apply Z.divide_opp_r in D. rewrite <- Hh, E, Z.opp_involutive in D. exact D.
    - apply (repr_divide R 147); trivial. lia. }
  destruct (Z.ltb_spec (2 ^ 147) R) as [H1|H1].
  - (* above one quarter: reflected about it *)
    assert (E1 : quanta (fsub f0_5 r) = 2 ^ 148 - R).
    { rewrite A3. apply EX; lia. }
    rewrite (flt_spec (fsub f0_5 r) r), E1 by trivial. fold R.
    replace (2 ^ 148 - R <? R) with true by (symmetry; apply Z.ltb_lt; lia).
    rewrite (flt_spec (fsub f0_5 r) (fsub fm0_5 r)), E1, B3 by trivial.
    pose proof (rndZ_le 0 (- 2 ^ 148 - R) 148 ltac:(lia) ltac:(lia)) as L.
    replace (2 ^ 148 - R <? rndZ 0 (- 2 ^ 148 - R)) with false
      by (symmetry; apply Z.ltb_ge; change (2 ^ (148 - 0)) with (2 ^ 148) in L; lia).
    auto.
  - rewrite (flt_spec (fsub f0_5 r) r), A3 by trivial. fold R.
    pose proof (rndZ_ge 0 (2 ^ 148 - R) 147 ltac:(lia) ltac:(lia)) as L.
    change (2 ^ (147 - 0)) with (2 ^ 147) in L.
    replace (rndZ 0 (2 ^ 148 - R) <? R) with false by (symmetry; apply Z.ltb_ge; lia).
    rewrite (flt_spec r (fsub fm0_5 r)) by trivial. fold R.
    destruct (Z.ltb_spec R (- 2 ^ 147)) as [H2|H2].
    + assert (E2 : quanta (fsub fm0_5 r) = - 2 ^ 148 - R).
      { rewrite B3. apply EX; lia. }
      rewrite E2.
      replace (R <? - 2 ^ 148 - R) with true by (symmetry; apply Z.ltb_lt; lia).
      auto.
    + rewrite B3.
      pose proof (rndZ_le 0 (- 2 ^ 148 - R) 147 ltac:(lia) ltac:(lia)) as L2.
      change (2 ^ (147 - 0)) with (2 ^ 147) in L2.
      replace (R <? rndZ 0 (- 2 ^ 148 - R)) with false by (symmetry; apply Z.ltb_ge; lia).
      auto.
Qed.

Lemma foldZ_bound r : Z.abs r < 2 ^ 149 -> Z.abs (foldZ r) < 2 ^ 148.
Proof.
  intros H. unfold foldZ.
  destruct (Z.ltb_spec (2 ^ 147) r); [lia|].
  destruct (Z.ltb_spec r (- 2 ^ 147)); lia.
Qed.

(** ** Integer parts on quanta *)

(** A representable value is a whole number of units, or sits on a finer
    grid and is small. *)
Lemma repr_cases v : repr v ->
  (exists n, v = n * 2 ^ 149 /\ Z.abs n < 2 ^ 128 * 2 ^ 149 + Z.abs v) \/
  (exists j, 0 <= j < 149 /\ (2 ^ j | v) /\ Z.abs v < 2 ^ (24 + j)).
Proof.
  intros (c & j & -> & Hc & Hj). pose proof (pow2_pos j Hj).
  destruct (Z_le_gt_dec 149 j) as [L|G].
  - left. exists (c * 2 ^ (j - 149)). split.
    + rewrite <- Z.mul_assoc, <- pow_split by lia. f_equal. f_equal. lia.
    + pose proof (pow2_pos (j - 149) ltac:(lia)).
      replace j with ((j - 149) + 149) at 2 by lia. rewrite pow_split by lia.
      rewrite !Z.abs_mul, !Z.abs_eq with (n := 2 ^ _) by lia.
      change (2 ^ 149) with 713623846352979940529142984724747568191373312. nia.
  - right. exists j. split; [lia|]. split.
    + exists c; reflexivity.
    + rewrite Z.abs_mul, (Z.abs_eq (2 ^ j)), pow_split by lia.
      apply Z.mul_lt_mono_pos_r; lia.
Qed.

Lemma rint_mul n : rint (n * 2 ^ 149) = n.
Proof.
  unfold rint. rewrite Z.abs_mul, Z.sgn_mul.
  change (Z.abs (2 ^ 149)) with (2 ^ 149). change (Z.sgn (2 ^ 149)) with 1.
  rewrite rne_div_mul by lia. rewrite Z.sub_diag, Z.pow_0_r, !Z.mul_1_r.
  pose proof (Z.abs_sgn n). lia.
Qed.

Lemma tint_mul n : tint (n * 2 ^ 149) = n.
Proof. unfold tint. apply Z.quot_mul. lia. Qed.

Lemma divide_sub_mul v j n : 0 <= j <= 149 -> (2 ^ j | v) -> (2 ^ j | v - n * 2 ^ 149).
Proof.
  intros Hj D. apply Z.divide_sub_r; trivial.
  apply Z.divide_mul_r. apply divide_pow2; lia.
Qed.

(** Subtracting the nearest integer is exact and leaves at most one half. *)
Lemma rint_spec v : repr v ->
  repr (rint v * 2 ^ 149) /\ repr (v - rint v * 2 ^ 149) /\
  2 * Z.abs (v - rint v * 2 ^ 149) <= 2 ^ 149.
Proof.
  intros R. pose proof (rint_error v) as E.
  destruct (repr_cases v R) as [(n & -> & _)|(j & Hj & D & B)].
  - rewrite rint_mul, Z.sub_diag. split; [trivial|]. split; [apply repr_0 | simpl; lia].
  - split; [|split; trivial].
    + apply (repr_intro _ 149); [lia | exists (rint v); reflexivity | ].
      assert (2 ^ (24 + j) <= 2 ^ 172) by (apply Z.pow_le_mono_r; lia).
      change (2 ^ (24 + 149)) with (2 ^ 173).
      change (2 ^ 173) with (2 * 2 ^ 172). lia.
    + destruct (Z_le_gt_dec 125 j) as [L|G].
      * apply (repr_intro _ j); [lia | apply divide_sub_mul; trivial; lia | ].
        assert (2 ^ 149 <= 2 ^ (24 + j)) by (apply Z.pow_le_mono_r; lia). lia.
      * assert (2 ^ (24 + j) <= 2 ^ 148) by (apply Z.pow_le_mono_r; lia).
        rewrite rint_small by (change (2 ^ 149) with (2 * 2 ^ 148); lia).
        now rewrite Z.mul_0_l, Z.sub_0_r.
Qed.

Lemma tint_rem v : v - tint v * 2 ^ 149 = Z.rem v (2 ^ 149).
Proof.
  unfold tint. pose proof (Z.quot_rem' v (2 ^ 149)). lia.
Qed.

(** Subtracting the truncation is exact and leaves less than one, with the
    sign of the value. *)
Lemma tint_spec v : repr v ->
  repr (tint v * 2 ^ 149) /\ repr (v - tint v * 2 ^ 149) /\
  Z.abs (v - tint v * 2 ^ 149) < 2 ^ 149 /\
  Z.abs (v - tint v * 2 ^ 149) <= Z.abs v /\
  0 <= (v - tint v * 2 ^ 149) * v.
Proof.
  intros R.
  assert (A : Z.abs (v - tint v * 2 ^ 149) < 2 ^ 149 /\
              Z.abs (v - tint v * 2 ^ 149) <= Z.abs v /\
              0 <= (v - tint v * 2 ^ 149) * v).
  { rewrite tint_rem.
    destruct (Z_le_gt_dec 0 v) as [P|N].
    - pose proof (Z.rem_bound_pos v (2 ^ 149) P ltac:(lia)).
      pose proof (Z.rem_le v (2 ^ 149) P ltac:(lia)). 
      rewrite Z.abs_eq by lia. split; [lia|]. split; [lia|]. nia.
    - assert (O : Z.rem v (2 ^ 149) = - Z.rem (- v) (2 ^ 149)) by (rewrite Z.rem_opp_l'; lia).
      pose proof (Z.rem_bound_pos (- v) (2 ^ 149) ltac:(lia) ltac:(lia)).
      pose proof (Z.rem_le (- v) (2 ^ 149) ltac:(lia) ltac:(lia)).
      rewrite O. split; [lia|]. split; [lia|]. nia. }
  destruct (repr_cases v R) as [(n & -> & _)|(j & Hj & D & B)].
  - rewrite tint_mul in *. rewrite Z.sub_diag in *. split; [trivial|]. split; [apply repr_0 | trivial].
  - destruct A as (A1 & A2 & A3). repeat split; trivial.
    + apply (repr_intro _ 149); [lia | exists (tint v); reflexivity | ].
      assert (2 ^ (24 + j) <= 2 ^ 172) by (apply Z.pow_le_mono_r; lia).
      change (2 ^ (24 + 149)) with (2 ^ 173).
      change (2 ^ 173) with (2 * 2 ^ 172). lia.
    + apply (repr_intro _ j); [lia | apply divide_sub_mul; trivial; lia | lia].
Qed.

(** ** The two conversions to an integer *)

Lemma in_int32_iff n : in_int32 n = true <-> - 2 ^ 31 <= n <= 2 ^ 31 - 1.
Proof.
  unfold in_int32. rewrite andb_true_iff, !Z.leb_le. reflexivity.
Qed.

Lemma signed_word n : - 2 ^ 31 <= n <= 2 ^ 31 - 1 -> Sse2.signed (Sse2.word n) = n.
Proof.
  intros H. unfold Sse2.signed, Sse2.word.
  change (2 ^ 31) with 2147483648 in *. change (2 ^ 32) with 4294967296.
  destruct (Z_le_gt_dec 0 n) as [P|N].
  - rewrite Z.mod_small by lia. destruct (Z.ltb_spec n 2147483648); lia.
  - replace (n mod 4294967296) with (n + 4294967296).
    + destruct (Z.ltb_spec (n + 4294967296) 2147483648); lia.
    + apply (Z.mod_unique _ _ (-1)); lia.
Qed.

(** The integer computed in [cvtps_epi32] is [rint] of the value. *)
Lemma nearest_code s m e : -149 <= e ->
  cond_Zopp s (if 0 <=? e then Zpos m * 2 ^ e else rne_div (Zpos m) (- e))
  = rint (quanta (S754_finite s m e)).
Proof.
  intros He. unfold rint. rewrite quanta_finite_abs by lia.
  pose proof (pow2_pos (e + 149) ltac:(lia)).
  assert (S : Z.sgn (quanta (S754_finite s m e)) = cond_Zopp s 1).
  { cbn [quanta]. rewrite cond_Zopp_sgn by (apply Z.mul_pos_pos; lia). now destruct s. }
  rewrite S.
  assert (E : rne_div (Zpos m * 2 ^ (e + 149)) 149 =
              if 0 <=? e then Zpos m * 2 ^ e else rne_div (Zpos m) (- e)).
  { destruct (Z.leb_spec 0 e).
    - rewrite rne_div_mul by lia. f_equal. f_equal. lia.
    - replace 149 with (- e + (e + 149)) at 2 by lia.
      apply rne_div_scale; lia. }
  rewrite E. destruct s; cbn [cond_Zopp]; lia.
Qed.

(** The integer computed in [float_to_int] is [tint] of the value. *)
Lemma trunc_code s m e : -149 <= e ->
  cond_Zopp s (if 0 <=? e then Zpos m * 2 ^ e else Zpos m / 2 ^ (- e))
  = tint (quanta (S754_finite s m e)).
Proof.
  intros He. unfold tint. cbn [quanta].
  pose proof (pow2_pos (e + 149) ltac:(lia)).
  assert (E : (Zpos m * 2 ^ (e + 149)) / 2 ^ 149 =
              if 0 <=? e then Zpos m * 2 ^ e else Zpos m / 2 ^ (- e)).
  { destruct (Z.leb_spec 0 e).
    - replace (e + 149) with (e + 149) by lia. rewrite pow_split by lia.
      rewrite Z.mul_assoc, Z.div_mul by lia. reflexivity.
    - replace (2 ^ 149) with (2 ^ (- e) * 2 ^ (e + 149))
        by (rewrite <- pow_split by lia; f_equal; lia).
      pose proof (pow2_pos (- e) ltac:(lia)).
      apply Z.div_mul_cancel_r; lia. }
  rewrite <- E.
  assert (0 <= Zpos m * 2 ^ (e + 149)) by (apply Z.mul_nonneg_nonneg; lia).
  destruct s; cbn [cond_Zopp].
  - rewrite Z.quot_opp_l by lia. rewrite Z.quot_div_nonneg by lia. reflexivity.
  - rewrite Z.quot_div_nonneg by lia. reflexivity.
Qed.

(** In range, the nearest integer fits 32 bits. *)
Lemma rint_range v : repr v -> - 2 ^ 180 <= v < 2 ^ 180 ->
  - 2 ^ 31 <= rint v <= 2 ^ 31 - 1.
Proof.
  intros R H. pose proof (rint_error v) as E.
  change (2 ^ 180) with (2 ^ 31 * 2 ^ 149) in H.
  change (2 ^ 149) with (2 * 2 ^ 148) in *.
  assert (0 < 2 ^ 148) by lia. split; [nia|].
  destruct (Z_lt_le_dec v (2 ^ 179)) as [L|G].
  - change (2 ^ 179) with (2 ^ 30 * (2 * 2 ^ 148)) in L.
    change (2 ^ 31) with (2 * 2 ^ 30). assert (0 < 2 ^ 30) by lia. nia.
  - assert (D : (2 ^ (179 - 23) | v)) by (apply repr_divide; trivial; lia).
    destruct D as [c ->]. change (2 ^ (179 - 23)) with (2 ^ 7 * 2 ^ 149) in *.
    change (2 * 2 ^ 148) with (2 ^ 149) in *.
    rewrite Z.mul_assoc, rint_mul. rewrite Z.mul_assoc in H. 
    assert (c * 2 ^ 7 < 2 ^ 31); [|lia].
    apply (Z.mul_lt_mono_pos_r (2 ^ 149)); lia.
Qed.

(** The truncation fits 32 bits exactly when the value is in range. *)
Lemma tint_range v : repr v ->
  (- 2 ^ 180 <= v < 2 ^ 180 <-> - 2 ^ 31 <= tint v <= 2 ^ 31 - 1).
Proof.
  intros R. destruct (tint_spec v R) as (_ & _ & A & B & C).
  change (2 ^ 180) with (2 ^ 31 * 2 ^ 149).
  assert (0 < 2 ^ 149) by lia. assert (0 < 2 ^ 31) by lia.
  set (t := tint v) in *. set (q := 2 ^ 149) in *.
  split.
  - intros H1. split; nia.
  - intros H1. split; [|nia].
    destruct (Z_le_gt_dec (- (2 ^ 31 * q)) v) as [L|G]; trivial. exfalso.
    assert (D : (2 ^ (180 - 23) | v)) by (apply repr_divide; trivial; unfold q in *; lia).
    destruct D as [c Hc]. change (2 ^ (180 - 23)) with (2 ^ 8 * 2 ^ 149) in Hc.
    fold q in Hc.
    assert (c * 2 ^ 8 < - 2 ^ 31) by nia.
    assert (t = c * 2 ^ 8).
    { unfold t. rewrite Hc, Z.mul_assoc. apply tint_mul. }
    lia.
Qed.

(** ** The two lanes on quanta *)

Lemma of_Z_quanta n : repr (n * 2 ^ 149) -> Z.abs n < 2 ^ 127 ->
  is_f32 (of_Z n) /\ is_finite (of_Z n) = true /\ quanta (of_Z n) = n * 2 ^ 149.
Proof.
  intros R H. destruct (of_Z_spec n H) as (A & B & C).
  repeat split; trivial. now rewrite C, rndZ_repr.
Qed.

(** In range, [_mm_cvtps_epi32] never yields the indefinite value. *)
Lemma cvtps_epi32_in x : in_range x ->
  Sse2.signed (Sse2.cvtps_epi32 x) = rint (quanta x).
Proof.
  intros (V & F & B). pose proof (rint_range _ (repr_quanta x V) B) as RR.
  destruct x as [s|s| |s m e]; try discriminate.
  - reflexivity.
  - pose proof (f32_finite_inv _ _ _ V) as (He & _).
    unfold Sse2.cvtps_epi32. rewrite nearest_code by lia.
    apply in_int32_iff in RR as RI. rewrite RI. now apply signed_word.
Qed.

(** The first statement of the SSE2 loop body. *)
Lemma sse_phase_spec x : in_range x ->
  is_f32 (Sse2.phase x) /\ is_finite (Sse2.phase x) = true /\
  quanta (Sse2.phase x) = quanta x - rint (quanta x) * 2 ^ 149.
Proof.
  intros I. pose proof I as (V & F & B).
  unfold Sse2.phase, Sse2.cvtepi32_ps. rewrite cvtps_epi32_in by trivial.
  pose proof (repr_quanta x V) as R.
  destruct (rint_spec _ R) as (R1 & R2 & R3).
  pose proof (rint_range _ R B) as RR.
  destruct (of_Z_quanta (rint (quanta x)) R1 ltac:(lia)) as (A1 & A2 & A3).
  destruct (fsub_spec x (of_Z (rint (quanta x))) V A1 F A2) as (S1 & S2 & S3).
  { rewrite A3. lia. }
  repeat split; trivial. now rewrite S3, A3, rndZ_repr.
Qed.

(** Where [(int)x] is defined, and what it is. *)
Lemma float_to_int_spec x n : is_f32 x ->
  (Scalar.float_to_int x = Some n <->
   is_finite x = true /\ n = tint (quanta x) /\ - 2 ^ 180 <= quanta x < 2 ^ 180).
Proof.
  intros V. pose proof (repr_quanta x V) as R.
  pose proof (tint_range _ R) as TR.
  destruct x as [s|s| |s m e]; cbn [Scalar.float_to_int is_finite].
  - change (quanta (S754_zero s)) with 0. change (tint 0) with 0.
    split. intros [= <-]. repeat split; lia. intros (_ & -> & _). reflexivity.
  - split; [discriminate | intros (H & _); discriminate].
  - split; [discriminate | intros (H & _); discriminate].
  - pose proof (f32_finite_inv _ _ _ V) as (He & _).
    rewrite trunc_code by lia.
    destruct (in_int32 (tint (quanta (S754_finite s m e)))) eqn:E.
    + apply in_int32_iff in E. split.
      * intros [= <-]. repeat split; trivial; apply TR; trivial.
      * intros (_ & -> & _). reflexivity.
    + split; [discriminate|]. intros (_ & _ & H). apply TR in H.
      apply in_int32_iff in H. congruence.
Qed.

(** The first statement of the scalar loop body. *)
Lemma scalar_phase_spec x : in_range x ->
  exists r, Scalar.phase x = Some r /\ is_f32 r /\ is_finite r = true /\
            quanta r = quanta x - tint (quanta x) * 2 ^ 149.
Proof.
  intros (V & F & B). pose proof (repr_quanta x V) as R.
  assert (E : Scalar.float_to_int x = Some (tint (quanta x))).
  { apply float_to_int_spec; auto. }
  unfold Scalar.phase. rewrite E. eexists; split; [reflexivity|].
  destruct (tint_spec _ R) as (R1 & R2 & R3 & _).
  pose proof (proj1 (tint_range _ R) B) as RR.
  destruct (of_Z_quanta (tint (quanta x)) R1 ltac:(lia)) as (A1 & A2 & A3).
  destruct (fsub_spec x (of_Z (tint (quanta x))) V A1 F A2) as (S1 & S2 & S3).
  { rewrite A3. lia. }
  repeat split; trivial. now rewrite S3, A3, rndZ_repr.
Qed.

Lemma sse_shape_quad p : is_f32 p -> Sse2.shape p = quad p.
Proof. intros V. unfold Sse2.shape, quad. now rewrite and_bits_abs. Qed.

Lemma scalar_shape_quad r : Scalar.shape r = quad (Scalar.fold r).
Proof. reflexivity. Qed.

(** One lane of the SSE2 loop body. *)
Lemma sse_lane_spec x : in_range x ->
  is_f32 (Sse2.lane x) /\ is_finite (Sse2.lane x) = true /\
  quanta (Sse2.lane x) = shapeZ (phaseV (quanta x)).
Proof.
  intros I. destruct (sse_phase_spec x I) as (P1 & P2 & P3).
  destruct I as (V & F & B).
  destruct (rint_spec _ (repr_quanta x V)) as (_ & _ & R3).
  unfold Sse2.lane. rewrite sse_shape_quad by trivial.
  destruct (quad_spec (Sse2.phase x) P1 P2) as (Q1 & Q2 & Q3).
  { rewrite P3. lia. }
  repeat split; trivial. now rewrite Q3, P3.
Qed.

(** One iteration of the scalar loop body. *)
Lemma scalar_elem_spec x : in_range x ->
  exists y, Scalar.elem x = Some y /\ is_f32 y /\ is_finite y = true /\
            quanta y = shapeZ (foldZ (phaseS (quanta x))).
Proof.
  intros I. destruct (scalar_phase_spec x I) as (r & E & P1 & P2 & P3).
  destruct I as (V & F & B).
  destruct (tint_spec _ (repr_quanta x V)) as (_ & _ & R3 & _).
  unfold Scalar.elem. rewrite E. cbn [option_map].
  eexists; split; [reflexivity|]. rewrite scalar_shape_quad.
  destruct (fold_spec r P1 P2) as (F1 & F2 & F3). { rewrite P3. lia. }
  pose proof (foldZ_bound (quanta r) ltac:(rewrite P3; lia)) as FB.
  destruct (quad_spec (Scalar.fold r) F1 F2) as (Q1 & Q2 & Q3).
  { rewrite F3. lia. }
  repeat split; trivial. now rewrite Q3, F3, P3.
Qed.

(** ** Properties of the kernel on quanta *)

Lemma shapeZ_neg_half : shapeZ (- 2 ^ 148) = 0.
Proof. rewrite shapeZ_opp, shapeZ_half. reflexivity. Qed.

(** Phases that differ by whole periods. *)
Lemma shapeZ_periodic p p' :
  2 * Z.abs p <= 2 ^ 149 -> 2 * Z.abs p' <= 2 ^ 149 -> (2 ^ 149 | p - p') ->
  shapeZ p = shapeZ p'.
Proof.
  intros H1 H2 [c Hc]. change (2 ^ 149) with (2 * 2 ^ 148) in *.
  assert (c = 0 \/ c = 1 \/ c = -1) as [C|[C|C]] by nia; subst c.
  - f_equal. lia.
  - replace p with (2 ^ 148) by lia. replace p' with (- 2 ^ 148) by lia.
    now rewrite shapeZ_half, shapeZ_neg_half.
  - replace p with (- 2 ^ 148) by lia. replace p' with (2 ^ 148) by lia.
    now rewrite shapeZ_half, shapeZ_neg_half.
Qed.

(** The reflected truncation phase against the rounded phase. *)
Lemma shapeZ_fold p r :
  repr p -> repr (foldZ r) -> 2 * Z.abs p <= 2 ^ 149 -> Z.abs r < 2 ^ 149 ->
  (2 ^ 149 | p - r) -> shapeZ p = shapeZ (foldZ r).
Proof.
  intros Rp Rg H1 H2 [c Hc]. change (2 ^ 149) with (2 * 2 ^ 148) in *.
  assert (c = 0 \/ c = 1 \/ c = -1) as C by nia.
  revert Rg. unfold foldZ. change (2 ^ 148) with (2 * 2 ^ 147) in *.
  destruct (Z.ltb_spec (2 ^ 147) r) as [A|A]; [|destruct (Z.ltb_spec r (- 2 ^ 147)) as [B|B]];
    intros Rg.
  - apply shapeZ_complement; trivial;
      change (2 ^ 148) with (2 * 2 ^ 147); destruct C as [C|[C|C]]; subst c; try nia; lia.
  - apply shapeZ_complement; trivial;
      change (2 ^ 148) with (2 * 2 ^ 147); destruct C as [C|[C|C]]; subst c; try nia; lia.
  - f_equal. destruct C as [C|[C|C]]; subst c; lia.
Qed.

(** A product just above one still rounds to one. *)
Lemma rnd_149_bound v : 0 <= v < 2 ^ 298 + 2 ^ 274 -> rnd 149 v <= 2 ^ 149.
Proof.
  intros [H0 H]. destruct (Z_le_gt_dec v (2 ^ 298)) as [L|G].
  - apply (rnd_le_pow 149 v 298); lia.
  - unfold rnd.
    assert (D : Zdigits2 v = 299).
    { apply digits_unique; [lia|]. change (299 - 1) with 298.
      change (2 ^ 299) with (2 * 2 ^ 298). change (2 ^ 298) with (2 ^ 24 * 2 ^ 274) in *. lia. }
    rewrite D. change (Z.max (299 - 24) 149) with 275.
    rewrite rne_div_down; try lia.
    + replace (v / 2 ^ 275) with (2 ^ 23). reflexivity.
      apply (Z.div_unique _ _ _ (v - 2 ^ 298)); lia.
    + replace (v mod 2 ^ 275) with (v - 2 ^ 298).
      change (2 ^ 275) with (2 * 2 ^ 274). lia.
      apply (Z.mod_unique _ _ (2 ^ 23)); lia.
Qed.

(** The product never exceeds one. *)
Lemma shapeZ_bound p : repr p -> 2 * Z.abs p <= 2 ^ 149 -> Z.abs (shapeZ p) <= 2 ^ 149.
Proof.
  assert (P : forall a, repr a -> 0 <= a -> 2 * a <= 2 ^ 149 -> 0 <= shapeZ a <= 2 ^ 149).
  { intros a R H0 H. unfold shapeZ. rewrite (Z.abs_eq a) by lia.
    set (t := rndZ 0 (2 ^ 152 - 16 * a)).
    assert (T0 : 0 <= t).
    { unfold t. rewrite rndZ_pos by (change (2 ^ 152) with (8 * 2 ^ 149); lia).
      apply rnd_nonneg; [lia | change (2 ^ 152) with (8 * 2 ^ 149); lia]. }
    assert (AT : 0 <= a * t) by nia.
    rewrite rndZ_pos by lia. split. apply rnd_nonneg; lia.
    apply rnd_149_bound. split; trivial.
    destruct (Z_le_gt_dec (2 ^ 147) a) as [L|G].
    - (* the subtraction is exact *)
      assert (E : t = 2 ^ 152 - 16 * a).
      { unfold t. apply rndZ_repr.
        replace (2 ^ 152 - 16 * a) with ((2 ^ 148 - a) * 2 ^ 4)
          by (change (2 ^ 152) with (2 ^ 148 * 2 ^ 4); change (2 ^ 4) with 16; lia).
        apply repr_shift; [lia|].
        apply (repr_intro _ 124); [lia| |change (2 ^ (24 + 124)) with (2 ^ 148); change (2 ^ 149) with (2 * 2 ^ 148) in H; lia].
        apply Z.divide_sub_r. apply divide_pow2; lia.
        apply (repr_divide a 147); trivial; lia. }
      rewrite E. pose proof (Z.square_nonneg (a - 2 ^ 147)).
      change (2 ^ 152) with (32 * 2 ^ 147). change (2 ^ 298) with (16 * (2 ^ 147 * 2 ^ 147)).
      assert (0 < 2 ^ 274) by lia. nia.
    - (* the subtraction is rounded by at most half an ulp of [4, 8] *)
      destruct (Z.eq_dec a 0) as [->|NZ]. { simpl. lia. }
      assert (E : 2 * Z.abs (t - (2 ^ 152 - 16 * a)) <= 2 ^ 128).
      { unfold t. rewrite rndZ_pos by (change (2 ^ 152) with (32 * 2 ^ 147); lia).
        pose proof (rnd_error 0 (2 ^ 152 - 16 * a) ltac:(lia)
                      ltac:(change (2 ^ 152) with (32 * 2 ^ 147); lia)) as RE.
        rewrite Z.pow_0_r, Z.mul_1_r in RE.
        replace (Zdigits2 (2 ^ 152 - 16 * a)) with 152 in RE. exact RE.
        symmetry. apply digits_unique.
        change (2 ^ 152) with (32 * 2 ^ 147); lia.
        change (2 ^ (152 - 1)) with (16 * 2 ^ 147). change (2 ^ 152) with (32 * 2 ^ 147). lia. }
      change (2 ^ 128) with (2 * 2 ^ 127) in E.
      assert (t <= 2 ^ 152 - 16 * a + 2 ^ 127) by lia.
      pose proof (Z.square_nonneg (a - 2 ^ 147)).
      assert (a * t <= a * (2 ^ 152 - 16 * a + 2 ^ 127)) by (apply Z.mul_le_mono_nonneg_l; lia).
      assert (a * 2 ^ 127 < 2 ^ 147 * 2 ^ 127) by (apply Z.mul_lt_mono_pos_r; lia).
      change (2 ^ 274) with (2 ^ 147 * 2 ^ 127).
      change (2 ^ 152) with (32 * 2 ^ 147) in *. change (2 ^ 298) with (16 * (2 ^ 147 * 2 ^ 147)).
      nia. }
  intros R H. destruct (Z.abs_spec p) as [[P1 E]|[P1 E]]; rewrite E in H.
  - specialize (P p R P1 H). lia.
  - specialize (P (- p) (repr_opp _ R) ltac:(lia) H). rewrite shapeZ_opp in P. lia.
Qed.

(** ** The loops over the buffers *)

(** Stores and loads past a prefix of the buffer. *)
Lemma update_app pre l j v :
  update (pre ++ l) (length pre + j) v = option_map (app pre) (update l j v).
Proof.
  induction pre as [|h t IH]; cbn [app length Nat.add update].
  - destruct (update l j v); reflexivity.
  - destruct l as [|a l'].
    + rewrite app_nil_r in *. destruct t; cbn in IH |- *.
      * reflexivity.
      * rewrite IH. reflexivity.
    + rewrite IH. destruct (update (a :: l') j v); reflexivity.
Qed.

Lemma load_at pre l d xs st v :
  xs = pre ++ l -> 0 <= d -> nth_error l (Z.to_nat d) = Some v ->
  load xs (Z.of_nat (length pre) + d) st =
  Done (v, KState (ks_outs st) (ks_trace st ++ [EvLoad (Z.of_nat (length pre) + d)])).
Proof.
  intros -> Hd H. unfold load.
  destruct (Z.ltb_spec (Z.of_nat (length pre) + d) 0); [lia|].
  rewrite nth_error_app2 by lia.
  replace (Z.to_nat (Z.of_nat (length pre) + d) - length pre)%nat with (Z.to_nat d) by lia.
  now rewrite H.
Qed.

Lemma load_at0 pre l xs st v :
  xs = pre ++ l -> nth_error l 0 = Some v ->
  load xs (Z.of_nat (length pre)) st =
  Done (v, KState (ks_outs st) (ks_trace st ++ [EvLoad (Z.of_nat (length pre))])).
Proof.
  intros E H. pose proof (load_at pre l 0 xs st v E ltac:(lia) H) as L.
  now rewrite Z.add_0_r in L.
Qed.

Lemma store_at pre l l' d v outs tr :
  outs = pre ++ l -> 0 <= d -> update l (Z.to_nat d) v = Some l' ->
  store (Z.of_nat (length pre) + d) v (KState outs tr) =
  Done (KState (pre ++ l') (tr ++ [EvStore (Z.of_nat (length pre) + d) v])).
Proof.
  intros -> Hd H. unfold store.
  destruct (Z.ltb_spec (Z.of_nat (length pre) + d) 0); [lia|].
  cbn [ks_outs ks_trace].
  replace (Z.to_nat (Z.of_nat (length pre) + d)) with (length pre + Z.to_nat d)%nat by lia.
  rewrite update_app, H. reflexivity.
Qed.

Lemma store_at0 pre l l' v outs tr :
  outs = pre ++ l -> update l 0 v = Some l' ->
  store (Z.of_nat (length pre)) v (KState outs tr) =
  Done (KState (pre ++ l') (tr ++ [EvStore (Z.of_nat (length pre)) v])).
Proof.
  intros E H. pose proof (store_at pre l l' 0 v outs tr E ltac:(lia) H) as L.
  now rewrite Z.add_0_r in L.
Qed.

(** The vector statements act lane by lane. *)
Lemma kernel_lanes a b c d :
  Sse2.kernel (Sse2.V4 a b c d) =
  Sse2.V4 (Sse2.lane a) (Sse2.lane b) (Sse2.lane c) (Sse2.lane d).
Proof. reflexivity. Qed.

(** The SSE2 loop, started with [4 * k] elements to go. *)
Lemma sse_loop_spec k : forall pre_x rest_x pre_o rest_o tr fuel,
  length rest_x = (4 * k)%nat -> length rest_o = (4 * k)%nat ->
  length pre_x = length pre_o -> (k <= fuel)%nat ->
  exists tr',
    Sse2.loop fuel (Z.of_nat (length pre_x + 4 * k)) (pre_x ++ rest_x)
              (Z.of_nat (length pre_x)) (KState (pre_o ++ rest_o) tr)
    = Done (KState (pre_o ++ map Sse2.lane rest_x) tr').
Proof.
  induction k as [|k IH]; intros pre_x rest_x pre_o rest_o tr fuel Lx Lo Lp Hf.
  - destruct rest_x; [|discriminate]. destruct rest_o; [|discriminate].
    exists tr. replace (length pre_x + 4 * 0)%nat with (length pre_x) by lia.
    destruct fuel; cbn [Sse2.loop]; rewrite Z.ltb_irrefl; reflexivity.
  - destruct rest_x as [|a [|b [|c [|d rest_x]]]]; try (cbn in Lx; lia).
    destruct rest_o as [|o0 [|o1 [|o2 [|o3 rest_o]]]]; try (cbn in Lo; lia).
    destruct fuel as [|fuel]; [lia|].
    cbn [Sse2.loop].
    destruct (Z.ltb_spec (Z.of_nat (length pre_x)) (Z.of_nat (length pre_x + 4 * S k))); [|lia].
    set (xs := pre_x ++ a :: b :: c :: d :: rest_x).
    unfold Sse2.mm_load_ps.
    rewrite (load_at0 pre_x (a :: b :: c :: d :: rest_x) xs _ a eq_refl eq_refl).
    cbn [bind fst snd].
    rewrite (load_at pre_x (a :: b :: c :: d :: rest_x) 1 xs _ b eq_refl ltac:(lia) eq_refl).
    cbn [bind fst snd].
    rewrite (load_at pre_x (a :: b :: c :: d :: rest_x) 2 xs _ c eq_refl ltac:(lia) eq_refl).
    cbn [bind fst snd].
    rewrite (load_at pre_x (a :: b :: c :: d :: rest_x) 3 xs _ d eq_refl ltac:(lia) eq_refl).
    cbn [bind fst snd ks_outs ks_trace].
    rewrite kernel_lanes. unfold Sse2.mm_store_ps.
    cbn [Sse2.lane0 Sse2.lane1 Sse2.lane2 Sse2.lane3].
    rewrite Lp.
    rewrite (store_at0 pre_o (o0 :: o1 :: o2 :: o3 :: rest_o) _ _ _ _ eq_refl eq_refl).
    cbn [bind].
    rewrite (store_at pre_o (Sse2.lane a :: o1 :: o2 :: o3 :: rest_o) _ 1 _ _ _
               eq_refl ltac:(lia) eq_refl).
    cbn [bind].
    rewrite (store_at pre_o (Sse2.lane a :: Sse2.lane b :: o2 :: o3 :: rest_o) _ 2 _ _ _
               eq_refl ltac:(lia) eq_refl).
    cbn [bind].
    rewrite (store_at pre_o (Sse2.lane a :: Sse2.lane b :: Sse2.lane c :: o3 :: rest_o) _ 3 _ _ _
               eq_refl ltac:(lia) eq_refl).
    match goal with |- context [KState _ ?t] => set (tr1 := t) end.
    destruct (IH (pre_x ++ [a; b; c; d]) rest_x
                 (pre_o ++ [Sse2.lane a; Sse2.lane b; Sse2.lane c; Sse2.lane d]) rest_o
                 tr1 fuel) as [tr' E].
    { cbn in Lx. lia. } { cbn in Lo. lia. }
    { rewrite !length_app. cbn. lia. } { lia. }
    exists tr'.
    rewrite <- !app_assoc in E. cbn [app] in E.
    rewrite length_app in E. cbn [length] in E.
    unfold xs. cbn [bind]. rewrite <- Lp.
    replace (Z.of_nat (length pre_x) + 4) with (Z.of_nat (length pre_x + 4)) by lia.
    replace (Z.of_nat (length pre_x + 4 * S k)) with (Z.of_nat (length pre_x + 4 + 4 * k)) by (f_equal; lia).
    rewrite E. cbn [map]. reflexivity.
Qed.

(** A call of the SSE2 branch stores the lane function of every element. *)
Lemma sse_batch n outs xs :
  Z.of_nat (length xs) = n -> length outs = length xs -> Z.rem n UFXR_QUANTUM = 0 ->
  exists tr, Sse2.ufxr_sin1_2 n outs xs = Done (KState (map Sse2.lane xs) tr).
Proof.
  intros Hn Ho Hr. unfold Sse2.ufxr_sin1_2. rewrite Hr. cbn [Z.eqb assert bind].
  unfold UFXR_QUANTUM in Hr.
  assert (Hk : exists k, length xs = (4 * k)%nat).
  { exists (Z.to_nat (n / 4)). pose proof (Z.rem_mod_nonneg n 4 ltac:(lia) ltac:(lia)) as M.
    rewrite Hr in M. pose proof (Z.div_mod n 4 ltac:(lia)). lia. }
  destruct Hk as [k Hk].
  destruct (sse_loop_spec k [] xs [] outs [] (Z.to_nat n)) as [tr E]; try lia.
  cbn [app length Nat.add Z.of_nat] in E.
  replace (Z.of_nat (4 * k)) with n in E by lia.
  exists tr. exact E.
Qed.

(** The scalar loop, started with [rest_x] to go. *)
Lemma scalar_loop_spec rest_x : forall pre_x pre_o rest_o tr fuel,
  length rest_o = length rest_x ->
  length pre_x = length pre_o -> (length rest_x <= fuel)%nat ->
  match all_elems rest_x with
  | Some ys =>
      exists tr',
        Scalar.loop fuel (Z.of_nat (length pre_x + length rest_x)) (pre_x ++ rest_x)
                    (Z.of_nat (length pre_x)) (KState (pre_o ++ rest_o) tr)
        = Done (KState (pre_o ++ ys) tr')
  | None =>
      Scalar.loop fuel (Z.of_nat (length pre_x + length rest_x)) (pre_x ++ rest_x)
                  (Z.of_nat (length pre_x)) (KState (pre_o ++ rest_o) tr)
      = Undefined
  end.
Proof.
  induction rest_x as [|a rest_x IH]; intros pre_x pre_o rest_o tr fuel Lo Lp Hf.
  - destruct rest_o; [|discriminate]. cbn [all_elems]. exists tr.
    replace (length pre_x + length (@nil float))%nat with (length pre_x) by (cbn; lia).
    destruct fuel; cbn [Scalar.loop]; rewrite Z.ltb_irrefl; reflexivity.
  - destruct rest_o as [|o rest_o]; [discriminate|].
    destruct fuel as [|fuel]; [cbn in Hf; lia|].
    cbn [Scalar.loop].
    destruct (Z.ltb_spec (Z.of_nat (length pre_x)) (Z.of_nat (length pre_x + length (a :: rest_x))));
      [|cbn in *; lia].
    rewrite (load_at0 pre_x (a :: rest_x) _ _ a eq_refl eq_refl).
    cbn [bind fst snd all_elems].
    destruct (Scalar.elem a) as [y|]; [|reflexivity].
    cbn [ks_outs ks_trace]. rewrite Lp.
    rewrite (store_at0 pre_o (o :: rest_o) _ _ _ _ eq_refl eq_refl).
    cbn [bind]. rewrite <- Lp.
    match goal with |- context [KState _ ?t] => set (tr1 := t) end.
    specialize (IH (pre_x ++ [a]) (pre_o ++ [y]) rest_o tr1 fuel).
    rewrite !length_app in IH. cbn [length] in IH.
    specialize (IH ltac:(cbn in Lo; lia) ltac:(lia) ltac:(cbn in Hf; lia)).
    rewrite <- !app_assoc in IH. cbn [app] in IH.
    replace (Z.of_nat (length pre_x) + 1) with (Z.of_nat (length pre_x + 1)) by lia.
    replace (Z.of_nat (length pre_x + length (a :: rest_x)))
      with (Z.of_nat (length pre_x + 1 + length rest_x)) by (cbn [length]; f_equal; lia).
    destruct (all_elems rest_x) as [ys|].
    + destruct IH as [tr' E]. exists tr'. rewrite E.
      rewrite <- app_assoc. reflexivity.
    + exact IH.
Qed.

(** A call of the scalar branch stores the outputs of all elements, or is
    undefined when some element has none. *)
Lemma scalar_batch n outs xs :
  Z.of_nat (length xs) = n -> length outs = length xs -> Z.rem n UFXR_QUANTUM = 0 ->
  match all_elems xs with
  | Some ys => exists tr, Scalar.ufxr_sin1_2 n outs xs = Done (KState ys tr)
  | None => Scalar.ufxr_sin1_2 n outs xs = Undefined
  end.
Proof.
  intros Hn Ho Hr. unfold Scalar.ufxr_sin1_2. rewrite Hr. cbn [Z.eqb assert bind].
  pose proof (scalar_loop_spec xs [] [] outs [] (Z.to_nat n) Ho eq_refl ltac:(lia)) as E.
  cbn [app length Nat.add] in E. rewrite Hn in E. exact E.
Qed.

(** ** Rational readings *)

Lemma den_F2Q : Zpos (2 ^ 149)%positive = 2 ^ 149.
Proof. reflexivity. Qed.

Lemma F2Q_eq a b : quanta a = quanta b -> (F2Q a == F2Q b)%Q.
Proof. intros H. unfold F2Q. now rewrite H. Qed.

Lemma F2Q_sub_int a b n : quanta a = quanta b - n * 2 ^ 149 ->
  (F2Q a == F2Q b - inject_Z n)%Q.
Proof.
  intros H. unfold F2Q, Qeq, Qminus, Qplus, Qopp, inject_Z. cbn [Qnum Qden].
  rewrite H, Pos2Z.inj_mul, den_F2Q. change (Zpos 1) with 1. ring.
Qed.

Lemma F2Q_add_int a b n : (F2Q a == F2Q b + inject_Z n)%Q ->
  quanta a = quanta b + n * 2 ^ 149.
Proof.
  unfold F2Q, Qeq, Qplus, inject_Z. cbn [Qnum Qden].
  rewrite Pos2Z.inj_mul, den_F2Q. change (Zpos 1) with 1.
  assert (0 < 2 ^ 149) by lia. set (q := 2 ^ 149) in *. nia.
Qed.

Lemma F2Q_abs_le a n d : Z.abs (quanta a) * Zpos d <= n * 2 ^ 149 ->
  (Qabs (F2Q a) <= n # d)%Q.
Proof.
  intros H. unfold F2Q, Qabs, Qle. cbn [Qnum Qden]. now rewrite den_F2Q.
Qed.

Lemma F2Q_abs_lt a n d : Z.abs (quanta a) * Zpos d < n * 2 ^ 149 ->
  (Qabs (F2Q a) < n # d)%Q.
Proof.
  intros H. unfold F2Q, Qabs, Qlt. cbn [Qnum Qden]. now rewrite den_F2Q.
Qed.

Lemma F2Q_close a b : quanta a = quanta b ->
  (Qabs (F2Q a - F2Q b) <= 1 # 1000000)%Q.
Proof.
  intros H. unfold F2Q. rewrite H.
  assert (E : ((quanta b # 2 ^ 149) - (quanta b # 2 ^ 149) == 0)%Q) by ring.
  rewrite E. discriminate.
Qed.

(** [in_range] in terms of values. *)
Lemma in_range_Q x :
  in_range x <->
  is_f32 x /\ is_finite x = true /\
  (inject_Z (- 2 ^ 31) <= F2Q x)%Q /\ (F2Q x < inject_Z (2 ^ 31))%Q.
Proof.
  unfold in_range, F2Q, Qle, Qlt, inject_Z. cbn [Qnum Qden].
  rewrite den_F2Q. change (Zpos 1) with 1.
  change (2 ^ 180) with (2 ^ 31 * 2 ^ 149).
  split; intros (A & B & C); repeat split; trivial; lia.
Qed.

(** ** Sign change of the input *)

Lemma is_f32_fopp x : is_f32 x -> is_f32 (fopp x).
Proof. destruct x; trivial. Qed.

Lemma is_finite_fopp x : is_finite (fopp x) = is_finite x.
Proof. destruct x; trivial. Qed.

Lemma phaseV_opp v : phaseV (- v) = - phaseV v.
Proof. unfold phaseV. rewrite rint_opp. ring. Qed.

Lemma tint_opp v : tint (- v) = - tint v.
Proof. unfold tint. apply Z.quot_opp_l. lia. Qed.

Lemma phaseS_opp v : phaseS (- v) = - phaseS v.
Proof. unfold phaseS. rewrite tint_opp. ring. Qed.

Lemma foldZ_opp r : foldZ (- r) = - foldZ r.
Proof.
  unfold foldZ.
  destruct (Z.ltb_spec (2 ^ 147) r), (Z.ltb_spec r (- 2 ^ 147)),
           (Z.ltb_spec (2 ^ 147) (- r)), (Z.ltb_spec (- r) (- 2 ^ 147)); lia.
Qed.

Lemma foldZ_repr r : repr r -> Z.abs r < 2 ^ 149 -> repr (foldZ r).
Proof.
  intros R B. unfold foldZ.
  assert (D : 2 ^ 147 <= Z.abs r -> (2 ^ 124 | r))
    by (intros; apply (repr_divide r 147); trivial; lia).
  assert (D8 : (2 ^ 124 | 2 ^ 148)) by (apply divide_pow2; lia).
  destruct (Z.ltb_spec (2 ^ 147) r); [|destruct (Z.ltb_spec r (- 2 ^ 147))]; trivial.
  - apply (repr_intro _ 124); [lia | | change (2 ^ (24 + 124)) with (2 ^ 148); lia].
    apply Z.divide_sub_r; trivial. apply D; lia.
  - apply (repr_intro _ 124); [lia | | change (2 ^ (24 + 124)) with (2 ^ 148); lia].
    apply Z.divide_sub_r; [|apply D; lia]. now apply Z.divide_opp_r.
Qed.

(** ** The two lanes compute the same value *)

(** In range, the scalar output and the SSE2 output have the same value. *)
Lemma lanes_quanta x : in_range x ->
  is_f32 (Sse2.lane x) /\ is_finite (Sse2.lane x) = true /\
  exists s, Scalar.elem x = Some s /\ is_f32 s /\ is_finite s = true /\
            quanta s = quanta (Sse2.lane x).
Proof.
  intros I. destruct (sse_lane_spec x I) as (V1 & V2 & V3).
  destruct (scalar_elem_spec x I) as (s & E & S1 & S2 & S3).
  repeat split; trivial. exists s. repeat split; trivial.
  rewrite V3, S3. symmetry.
  destruct I as (V & F & B). pose proof (repr_quanta x V) as R.
  destruct (rint_spec _ R) as (_ & R2 & R3).
  destruct (tint_spec _ R) as (_ & T2 & T3 & _).
  apply shapeZ_fold; trivial.
  - apply foldZ_repr; trivial.
  - exists (tint (quanta x) - rint (quanta x)). unfold phaseV, phaseS. ring.
Qed.

(** ** The literals *)

Lemma literal_values :
  of_Z 8 = f8 /\ of_Z 16 = f16 /\ of_Z 1 = f1 /\ of_Z 0 = fzero /\
  (F2Q f0_5 == 1 # 2)%Q /\ (F2Q fm0_5 == - (1 # 2))%Q /\
  (F2Q f0_25 == 1 # 4)%Q /\ (F2Q fm0_25 == - (1 # 4))%Q /\
  (F2Q f0_75 == 3 # 4)%Q /\ (F2Q f0_625 == 5 # 8)%Q /\ (F2Q f1_5 == 3 # 2)%Q /\
  of_Z (2 ^ 31) = f2p31 /\ (F2Q f2pm30 == 1 # 2 ^ 30)%Q /\
  Forall is_f32 [f0_5; fm0_5; f0_25; fm0_25; f1; fm1; f8; f16; fzero;
                 f2p31; f0_75; f1_5; f2pm30; f0_625].
Proof. repeat split; repeat constructor. Qed.

(** ** Agreement of the two lanes *)

Lemma lanes_same x : in_range x ->
  exists s, Scalar.elem x = Some s /\ quanta s = quanta (Sse2.lane x) /\
            (Sse2.lane x = s \/ (is_zero (Sse2.lane x) = true /\ is_zero s = true)).
Proof.
  intros I. destruct (lanes_quanta x I) as (V1 & V2 & s & E & S1 & S2 & S3).
  exists s. split; [trivial|]. split; [trivial|]. apply quanta_inj; auto.
Qed.

(** ** Negated inputs and ties *)

Lemma fopp_quanta_lane x : in_range x -> in_range (fopp x) ->
  quanta (Sse2.lane (fopp x)) = - quanta (Sse2.lane x).
Proof.
  intros I I'.
  destruct (sse_lane_spec x I) as (_ & _ & ->).
  destruct (sse_lane_spec _ I') as (_ & _ & ->).
  now rewrite quanta_opp, phaseV_opp, shapeZ_opp.
Qed.

Lemma rint_tie_even v : 2 * Z.abs (phaseV v) = 2 ^ 149 -> Z.even (rint v) = true.
Proof.
  unfold phaseV, rint. intros H.
  assert (S : v <> 0) by (intros ->; simpl in H; lia).
  assert (E : Z.even (rne_div (Z.abs v) 149) = true).
  { assert (T : 2 * Z.abs (Z.abs v - rne_div (Z.abs v) 149 * 2 ^ 149) = 2 ^ 149).
    { destruct (Z.abs_spec v) as [[P A]|[P A]]; rewrite A in *.
      - rewrite Z.sgn_pos in H by lia.
        replace (1 * rne_div v 149 * 2 ^ 149) with (rne_div v 149 * 2 ^ 149) in H by ring.
        exact H.
      - rewrite Z.sgn_neg in H by lia.
        replace (v - -1 * rne_div (- v) 149 * 2 ^ 149)
          with (- (- v - rne_div (- v) 149 * 2 ^ 149)) in H by ring.
        now rewrite Z.abs_opp in H. }
    revert T. unfold rne_div.
    pose proof (Z.div_mod (Z.abs v) (2 ^ 149) ltac:(lia)) as DM.
    pose proof (Z.mod_pos_bound (Z.abs v) (2 ^ 149) ltac:(lia)) as MB.
    set (q := Z.abs v / 2 ^ 149) in *. set (r := Z.abs v mod 2 ^ 149) in *.
    destruct (Z.compare_spec (2 * r) (2 ^ 149)) as [C|C|C]; intros T.
    - destruct (Z.even q) eqn:Q; trivial.
      rewrite Z.even_add, Q. reflexivity.
    - exfalso. lia.
    - exfalso. lia. }
  rewrite Z.even_mul, E. apply orb_true_r.
Qed.

Lemma in_range_fopp x : in_range x -> quanta x <> - 2 ^ 180 -> in_range (fopp x).
Proof.
  intros (V & F & B) N. split; [now apply is_f32_fopp|].
  split; [now rewrite is_finite_fopp|]. rewrite quanta_opp. lia.
Qed.

(** ** Where the scalar loop is defined *)

(** The scalar body is defined exactly on the in-range values. *)
Lemma elem_defined x : is_f32 x ->
  ((exists y, Scalar.elem x = Some y) <-> in_range x).
Proof.
  intros V. split.
  - intros [y E]. unfold Scalar.elem, Scalar.phase in E.
    destruct (Scalar.float_to_int x) as [n|] eqn:FI; [|discriminate].
    apply float_to_int_spec in FI; trivial. destruct FI as (F & _ & B).
    repeat split; trivial; lia.
  - intros I. destruct (scalar_elem_spec x I) as (y & E & _). now exists y.
Qed.

Lemma all_elems_defined xs : Forall is_f32 xs ->
  ((exists ys, all_elems xs = Some ys) <-> Forall in_range xs).
Proof.
  induction 1 as [|x xs V _ IH]; cbn [all_elems].
  - split; [constructor | now exists []].
  - pose proof (elem_defined x V) as ED. split.
    + intros [ys E]. destruct (Scalar.elem x) as [y|] eqn:Ex; [|discriminate].
      destruct (all_elems xs) as [ys'|]; [|discriminate].
      constructor. apply ED; now exists y. apply IH; now exists ys'.
    + intros I. inversion I as [|? ? Ix Ixs]; subst.
      apply ED in Ix. destruct Ix as [y ->].
      apply IH in Ixs. destruct Ixs as [ys ->]. now exists (y :: ys).
Qed.

(** ** Inputs at the boundary of the phase interval *)

Lemma quanta_half p : fabs p = f0_5 -> Z.abs (quanta p) = 2 ^ 148.
Proof. intros H. rewrite <- quanta_abs, H. reflexivity. Qed.

(** Out of range the SSE2 branch subtracts [-2^31]; what is left is
    large. *)
Lemma out_of_range_phase s m e :
  is_f32 (S754_finite s m e) ->
  ~ (- 2 ^ 180 <= quanta (S754_finite s m e) < 2 ^ 180) ->
  fabs (Sse2.phase (S754_finite s m e)) <> f0_5.
Proof.
  intros V O H. set (x := S754_finite s m e) in *.
  pose proof (repr_quanta x V) as R.
  pose proof (f32_finite_inv _ _ _ V) as (He & _).
  assert (D : (2 ^ (180 - 23) | quanta x)) by (apply repr_divide; trivial; lia).
  destruct D as [c Hc]. change (2 ^ (180 - 23)) with (2 ^ 8 * 2 ^ 149) in Hc.
  assert (RI : rint (quanta x) = c * 2 ^ 8) by (rewrite Hc, Z.mul_assoc; apply rint_mul).
  assert (NI : in_int32 (rint (quanta x)) = false).
  { destruct (in_int32 (rint (quanta x))) eqn:E; trivial.
    apply in_int32_iff in E. exfalso. apply O.
    rewrite Hc. rewrite RI in E. change (2 ^ 180) with (2 ^ 31 * 2 ^ 149). lia. }
  assert (P : Sse2.phase x = fsub x (S754_finite true 8388608 8)).
  { unfold Sse2.phase, x, Sse2.cvtps_epi32. rewrite nearest_code by lia.
    fold x. rewrite NI. reflexivity. }
  apply quanta_half in H. rewrite P in H.
  destruct (fsub_gen x (S754_finite true 8388608 8) V eq_refl eq_refl eq_refl)
    as [(s' & E & _)|(_ & _ & Q)].
  - rewrite E in H. discriminate H.
  - rewrite Q in H. change (quanta (S754_finite true 8388608 8)) with (- 2 ^ 180) in H.
    assert (2 ^ 157 <= quanta x - - 2 ^ 180 \/ quanta x - - 2 ^ 180 <= - 2 ^ 157) as [A|A].
    { rewrite Hc in *. change (2 ^ 180) with (2 ^ 23 * (2 ^ 8 * 2 ^ 149)) in *.
      change (2 ^ 157) with (2 ^ 8 * 2 ^ 149). lia. }
    + pose proof (rndZ_ge 0 _ 157 ltac:(lia) A) as G.
      change (2 ^ (157 - 0)) with (2 ^ 9 * 2 ^ 148) in G. lia.
    + pose proof (rndZ_le 0 _ 157 ltac:(lia) A) as G.
      change (2 ^ (157 - 0)) with (2 ^ 9 * 2 ^ 148) in G. lia.
Qed.

(** A reduced value of magnitude one half only arises in range. *)
Lemma sse_half_in_range x :
  is_f32 x -> fabs (Sse2.phase x) = f0_5 -> in_range x /\ in_range (fopp x).
Proof.
  intros V H.
  assert (I : in_range x).
  { destruct x as [s|s| |s m e].
    - destruct s; discriminate H.
    - destruct s; discriminate H.
    - discriminate H.
    - destruct (Z_le_gt_dec (- 2 ^ 180) (quanta (S754_finite s m e)));
      destruct (Z_lt_le_dec (quanta (S754_finite s m e)) (2 ^ 180));
        try (exfalso; apply (out_of_range_phase s m e V); [lia | exact H]).
      repeat split; trivial. }
  split; trivial. apply in_range_fopp; trivial.
  intros E. apply quanta_half in H.
  destruct (sse_phase_spec x I) as (_ & _ & P). rewrite P, E in H.
  change (- 2 ^ 180) with (- 2 ^ 31 * 2 ^ 149) in H. rewrite rint_mul in H.
  rewrite Z.sub_diag in H. discriminate H.
Qed.

Lemma scalar_half_in_range x r :
  is_f32 x -> Scalar.phase x = Some r -> fabs r = f0_5 ->
  in_range x /\ in_range (fopp x) /\ Z.abs (phaseS (quanta x)) = 2 ^ 148.
Proof.
  intros V E H.
  assert (I : in_range x).
  { apply elem_defined; trivial. unfold Scalar.elem. rewrite E. now eexists. }
  destruct (scalar_phase_spec x I) as (r' & E' & _ & _ & P).
  assert (r' = r) by congruence. subst r'.
  apply quanta_half in H. rewrite P in H.
  split; trivial. split; trivial. apply in_range_fopp; trivial.
  intros Q. rewrite Q in H.
  change (- 2 ^ 180) with (- 2 ^ 31 * 2 ^ 149) in H. rewrite tint_mul in H.
  rewrite Z.sub_diag in H. discriminate H.
Qed.

Lemma shapeZ_at_half p : Z.abs p = 2 ^ 148 -> shapeZ p = 0.
Proof.
  intros H. destruct (Z.abs_spec p) as [[_ E]|[_ E]]; rewrite E in H.
  - rewrite H. apply shapeZ_half.
  - replace p with (- 2 ^ 148) by lia. apply shapeZ_neg_half.
Qed.

Lemma foldZ_at_half r : Z.abs r = 2 ^ 148 -> foldZ r = 0.
Proof.
  intros H. destruct (Z.abs_spec r) as [[_ E]|[_ E]]; rewrite E in H.
  - rewrite H. reflexivity.
  - replace r with (- 2 ^ 148) by lia. reflexivity.
Qed.

(** ** Buffers longer or shorter than the count *)

Lemma update_length l : forall i v l', update l i v = Some l' -> length l' = length l.
Proof.
  induction l as [|h t IH]; intros [|i] v l' H; cbn [update] in H; try discriminate.
  - injection H as <-. reflexivity.
  - destruct (update t i v) as [t'|] eqn:E; [|discriminate].
    injection H as <-. cbn [length]. f_equal. eauto.
Qed.

Lemma update_none l : forall i v, (length l <= i)%nat -> update l i v = None.
Proof.
  induction l as [|h t IH]; intros [|i] v H; cbn [update length] in *; trivial; try lia.
  rewrite IH by lia. reflexivity.
Qed.

(** A load is an overrun or leaves the output buffer alone; a store is
    an overrun or keeps the length of the output buffer. *)
Lemma load_cases xs i st :
  (load xs i st = OutOfBounds /\ (i < 0 \/ Z.of_nat (length xs) <= i)) \/
  (exists v, load xs i st = Done (v, KState (ks_outs st) (ks_trace st ++ [EvLoad i]))).
Proof.
  unfold load. destruct (Z.ltb_spec i 0); [left; split; [trivial | lia]|].
  destruct (nth_error xs (Z.to_nat i)) as [v|] eqn:E; [right; eauto|].
  left. split; trivial. apply nth_error_None in E. lia.
Qed.

Lemma load_overrun xs i st : Z.of_nat (length xs) <= i -> load xs i st = OutOfBounds.
Proof.
  intros H. unfold load. destruct (Z.ltb_spec i 0); trivial.
  assert (E : nth_error xs (Z.to_nat i) = None) by (apply nth_error_None; lia).
  now rewrite E.
Qed.

Lemma store_cases i v st :
  store i v st = OutOfBounds \/
  (exists st', store i v st = Done st' /\ length (ks_outs st') = length (ks_outs st)).
Proof.
  unfold store. destruct (i <? 0); [now left|].
  destruct (update (ks_outs st) (Z.to_nat i) v) as [o|] eqn:E; [|now left].
  right. eexists. split; [reflexivity|]. cbn [ks_outs]. eauto using update_length.
Qed.

Lemma store_overrun i v st : Z.of_nat (length (ks_outs st)) <= i -> store i v st = OutOfBounds.
Proof.
  intros H. unfold store. destruct (Z.ltb_spec i 0); trivial.
  rewrite update_none by lia. reflexivity.
Qed.

Lemma mm_load_cases xs i st :
  Sse2.mm_load_ps xs i st = OutOfBounds \/
  (exists v st', Sse2.mm_load_ps xs i st = Done (v, st') /\ ks_outs st' = ks_outs st).
Proof.
  unfold Sse2.mm_load_ps.
  destruct (load_cases xs i st) as [[-> _]|[v0 ->]]; [now left|]. cbn [bind fst snd].
  match goal with |- context [load xs (i + 1) ?s] =>
    destruct (load_cases xs (i + 1) s) as [[-> _]|[v1 ->]]; [now left|] end.
  cbn [bind fst snd ks_outs ks_trace].
  match goal with |- context [load xs (i + 2) ?s] =>
    destruct (load_cases xs (i + 2) s) as [[-> _]|[v2 ->]]; [now left|] end.
  cbn [bind fst snd ks_outs ks_trace].
  match goal with |- context [load xs (i + 3) ?s] =>
    destruct (load_cases xs (i + 3) s) as [[-> _]|[v3 ->]]; [now left|] end.
  cbn [bind fst snd ks_outs ks_trace]. right. eauto.
Qed.

Lemma mm_load_overrun xs i st :
  Z.of_nat (length xs) < i + 4 -> Sse2.mm_load_ps xs i st = OutOfBounds.
Proof.
  intros H. unfold Sse2.mm_load_ps.
  destruct (load_cases xs i st) as [[-> _]|[v0 ->]]; trivial. cbn [bind fst snd].
  match goal with |- context [load xs (i + 1) ?s] =>
    destruct (load_cases xs (i + 1) s) as [[-> _]|[v1 ->]]; trivial end.
  cbn [bind fst snd ks_outs ks_trace].
  match goal with |- context [load xs (i + 2) ?s] =>
    destruct (load_cases xs (i + 2) s) as [[-> _]|[v2 ->]]; trivial end.
  cbn [bind fst snd ks_outs ks_trace].
  rewrite load_overrun by lia. reflexivity.
Qed.

Lemma mm_store_overrun i v st :
  Z.of_nat (length (ks_outs st)) < i + 4 -> Sse2.mm_store_ps i v st = OutOfBounds.
Proof.
  intros H. unfold Sse2.mm_store_ps.
  destruct (store_cases i (Sse2.lane0 v) st) as [->|(s0 & -> & L0)]; trivial. cbn [bind].
  destruct (store_cases (i + 1) (Sse2.lane1 v) s0) as [->|(s1 & -> & L1)]; trivial. cbn [bind].
  destruct (store_cases (i + 2) (Sse2.lane2 v) s1) as [->|(s2 & -> & L2)]; trivial. cbn [bind].
  apply store_overrun. lia.
Qed.

(** [k] rounds of the SSE2 loop over buffers that hold the elements. *)
Lemma sse_loop_steps k : forall pre_x rest_x tail_x pre_o rest_o tail_o tr fuel n,
  length rest_x = (4 * k)%nat -> length rest_o = (4 * k)%nat ->
  length pre_x = length pre_o -> Z.of_nat (length pre_x + 4 * k) <= n ->
  Sse2.loop (k + fuel) n (pre_x ++ rest_x ++ tail_x)
            (Z.of_nat (length pre_x)) (KState (pre_o ++ rest_o ++ tail_o) tr)
  = Sse2.loop fuel n (pre_x ++ rest_x ++ tail_x)
              (Z.of_nat (length pre_x + 4 * k))
              (KState (pre_o ++ map Sse2.lane rest_x ++ tail_o)
                      (tr ++ sse_events (Z.of_nat (length pre_x)) rest_x)).
Proof.
  induction k as [|k IH]; intros pre_x rest_x tail_x pre_o rest_o tail_o tr fuel n Lx Lo Lp Hn.
  - destruct rest_x; [|discriminate]. destruct rest_o; [|discriminate].
    cbn [sse_events map app Nat.add]. rewrite app_nil_r.
    replace (length pre_x + 4 * 0)%nat with (length pre_x) by lia. reflexivity.
  - destruct rest_x as [|a [|b [|c [|d rest_x]]]]; try (cbn in Lx; lia).
    destruct rest_o as [|o0 [|o1 [|o2 [|o3 rest_o]]]]; try (cbn in Lo; lia).
    cbn [Nat.add Sse2.loop].
    destruct (Z.ltb_spec (Z.of_nat (length pre_x)) n); [|lia].
    set (xs := pre_x ++ (a :: b :: c :: d :: rest_x) ++ tail_x).
    unfold Sse2.mm_load_ps.
    rewrite (load_at0 pre_x ((a :: b :: c :: d :: rest_x) ++ tail_x) xs _ a eq_refl eq_refl).
    cbn [bind fst snd].
    rewrite (load_at pre_x ((a :: b :: c :: d :: rest_x) ++ tail_x) 1 xs _ b eq_refl ltac:(lia) eq_refl).
    cbn [bind fst snd].
    rewrite (load_at pre_x ((a :: b :: c :: d :: rest_x) ++ tail_x) 2 xs _ c eq_refl ltac:(lia) eq_refl).
    cbn [bind fst snd].
    rewrite (load_at pre_x ((a :: b :: c :: d :: rest_x) ++ tail_x) 3 xs _ d eq_refl ltac:(lia) eq_refl).
    cbn [bind fst snd ks_outs ks_trace].
    rewrite kernel_lanes. unfold Sse2.mm_store_ps.
    cbn [Sse2.lane0 Sse2.lane1 Sse2.lane2 Sse2.lane3].
    rewrite Lp. cbn [app].
    rewrite (store_at0 pre_o (o0 :: o1 :: o2 :: o3 :: rest_o ++ tail_o) _ _ _ _ eq_refl eq_refl).
    cbn [bind].
    rewrite (store_at pre_o (Sse2.lane a :: o1 :: o2 :: o3 :: rest_o ++ tail_o) _ 1 _ _ _
               eq_refl ltac:(lia) eq_refl).
    cbn [bind].
    rewrite (store_at pre_o (Sse2.lane a :: Sse2.lane b :: o2 :: o3 :: rest_o ++ tail_o) _ 2 _ _ _
               eq_refl ltac:(lia) eq_refl).
    cbn [bind].
    rewrite (store_at pre_o (Sse2.lane a :: Sse2.lane b :: Sse2.lane c :: o3 :: rest_o ++ tail_o) _ 3 _ _ _
               eq_refl ltac:(lia) eq_refl).
    cbn [bind]. rewrite <- Lp.
    match goal with |- context [KState _ ?t] => set (tr1 := t) end.
    pose proof (IH (pre_x ++ [a; b; c; d]) rest_x tail_x
                 (pre_o ++ [Sse2.lane a; Sse2.lane b; Sse2.lane c; Sse2.lane d]) rest_o tail_o
                 tr1 fuel n) as E.
    rewrite !length_app in E. cbn [length] in E.
    specialize (E ltac:(cbn in Lx; lia) ltac:(cbn in Lo; lia) ltac:(lia) ltac:(lia)).
    rewrite <- !app_assoc in E. cbn [app] in E.
    unfold xs. cbn [app].
    replace (Z.of_nat (length pre_x) + 4) with (Z.of_nat (length pre_x + 4)) by lia.
    rewrite E. cbn [map sse_events app].
    replace (length pre_x + 4 + 4 * k)%nat with (length pre_x + 4 * S k)%nat by lia.
    unfold tr1. rewrite <- !app_assoc. cbn [app].
    replace (Z.of_nat (length pre_x + 4)) with (Z.of_nat (length pre_x) + 4) by lia.
    reflexivity.
Qed.

(** The loop stops as soon as the index reaches the count. *)
Lemma sse_loop_stop fuel n xs i st : n <= i -> Sse2.loop fuel n xs i st = Done st.
Proof.
  intros H. destruct fuel; cbn [Sse2.loop];
    destruct (Z.ltb_spec i n); trivial; lia.
Qed.

Lemma scalar_loop_stop fuel n xs i st : n <= i -> Scalar.loop fuel n xs i st = Done st.
Proof.
  intros H. destruct fuel; cbn [Scalar.loop];
    destruct (Z.ltb_spec i n); trivial; lia.
Qed.

(** Rounds of the scalar loop over elements that all have an output. *)
Lemma scalar_loop_steps rest_x : forall ys pre_x tail_x pre_o rest_o tail_o tr fuel n,
  all_elems rest_x = Some ys -> length rest_o = length rest_x ->
  length pre_x = length pre_o -> Z.of_nat (length pre_x + length rest_x) <= n ->
  Scalar.loop (length rest_x + fuel) n (pre_x ++ rest_x ++ tail_x)
              (Z.of_nat (length pre_x)) (KState (pre_o ++ rest_o ++ tail_o) tr)
  = Scalar.loop fuel n (pre_x ++ rest_x ++ tail_x)
                (Z.of_nat (length pre_x + length rest_x))
                (KState (pre_o ++ ys ++ tail_o)
                        (tr ++ scalar_events (Z.of_nat (length pre_x)) ys)).
Proof.
  induction rest_x as [|a rest_x IH];
    intros ys pre_x tail_x pre_o rest_o tail_o tr fuel n A Lo Lp Hn.
  - destruct rest_o; [|discriminate]. injection A as <-.
    cbn [scalar_events app length Nat.add]. rewrite app_nil_r, Nat.add_0_r. reflexivity.
  - destruct rest_o as [|o rest_o]; [discriminate|].
    cbn [all_elems] in A.
    destruct (Scalar.elem a) as [y|] eqn:Ea; [|discriminate].
    destruct (all_elems rest_x) as [ys'|] eqn:Er; [|discriminate].
    injection A as <-.
    cbn [length Nat.add Scalar.loop].
    destruct (Z.ltb_spec (Z.of_nat (length pre_x)) n); [|cbn [length] in Hn; lia].
    rewrite (load_at0 pre_x ((a :: rest_x) ++ tail_x) _ _ a eq_refl eq_refl).
    cbn [bind fst snd]. rewrite Ea.
    cbn [ks_outs ks_trace app]. rewrite Lp.
    rewrite (store_at0 pre_o (o :: rest_o ++ tail_o) _ _ _ _ eq_refl eq_refl).
    cbn [bind]. rewrite <- Lp.
    match goal with |- context [KState _ ?t] => set (tr1 := t) end.
    pose proof (IH ys' (pre_x ++ [a]) tail_x (pre_o ++ [y]) rest_o tail_o tr1 fuel n eq_refl) as E.
    rewrite !length_app in E. cbn [length] in E.
    specialize (E ltac:(cbn in Lo; lia) ltac:(lia) ltac:(cbn [length] in Hn; lia)).
    rewrite <- !app_assoc in E. cbn [app] in E.
    replace (Z.of_nat (length pre_x) + 1) with (Z.of_nat (length pre_x + 1)) by lia.
    rewrite E. cbn [scalar_events app].
    replace (length pre_x + 1 + length rest_x)%nat with (length pre_x + S (length rest_x))%nat by lia.
    unfold tr1. rewrite <- !app_assoc. cbn [app].
    replace (Z.of_nat (length pre_x + 1)) with (Z.of_nat (length pre_x) + 1) by lia.
    reflexivity.
Qed.

(** The first element without an output, if there is one. *)
Lemma all_elems_none xs : all_elems xs = None ->
  exists good ys bad rest, xs = good ++ bad :: rest /\ all_elems good = Some ys /\
                           Scalar.elem bad = None.
Proof.
  induction xs as [|a xs IH]; cbn [all_elems]; [discriminate|].
  destruct (Scalar.elem a) as [y|] eqn:Ea.
  - destruct (all_elems xs) as [ys|]; [discriminate|]. intros _.
    destruct (IH eq_refl) as (good & ys & bad & rest & -> & G & B).
    exists (a :: good), (y :: ys), bad, rest. cbn [all_elems app]. rewrite Ea, G. auto.
  - intros _. exists [], [], a, xs. auto.
Qed.

Lemma all_elems_length xs : forall ys, all_elems xs = Some ys -> length ys = length xs.
Proof.
  induction xs as [|a xs IH]; cbn [all_elems]; intros ys H.
  - injection H as <-. reflexivity.
  - destruct (Scalar.elem a); [|discriminate].
    destruct (all_elems xs) as [ys'|]; [|discriminate].
    injection H as <-. cbn [length]. f_equal. auto.
Qed.

Lemma all_elems_app xs : forall xs' ys ys',
  all_elems xs = Some ys -> all_elems xs' = Some ys' ->
  all_elems (xs ++ xs') = Some (ys ++ ys').
Proof.
  induction xs as [|a xs IH]; cbn [all_elems app]; intros xs' ys ys' H H'.
  - injection H as <-. exact H'.
  - destruct (Scalar.elem a); [|discriminate].
    destruct (all_elems xs) as [y1|]; [|discriminate].
    injection H as <-. rewrite (IH xs' y1 ys' eq_refl H'). reflexivity.
Qed.

Lemma all_elems_in_range xs : Forall in_range xs -> exists ys, all_elems xs = Some ys.
Proof.
  intros H. apply all_elems_defined; trivial.
  eapply Forall_impl; [|exact H]. now intros x (V & _).
Qed.

(** A multiple of the quantum is four times a number of rounds. *)
Lemma quantum_rounds n : 0 <= n -> Z.rem n UFXR_QUANTUM = 0 ->
  exists k, Z.to_nat n = (4 * k)%nat.
Proof.
  unfold UFXR_QUANTUM. intros H0 Hr. exists (Z.to_nat (n / 4)).
  pose proof (Z.rem_mod_nonneg n 4 ltac:(lia) ltac:(lia)) as M.
  rewrite Hr in M. pose proof (Z.div_mod n 4 ltac:(lia)). lia.
Qed.

Lemma mm_store_cases i v st :
  Sse2.mm_store_ps i v st = OutOfBounds \/ (exists st', Sse2.mm_store_ps i v st = Done st').
Proof.
  unfold Sse2.mm_store_ps.
  destruct (store_cases i (Sse2.lane0 v) st) as [->|(s0 & -> & L0)]; [now left|]. cbn [bind].
  destruct (store_cases (i + 1) (Sse2.lane1 v) s0) as [->|(s1 & -> & L1)]; [now left|]. cbn [bind].
  destruct (store_cases (i + 2) (Sse2.lane2 v) s1) as [->|(s2 & -> & L2)]; [now left|]. cbn [bind].
  destruct (store_cases (i + 3) (Sse2.lane3 v) s2) as [->|(s3 & -> & L3)]; [now left|].
  right. eauto.
Qed.

(** The assertion is only made at the entry of the function. *)
Lemma sse_loop_no_assert fuel : forall n xs i st, Sse2.loop fuel n xs i st <> AssertFailed.
Proof.
  induction fuel as [|fuel IH]; intros n xs i st; cbn [Sse2.loop];
    destruct (i <? n); try discriminate.
  destruct (mm_load_cases xs i st) as [->|(v & st' & -> & _)]; [discriminate|].
  cbn [bind fst snd].
  destruct (mm_store_cases i (Sse2.kernel v) st') as [->|(st'' & ->)]; [discriminate|].
  cbn [bind]. apply IH.
Qed.

Lemma scalar_loop_no_assert fuel : forall n xs i st, Scalar.loop fuel n xs i st <> AssertFailed.
Proof.
  induction fuel as [|fuel IH]; intros n xs i st; cbn [Scalar.loop];
    destruct (i <? n); try discriminate.
  destruct (load_cases xs i st) as [[-> _]|(v & ->)]; [discriminate|].
  cbn [bind fst snd]. destruct (Scalar.elem v); [|discriminate].
  match goal with |- context [store i ?y ?s] =>
    destruct (store_cases i y s) as [->|(st'' & -> & _)]; [discriminate|] end.
  cbn [bind]. apply IH.
Qed.

Lemma assert_passes n : Z.rem n UFXR_QUANTUM = 0 ->
  assert (Z.rem n UFXR_QUANTUM =? 0) = Done tt.
Proof. intros ->. reflexivity. Qed.

(** ** Whole calls *)

(** A call on buffers that hold [n] elements or more. *)
Lemma sse_call_done n outs xs :
  0 <= n -> Z.rem n UFXR_QUANTUM = 0 ->
  n <= Z.of_nat (length xs) -> n <= Z.of_nat (length outs) ->
  Sse2.ufxr_sin1_2 n outs xs =
  Done (KState (map Sse2.lane (firstn (Z.to_nat n) xs) ++ skipn (Z.to_nat n) outs)
               (sse_events 0 (firstn (Z.to_nat n) xs))).
Proof.
  intros H0 Hr Hx Ho. unfold Sse2.ufxr_sin1_2. rewrite assert_passes by trivial. cbn [bind].
  destruct (quantum_rounds n H0 Hr) as [k Hk].
  set (N := Z.to_nat n) in *.
  pose proof (sse_loop_steps k [] (firstn N xs) (skipn N xs) [] (firstn N outs) (skipn N outs)
                [] (N - k) n) as E.
  rewrite !length_firstn in E.
  specialize (E ltac:(lia) ltac:(lia) eq_refl ltac:(cbn [length]; lia)).
  cbn [app length Nat.add Z.of_nat] in E. rewrite !firstn_skipn in E.
  replace (k + (N - k))%nat with N in E by lia.
  rewrite E. apply sse_loop_stop. lia.
Qed.

(** A call on a buffer that holds fewer than [n] elements. *)
Lemma sse_call_overrun n outs xs :
  0 < n -> Z.rem n UFXR_QUANTUM = 0 ->
  Z.of_nat (length xs) < n \/ Z.of_nat (length outs) < n ->
  Sse2.ufxr_sin1_2 n outs xs = OutOfBounds.
Proof.
  intros H0 Hr Hs. unfold Sse2.ufxr_sin1_2. rewrite assert_passes by trivial. cbn [bind].
  destruct (quantum_rounds n ltac:(lia) Hr) as [kn Hkn].
  set (L := Nat.min (length xs) (length outs)).
  set (k := (L / 4)%nat). set (N := (4 * k)%nat).
  assert (HN : (N <= L < N + 4)%nat).
  { unfold N, k. pose proof (Nat.div_mod_eq L 4) as D.
    pose proof (Nat.mod_upper_bound L 4 ltac:(lia)). lia. }
  assert (Hk : (k < kn)%nat) by lia.
  pose proof (sse_loop_steps k [] (firstn N xs) (skipn N xs) [] (firstn N outs) (skipn N outs)
                [] (Z.to_nat n - k) n) as E.
  rewrite !length_firstn in E.
  specialize (E ltac:(lia) ltac:(lia) eq_refl ltac:(cbn [length]; lia)).
  cbn [app length Nat.add Z.of_nat] in E. rewrite !firstn_skipn in E.
  replace (k + (Z.to_nat n - k))%nat with (Z.to_nat n) in E by lia.
  rewrite E. fold N.
  destruct (Z.to_nat n - k)%nat as [|fuel] eqn:Ef; [lia|].
  cbn [Sse2.loop]. destruct (Z.ltb_spec (Z.of_nat N) n); [|lia].
  destruct (Z_lt_le_dec (Z.of_nat (length xs)) (Z.of_nat N + 4)) as [Sx|Sx].
  - rewrite mm_load_overrun by lia. reflexivity.
  - match goal with |- context [Sse2.mm_load_ps xs _ ?s] =>
      destruct (mm_load_cases xs (Z.of_nat N) s) as [->|(v & st' & -> & O)]; [reflexivity|] end.
    cbn [bind fst snd]. rewrite mm_store_overrun; [reflexivity|].
    rewrite O. cbn [ks_outs]. rewrite length_app, length_map, length_firstn, length_skipn. lia.
Qed.

(** The scalar loop over buffers that hold [n] elements or more. *)
Lemma scalar_call_done n outs xs ys :
  0 <= n -> Z.rem n UFXR_QUANTUM = 0 ->
  n <= Z.of_nat (length xs) -> n <= Z.of_nat (length outs) ->
  all_elems (firstn (Z.to_nat n) xs) = Some ys ->
  Scalar.ufxr_sin1_2 n outs xs =
  Done (KState (ys ++ skipn (Z.to_nat n) outs) (scalar_events 0 ys)).
Proof.
  intros H0 Hr Hx Ho A. unfold Scalar.ufxr_sin1_2. rewrite assert_passes by trivial. cbn [bind].
  set (N := Z.to_nat n) in *.
  pose proof (scalar_loop_steps (firstn N xs) ys [] (skipn N xs) [] (firstn N outs) (skipn N outs)
                [] 0 n A) as E.
  rewrite !length_firstn in E.
  specialize (E ltac:(lia) eq_refl ltac:(cbn [length]; lia)).
  cbn [app length Nat.add Z.of_nat] in E. rewrite !firstn_skipn in E.
  replace (Nat.min N (length xs) + 0)%nat with N in E by lia.
  replace (Nat.min N (length xs)) with N in E by lia.
  rewrite E. apply scalar_loop_stop. lia.
Qed.

(** The scalar loop stops at the first element that has no output. *)
Lemma scalar_call_undefined n outs good ys bad rest :
  Z.rem n UFXR_QUANTUM = 0 ->
  all_elems good = Some ys -> Scalar.elem bad = None ->
  (length good <= length outs)%nat -> Z.of_nat (length good) < n ->
  Scalar.ufxr_sin1_2 n outs (good ++ bad :: rest) = Undefined.
Proof.
  intros Hr A B Lo Hn. unfold Scalar.ufxr_sin1_2. rewrite assert_passes by trivial. cbn [bind].
  set (G := length good).
  pose proof (scalar_loop_steps good ys [] (bad :: rest) [] (firstn G outs) (skipn G outs)
                [] (Z.to_nat n - G) n A) as E.
  rewrite length_firstn in E.
  specialize (E ltac:(lia) eq_refl ltac:(cbn [length]; lia)).
  cbn [app length Nat.add Z.of_nat] in E. rewrite firstn_skipn in E.
  fold G in E.
  replace (G + (Z.to_nat n - G))%nat with (Z.to_nat n) in E by lia.
  rewrite E. fold G.
  destruct (Z.to_nat n - G)%nat as [|fuel] eqn:Ef; [lia|].
  cbn [Scalar.loop]. destruct (Z.ltb_spec (Z.of_nat G) n); [|lia].
  rewrite (load_at0 good (bad :: rest) _ _ bad eq_refl eq_refl).
  cbn [bind fst snd]. rewrite B. reflexivity.
Qed.

(** A scalar call on a buffer that holds fewer than [n] elements. *)
Lemma scalar_call_overrun n outs xs :
  0 < n -> Z.rem n UFXR_QUANTUM = 0 ->
  Z.of_nat (length xs) < n \/ Z.of_nat (length outs) < n ->
  Scalar.ufxr_sin1_2 n outs xs = OutOfBounds \/
  (Scalar.ufxr_sin1_2 n outs xs = Undefined /\ exists x, In x xs /\ Scalar.elem x = None).
Proof.
  intros H0 Hr Hs.
  set (L := Nat.min (length xs) (length outs)).
  destruct (all_elems (firstn L xs)) as [ys|] eqn:A.
  - unfold Scalar.ufxr_sin1_2. rewrite assert_passes by trivial. cbn [bind].
    pose proof (scalar_loop_steps (firstn L xs) ys [] (skipn L xs) [] (firstn L outs) (skipn L outs)
                  [] (Z.to_nat n - L) n A) as E.
    rewrite !length_firstn in E.
    specialize (E ltac:(lia) eq_refl ltac:(cbn [length]; lia)).
    cbn [app length Nat.add Z.of_nat] in E. rewrite !firstn_skipn in E.
    replace (Nat.min L (length xs)) with L in E by lia.
    replace (L + (Z.to_nat n - L))%nat with (Z.to_nat n) in E by lia.
    rewrite E.
    destruct (Z.to_nat n - L)%nat as [|fuel] eqn:Ef; [lia|].
    cbn [Scalar.loop]. destruct (Z.ltb_spec (Z.of_nat L) n); [|lia].
    match goal with |- context [load xs _ ?s] =>
      destruct (load_cases xs (Z.of_nat L) s) as [[-> _]|(v & Ev)]; [now left|] end.
    assert (Hv : In v xs).
    { unfold load in Ev. destruct (Z.of_nat L <? 0); [discriminate|].
      destruct (nth_error xs (Z.to_nat (Z.of_nat L))) as [w|] eqn:Ew; [|discriminate].
      injection Ev as <-. eapply nth_error_In; eauto. }
    assert (Lx : (L < length xs)%nat).
    { unfold load in Ev. destruct (Z.of_nat L <? 0); [discriminate|].
      destruct (nth_error xs (Z.to_nat (Z.of_nat L))) as [w|] eqn:Ew; [|discriminate].
      assert (nth_error xs (Z.to_nat (Z.of_nat L)) <> None) as NN by congruence.
      apply nth_error_Some in NN. lia. }
    rewrite Ev. cbn [bind fst snd].
    destruct (Scalar.elem v) as [y|] eqn:Ey.
    + left. rewrite store_overrun; [reflexivity|].
      cbn [ks_outs]. rewrite length_app, length_skipn.
      rewrite (all_elems_length _ _ A), length_firstn. lia.
    + right. split; [reflexivity|]. eauto.
  - destruct (all_elems_none _ A) as (good & ys & bad & rest & E & G & B).
    assert (Lg : (length good < L)%nat).
    { apply (f_equal (@length float)) in E.
      rewrite length_firstn, length_app in E. cbn [length] in E. lia. }
    right. split.
    + rewrite <- (firstn_skipn L xs), E, <- app_assoc. cbn [app].
      apply (scalar_call_undefined n outs good ys bad); trivial; lia.
    + exists bad. split; trivial.
      rewrite <- (firstn_skipn L xs), E. apply in_or_app. left.
      apply in_or_app. right. now left.
Qed.

(** ** The order of the loads and stores *)

Lemma call_nonpositive n outs xs : n <= 0 -> Z.rem n UFXR_QUANTUM = 0 ->
  Sse2.ufxr_sin1_2 n outs xs = Done (KState outs []) /\
  Scalar.ufxr_sin1_2 n outs xs = Done (KState outs []).
Proof.
  intros H Hr. unfold Sse2.ufxr_sin1_2, Scalar.ufxr_sin1_2.
  rewrite assert_passes by trivial. cbn [bind].
  rewrite sse_loop_stop, scalar_loop_stop by lia. auto.
Qed.

Lemma loads_app a b : loads (a ++ b) = loads a ++ loads b.
Proof. apply flat_map_app. Qed.

Lemma stores_app a b : stores (a ++ b) = stores a ++ stores b.
Proof. apply flat_map_app. Qed.

Lemma sse_events_indices k : forall a xs, length xs = (4 * k)%nat ->
  loads (sse_events (Z.of_nat a) xs) = map Z.of_nat (seq a (4 * k)) /\
  stores (sse_events (Z.of_nat a) xs) = map Z.of_nat (seq a (4 * k)).
Proof.
  induction k as [|k IH]; intros a xs L.
  - destruct xs; [|discriminate]. split; reflexivity.
  - destruct xs as [|x0 [|x1 [|x2 [|x3 xs]]]]; try (cbn in L; lia).
    destruct (IH (a + 4)%nat xs ltac:(cbn in L; lia)) as [I1 I2].
    replace (4 * S k)%nat with (S (S (S (S (4 * k))))) by lia.
    cbn [sse_events]. rewrite loads_app, stores_app.
    replace (Z.of_nat a + 4) with (Z.of_nat (a + 4)) by lia.
    rewrite I1, I2. cbn [loads stores flat_map app seq map].
    replace (S (S (S (S a)))) with (a + 4)%nat by lia.
    replace (Z.of_nat a + 1) with (Z.of_nat (S a)) by lia.
    replace (Z.of_nat a + 2) with (Z.of_nat (S (S a))) by lia.
    replace (Z.of_nat a + 3) with (Z.of_nat (S (S (S a)))) by lia.
    split; reflexivity.
Qed.

Lemma scalar_events_indices ys : forall a,
  loads (scalar_events (Z.of_nat a) ys) = map Z.of_nat (seq a (length ys)) /\
  stores (scalar_events (Z.of_nat a) ys) = map Z.of_nat (seq a (length ys)).
Proof.
  induction ys as [|y ys IH]; intros a; [split; reflexivity|].
  destruct (IH (S a)) as [I1 I2].
  cbn [scalar_events length seq map].
  replace (Z.of_nat a + 1) with (Z.of_nat (S a)) by lia.
  change (loads (EvLoad (Z.of_nat a) :: EvStore (Z.of_nat a) y :: scalar_events (Z.of_nat (S a)) ys))
    with (Z.of_nat a :: loads (scalar_events (Z.of_nat (S a)) ys)).
  change (stores (EvLoad (Z.of_nat a) :: EvStore (Z.of_nat a) y :: scalar_events (Z.of_nat (S a)) ys))
    with (Z.of_nat a :: stores (scalar_events (Z.of_nat (S a)) ys)).
  rewrite I1, I2. split; reflexivity.
Qed.

Lemma indices_nodup a n : NoDup (map Z.of_nat (seq a n)).
Proof.
  apply NoDup_map_NoDup_ForallPairs; [|apply seq_NoDup].
  intros x y _ _ H. lia.
Qed.

Lemma nodup_app_disjoint (l1 l2 : list Z) i : NoDup (l1 ++ l2) -> In i l1 -> ~ In i l2.
Proof.
  induction l1 as [|h t IH]; cbn [app]; intros N H; [contradiction|].
  inversion N as [|? ? N1 N2]; subst. destruct H as [->|H]; [|auto].
  intros H2. apply N1. apply in_or_app. now right.
Qed.

(** What the scan guarantees. *)
Lemma stores_after_loads_sound tr : forall seen pre post i v,
  stores_after_loads seen tr = true -> tr = pre ++ EvStore i v :: post ->
  In i seen \/ In i (loads pre).
Proof.
  induction tr as [|e tr IH]; intros seen pre post i v S E.
  - destruct pre; discriminate.
  - destruct pre as [|e' pre]; cbn [app] in E; injection E as -> E.
    + cbn [stores_after_loads] in S. apply andb_prop in S. destruct S as [S _].
      apply existsb_exists in S. destruct S as (j & Hj & Ej).
      apply Z.eqb_eq in Ej. subst j. now left.
    + destruct e' as [j|j w]; cbn [stores_after_loads] in S.
      * destruct (IH _ _ _ _ _ S E) as [[->|H]|H].
        -- right. now left.
        -- now left.
        -- right. change (loads (EvLoad j :: pre)) with (j :: loads pre). now right.
      * apply andb_prop in S. destruct S as [_ S].
        destruct (IH _ _ _ _ _ S E) as [H|H]; [now left | now right].
Qed.

Lemma sse_events_scan k : forall i xs seen, length xs = (4 * k)%nat ->
  stores_after_loads seen (sse_events i xs) = true.
Proof.
  induction k as [|k IH]; intros i xs seen L.
  - destruct xs; [reflexivity | discriminate].
  - destruct xs as [|x0 [|x1 [|x2 [|x3 xs]]]]; try (cbn in L; lia).
    cbn [sse_events app stores_after_loads existsb].
    rewrite !Z.eqb_refl, !orb_true_r. cbn [orb andb].
    apply IH. cbn in L. lia.
Qed.

Lemma scalar_events_scan ys : forall i seen,
  stores_after_loads seen (scalar_events i ys) = true.
Proof.
  induction ys as [|y ys IH]; intros i seen; [reflexivity|].
  cbn [scalar_events stores_after_loads existsb]. rewrite Z.eqb_refl. cbn [orb andb].
  apply IH.
Qed.

(** The trace of every call that finishes. *)
Lemma sse_done_trace n outs xs st :
  Sse2.ufxr_sin1_2 n outs xs = Done st ->
  Z.rem n UFXR_QUANTUM = 0 /\
  exists k l, ks_trace st = sse_events 0 l /\ length l = (4 * k)%nat /\
              (4 * k)%nat = Z.to_nat n.
Proof.
  intros D.
  assert (Hr : Z.rem n UFXR_QUANTUM = 0).
  { destruct (Z.eqb_spec (Z.rem n UFXR_QUANTUM) 0) as [E|E]; trivial.
    unfold Sse2.ufxr_sin1_2 in D. apply Z.eqb_neq in E. rewrite E in D. discriminate. }
  split; trivial.
  destruct (Z_le_gt_dec n 0) as [H0|H0].
  - destruct (call_nonpositive n outs xs H0 Hr) as [E _]. rewrite E in D.
    injection D as <-. exists 0%nat, []. repeat split. lia.
  - destruct (Z_lt_le_dec (Z.of_nat (length xs)) n) as [Sx|Sx];
      [rewrite sse_call_overrun in D by (trivial; lia); discriminate|].
    destruct (Z_lt_le_dec (Z.of_nat (length outs)) n) as [So|So];
      [rewrite sse_call_overrun in D by (trivial; lia); discriminate|].
    rewrite sse_call_done in D by (trivial; lia). injection D as <-.
    destruct (quantum_rounds n ltac:(lia) Hr) as [k Hk].
    exists k, (firstn (Z.to_nat n) xs). cbn [ks_trace].
    rewrite length_firstn. repeat split; lia.
Qed.

Lemma scalar_done_trace n outs xs st :
  Scalar.ufxr_sin1_2 n outs xs = Done st ->
  Z.rem n UFXR_QUANTUM = 0 /\
  exists ys, ks_trace st = scalar_events 0 ys /\ length ys = Z.to_nat n.
Proof.
  intros D.
  assert (Hr : Z.rem n UFXR_QUANTUM = 0).
  { destruct (Z.eqb_spec (Z.rem n UFXR_QUANTUM) 0) as [E|E]; trivial.
    unfold Scalar.ufxr_sin1_2 in D. apply Z.eqb_neq in E. rewrite E in D. discriminate. }
  split; trivial.
  destruct (Z_le_gt_dec n 0) as [H0|H0].
  - destruct (call_nonpositive n outs xs H0 Hr) as [_ E]. rewrite E in D.
    injection D as <-. exists []. split; [reflexivity | cbn; lia].
  - destruct (Z_lt_le_dec (Z.of_nat (length xs)) n) as [Sx|Sx].
    { destruct (scalar_call_overrun n outs xs ltac:(lia) Hr ltac:(lia)) as [E|[E _]];
        rewrite E in D; discriminate. }
    destruct (Z_lt_le_dec (Z.of_nat (length outs)) n) as [So|So].
    { destruct (scalar_call_overrun n outs xs ltac:(lia) Hr ltac:(lia)) as [E|[E _]];
        rewrite E in D; discriminate. }
    destruct (all_elems (firstn (Z.to_nat n) xs)) as [ys|] eqn:A.
    + rewrite (scalar_call_done n outs xs ys) in D by (trivial; lia). injection D as <-.
      exists ys. split; [reflexivity|].
      rewrite (all_elems_length _ _ A), length_firstn. lia.
    + destruct (all_elems_none _ A) as (good & ys & bad & rest & E & G & B).
      assert (Lg : (length good < Z.to_nat n)%nat).
      { apply (f_equal (@length float)) in E.
        rewrite length_firstn, length_app in E. cbn [length] in E. lia. }
      rewrite <- (firstn_skipn (Z.to_nat n) xs), E, <- app_assoc in D. cbn [app] in D.
      rewrite (scalar_call_undefined n outs good ys bad) in D by (trivial; lia).
      discriminate.
Qed.

(** ** The shape of the output *)

(** Strictly inside a half period the product does not underflow. *)
Lemma shapeZ_pos a : 0 < a < 2 ^ 148 -> 4 <= shapeZ a.
Proof.
  intros [H0 H]. unfold shapeZ. rewrite (Z.abs_eq a) by lia.
  change (2 ^ 152) with (16 * 2 ^ 148).
  set (v := 16 * 2 ^ 148 - 16 * a).
  assert (V : 2 ^ 4 <= v) by (unfold v; change (2 ^ 4) with 16; lia).
  rewrite (rndZ_pos 0 v) by lia.
  assert (T : 2 ^ 151 <= a * rnd 0 v).
  { destruct (Z_le_gt_dec a (2 ^ 147)) as [L|G].
    - pose proof (rnd_ge_pow 0 v 151 ltac:(lia)
                    ltac:(unfold v; change (2 ^ 151) with (8 * 2 ^ 148);
                          change (2 ^ 148) with (2 * 2 ^ 147) in *; lia)) as R.
      change (2 ^ (151 - 0)) with (2 ^ 151) in R.
      assert (0 < 2 ^ 151) by lia. nia.
    - pose proof (rnd_ge_pow 0 v 4 ltac:(lia) V) as R.
      change (2 ^ (4 - 0)) with 16 in R.
      change (2 ^ 151) with (2 ^ 147 * 16). nia. }
  assert (0 < 2 ^ 151) by lia.
  rewrite rndZ_pos by lia.
  pose proof (rnd_ge_pow 149 _ 151 ltac:(lia) T) as R.
  exact R.
Qed.

Lemma shapeZ_sgn p : 2 * Z.abs p <= 2 ^ 149 ->
  Z.sgn (shapeZ p) = if Z.abs p =? 2 ^ 148 then 0 else Z.sgn p.
Proof.
  intros H. change (2 ^ 149) with (2 * 2 ^ 148) in H.
  destruct (Z.eqb_spec (Z.abs p) (2 ^ 148)) as [E|E].
  - now rewrite shapeZ_at_half.
  - destruct (Z.lt_trichotomy p 0) as [N|[->|P]].
    + pose proof (shapeZ_pos (- p) ltac:(lia)) as S. rewrite shapeZ_opp in S. lia.
    + rewrite shapeZ_0. reflexivity.
    + pose proof (shapeZ_pos p ltac:(lia)) as S. lia.
Qed.

(** The nearest integer of a value less than a half away from [k]. *)
Lemma rint_near v k : 2 * Z.abs (v - k * 2 ^ 149) < 2 ^ 149 -> rint v = k.
Proof.
  intros H. pose proof (rint_error v) as E.
  assert (0 < 2 ^ 149) by lia.
  assert (Z.abs ((rint v - k) * 2 ^ 149) < 2 ^ 149) by lia.
  nia.
Qed.

Lemma phaseV_near v k : 2 * Z.abs (v - k * 2 ^ 149) < 2 ^ 149 -> phaseV v = v - k * 2 ^ 149.
Proof. intros H. unfold phaseV. now rewrite (rint_near v k). Qed.

Lemma phaseV_bound v : 2 * Z.abs (phaseV v) <= 2 ^ 149.
Proof. apply rint_error. Qed.

Lemma phaseV_cong v : (2 ^ 149 | v - phaseV v).
Proof. unfold phaseV. exists (rint v). ring. Qed.

(** The output is zero exactly on the multiples of one half. *)
Lemma shapeZ_phase_zero v : shapeZ (phaseV v) = 0 <-> (2 ^ 148 | v).
Proof.
  pose proof (phaseV_bound v) as B. pose proof (phaseV_cong v) as [c C].
  pose proof (shapeZ_sgn _ B) as S.
  change (2 ^ 149) with (2 * 2 ^ 148) in *.
  split.
  - intros Z. rewrite Z in S. cbn [Z.sgn] in S.
    destruct (Z.eqb_spec (Z.abs (phaseV v)) (2 ^ 148)) as [E|E].
    + destruct (Z.abs_spec (phaseV v)) as [[_ A]|[_ A]]; rewrite A in E.
      * exists (2 * c + 1). lia.
      * exists (2 * c - 1). lia.
    + exists (2 * c). destruct (phaseV v); try discriminate. lia.
  - intros [d D].
    assert (P : phaseV v = (d - 2 * c) * 2 ^ 148) by lia.
    assert (0 < 2 ^ 148) by lia.
    assert (d - 2 * c = 0 \/ d - 2 * c = 1 \/ d - 2 * c = -1) as [Q|[Q|Q]] by nia;
      rewrite Q in P.
    + rewrite P. apply shapeZ_0.
    + apply shapeZ_at_half. rewrite P. lia.
    + apply shapeZ_at_half. rewrite P. lia.
Qed.

(** ** Small inputs *)

(** Up to half an ulp below 8 the subtraction [8 - 16 * |x|] gives 8. *)
Lemma rnd_to_8 d : 0 <= d <= 2 ^ 127 -> rnd 0 (2 ^ 152 - d) = 2 ^ 152.
Proof.
  intros [H0 H]. destruct (Z.eq_dec d 0) as [->|NZ].
  - rewrite Z.sub_0_r. apply (rnd_exact 0 1 152); lia.
  - set (v := 2 ^ 152 - d).
    assert (V : 2 ^ 151 <= v < 2 ^ 152)
      by (unfold v; change (2 ^ 152) with (2 ^ 25 * 2 ^ 127);
          change (2 ^ 151) with (2 ^ 24 * 2 ^ 127); lia).
    assert (D : Zdigits2 v = 152)
      by (apply digits_unique; [lia | exact V]).
    unfold rnd. rewrite D. change (Z.max (152 - 24) 0) with 128.
    change (2 ^ (128 - 0)) with (2 ^ 128).
    assert (Q : v / 2 ^ 128 = 2 ^ 24 - 1).
    { symmetry. apply (Z.div_unique _ _ _ (2 ^ 128 - d)).
      - change (2 ^ 128) with (2 * 2 ^ 127). lia.
      - unfold v. change (2 ^ 152) with (2 ^ 128 * 2 ^ 24). lia. }
    assert (M : v mod 2 ^ 128 = 2 ^ 128 - d).
    { symmetry. apply (Z.mod_unique _ _ (2 ^ 24 - 1)).
      - change (2 ^ 128) with (2 * 2 ^ 127). lia.
      - unfold v. change (2 ^ 152) with (2 ^ 128 * 2 ^ 24). lia. }
    unfold rne_div. cbv zeta. rewrite Q, M.
    change (2 ^ 152) with ((2 ^ 24 - 1 + 1) * 2 ^ 128).
    change (2 ^ 128) with (2 * 2 ^ 127) at 1 2.
    destruct (Z.compare_spec (2 * (2 * 2 ^ 127 - d)) (2 * 2 ^ 127)) as [E|E|E];
      [reflexivity | lia | reflexivity].
Qed.

(** There the product is the input times 8, without rounding. *)
Lemma shapeZ_small p : repr p -> Z.abs p <= 2 ^ 123 -> shapeZ p = 8 * p.
Proof.
  intros R H. unfold shapeZ.
  rewrite (rndZ_pos 0 (2 ^ 152 - 16 * Z.abs p))
    by (change (2 ^ 152) with (2 ^ 29 * 2 ^ 123); lia).
  rewrite rnd_to_8 by (change (2 ^ 127) with (16 * 2 ^ 123); lia).
  destruct R as (c & j & -> & Hc & Hj).
  replace (c * 2 ^ j * 2 ^ 152) with (c * 2 ^ (j + 152))
    by (rewrite (pow_split j 152) by lia; ring).
  rewrite rndZ_exact by lia.
  replace (j + 152 - 149) with (j + 3) by lia.
  rewrite (pow_split j 3) by lia. change (2 ^ 3) with 8. ring.
Qed.

(** ** The distance to the exact parabola *)

Lemma rnd_149_error v : 0 <= v < 2 ^ 298 -> Z.abs (rnd 149 v * 2 ^ 149 - v) <= 2 ^ 273.
Proof.
  intros [H0 H]. pose proof (rnd_error 149 v ltac:(lia) H0) as E.
  assert (M : 2 ^ Z.max (Zdigits2 v - 24) 149 <= 2 ^ 274).
  { apply Z.pow_le_mono_r; [lia|].
    destruct (Z.eq_dec v 0) as [->|NZ]; [cbn; lia|].
    pose proof (digits_le v 298 ltac:(lia) ltac:(lia) H). lia. }
  change (2 ^ 274) with (2 * 2 ^ 273) in M. lia.
Qed.

Lemma shapeZ_error_nonneg a : repr a -> 0 <= a -> 2 * a <= 2 ^ 149 ->
  Z.abs (shapeZ a * 2 ^ 149 - a * (2 ^ 152 - 16 * a)) < 3 * 2 ^ 273.
Proof.
  intros R H0 H. unfold shapeZ. rewrite (Z.abs_eq a) by lia.
  set (t := rndZ 0 (2 ^ 152 - 16 * a)).
  assert (T0 : 0 <= t).
  { unfold t. rewrite rndZ_pos by (change (2 ^ 152) with (8 * 2 ^ 149); lia).
    apply rnd_nonneg; [lia | change (2 ^ 152) with (8 * 2 ^ 149); lia]. }
  assert (AT : 0 <= a * t) by nia.
  rewrite rndZ_pos by lia.
  assert (SQ : a * (2 ^ 152 - 16 * a) <= 2 ^ 298).
  { pose proof (Z.square_nonneg (a - 2 ^ 147)).
    change (2 ^ 152) with (32 * 2 ^ 147). change (2 ^ 298) with (16 * (2 ^ 147 * 2 ^ 147)).
    nia. }
  assert (P273 : 0 < 2 ^ 273) by lia.
  destruct (Z_le_gt_dec (2 ^ 147) a) as [L|G].
  - (* the subtraction is exact *)
    assert (E : t = 2 ^ 152 - 16 * a).
    { unfold t. apply rndZ_repr.
      replace (2 ^ 152 - 16 * a) with ((2 ^ 148 - a) * 2 ^ 4)
        by (change (2 ^ 152) with (2 ^ 148 * 2 ^ 4); change (2 ^ 4) with 16; lia).
      apply repr_shift; [lia|].
      apply (repr_intro _ 124); [lia| |change (2 ^ (24 + 124)) with (2 ^ 148); change (2 ^ 149) with (2 * 2 ^ 148) in H; lia].
      apply Z.divide_sub_r. apply divide_pow2; lia.
      apply (repr_divide a 147); trivial; lia. }
    rewrite E in *.
    destruct (Z.eq_dec (a * (2 ^ 152 - 16 * a)) (2 ^ 298)) as [Q|Q].
    + rewrite Q. pose proof (rnd_exact 149 1 298 ltac:(lia) ltac:(lia)) as X.
      rewrite !Z.mul_1_l in X. rewrite X.
      change (2 ^ (298 - 149) * 2 ^ 149 - 2 ^ 298) with 0. cbn [Z.abs]. lia.
    + pose proof (rnd_149_error (a * (2 ^ 152 - 16 * a)) ltac:(lia)). lia.
  - destruct (Z.eq_dec a 0) as [->|NZ].
    { change (0 * t) with 0. rewrite (rnd_0 149) by lia. cbn. lia. }
    assert (E : 2 * Z.abs (t - (2 ^ 152 - 16 * a)) <= 2 ^ 128).
    { unfold t. rewrite rndZ_pos by (change (2 ^ 152) with (32 * 2 ^ 147); lia).
      pose proof (rnd_error 0 (2 ^ 152 - 16 * a) ltac:(lia)
                    ltac:(change (2 ^ 152) with (32 * 2 ^ 147); lia)) as RE.
      rewrite Z.pow_0_r, Z.mul_1_r in RE.
      replace (Zdigits2 (2 ^ 152 - 16 * a)) with 152 in RE. exact RE.
      symmetry. apply digits_unique.
      change (2 ^ 152) with (32 * 2 ^ 147); lia.
      change (2 ^ (152 - 1)) with (16 * 2 ^ 147). change (2 ^ 152) with (32 * 2 ^ 147). lia. }
    change (2 ^ 128) with (2 * 2 ^ 127) in E.
    set (x := 2 ^ 152 - 16 * a) in *.
    assert (D : Z.abs (a * t - a * x) < 2 ^ 274).
    { replace (a * t - a * x) with (a * (t - x)) by ring.
      rewrite Z.abs_mul, (Z.abs_eq a) by lia.
      change (2 ^ 274) with (2 ^ 147 * 2 ^ 127).
      assert (a * Z.abs (t - x) <= a * 2 ^ 127) by (apply Z.mul_le_mono_nonneg_l; lia).
      assert (a * 2 ^ 127 < 2 ^ 147 * 2 ^ 127) by (apply Z.mul_lt_mono_pos_r; lia).
      lia. }
    change (2 ^ 274) with (2 * 2 ^ 273) in D.
    destruct (Z_lt_le_dec (a * t) (2 ^ 298)) as [Lt|Ge].
    + pose proof (rnd_149_error (a * t) ltac:(lia)). lia.
    + assert (U : rnd 149 (a * t) = 2 ^ 149).
      { apply Z.le_antisymm.
        - apply rnd_149_bound. change (2 ^ 274) with (2 * 2 ^ 273). lia.
        - apply (rnd_ge_pow 149 _ 298); lia. }
      rewrite U. change (2 ^ 149 * 2 ^ 149) with (2 ^ 298). lia.
Qed.

Lemma shapeZ_error p : repr p -> 2 * Z.abs p <= 2 ^ 149 ->
  Z.abs (shapeZ p * 2 ^ 149 - p * (2 ^ 152 - 16 * Z.abs p)) < 3 * 2 ^ 273.
Proof.
  intros R H. destruct (Z.abs_spec p) as [[P E]|[P E]]; rewrite E in *.
  - now apply shapeZ_error_nonneg.
  - pose proof (shapeZ_error_nonneg (- p) (repr_opp _ R) ltac:(lia) H) as B.
    rewrite shapeZ_opp in B.
    replace (shapeZ p * 2 ^ 149 - p * (2 ^ 152 - 16 * - p))
      with (- (- shapeZ p * 2 ^ 149 - - p * (2 ^ 152 - 16 * - p))) by ring.
    now rewrite Z.abs_opp.
Qed.

(** ** Reflection about a quarter *)

Lemma shapeZ_mirror v : repr v -> repr (2 ^ 148 - v) ->
  shapeZ (phaseV (2 ^ 148 - v)) = shapeZ (phaseV v).
Proof.
  intros R R'.
  destruct (rint_spec v R) as (_ & P1 & P2).
  destruct (rint_spec _ R') as (_ & Q1 & Q2).
  fold (phaseV v) in P1, P2. fold (phaseV (2 ^ 148 - v)) in Q1, Q2.
  pose proof (phaseV_cong v) as [c C]. pose proof (phaseV_cong (2 ^ 148 - v)) as [c' C'].
  set (p := phaseV v) in *. set (p' := phaseV (2 ^ 148 - v)) in *.
  change (2 ^ 149) with (2 * 2 ^ 148) in *.
  assert (S : p + p' = (1 - 2 * (c + c')) * 2 ^ 148) by lia.
  assert (0 < 2 ^ 148) by lia.
  assert (1 - 2 * (c + c') = 1 \/ 1 - 2 * (c + c') = -1) as [E|E] by nia;
    rewrite E in S; symmetry.
  - apply shapeZ_complement; trivial; [nia | lia].
  - apply shapeZ_complement; trivial; [nia | lia].
Qed.

(** ** Outside the range of the conversion *)

(** Multiplication with its overflow. *)
Lemma fmul_gen a b :
  is_f32 a -> is_f32 b -> is_finite a = true -> is_finite b = true ->
  (exists s, fmul a b = S754_infinity s) \/
  (is_f32 (fmul a b) /\ is_finite (fmul a b) = true /\
   quanta (fmul a b) = rndZ 149 (quanta a * quanta b)).
Proof.
  intros Va Vb Fa Fb.
  destruct a as [sa|sa| |sa ma ea]; try discriminate;
  destruct b as [sb|sb| |sb mb eb]; try discriminate;
  try (right; unfold fmul; cbn [SFmul quanta];
       rewrite ?Z.mul_0_l, ?Z.mul_0_r; repeat split; fail).
  pose proof (f32_finite_inv _ _ _ Va) as (Ea & Ma & Na).
  pose proof (f32_finite_inv _ _ _ Vb) as (Eb & Mb & Nb).
  unfold fmul. cbn [SFmul].
  set (m := Zpos (ma * mb)). set (e := ea + eb).
  assert (Hm : m = Zpos ma * Zpos mb) by reflexivity.
  assert (V : Z.abs (quanta (S754_finite sa ma ea) * quanta (S754_finite sb mb eb))
              = m * 2 ^ (e + 298)).
  { rewrite Z.abs_mul, !quanta_finite_abs by lia.
    replace (e + 298) with ((ea + 149) + (eb + 149)) by (unfold e; lia).
    rewrite (pow_split (ea + 149) (eb + 149)) by lia. rewrite Hm. ring. }
  pose proof (pow2_pos (e + 298) ltac:(unfold e; lia)) as P.
  assert (Hk : 0 <= Z.max (Zdigits2 m - 24) (-149 - e)).
  { destruct (Z.eq_dec ea (-149)); destruct (Z.eq_dec eb (-149)); try (unfold e; lia);
    assert (23 < Zdigits2 m) by (apply digits_ge; [lia|]; change (2 ^ 23) with 8388608 in *; nia); lia. }
  pose proof (bra_gen (xorb sa sb) m e ltac:(lia)) as B.
  rewrite fexp_eq in B.
  replace (Z.max (Zdigits2 m + e - 24) (-149) - e) with (Z.max (Zdigits2 m - 24) (-149 - e)) in B by lia.
  specialize (B Hk). cbv zeta in B. destruct B as [[B _]|(B1 & B2 & B3 & B4)].
  { left. eexists. exact B. }
  right. repeat split; trivial.
  rewrite B4. unfold rndZ. rewrite V.
  assert (S : Z.sgn (quanta (S754_finite sa ma ea) * quanta (S754_finite sb mb eb))
              = cond_Zopp (xorb sa sb) 1).
  { rewrite Z.sgn_mul. cbn [quanta].
    rewrite !cond_Zopp_sgn by (apply Z.mul_pos_pos; try lia; apply pow2_pos; lia).
    now destruct sa, sb. }
  rewrite S.
  replace (rnd 149 (m * 2 ^ (e + 298))) with
          (rne_div m (Z.max (Zdigits2 m - 24) (-149 - e)) *
           2 ^ (e + Z.max (Zdigits2 m - 24) (-149 - e) + 149)).
  { destruct (xorb sa sb); cbn [cond_Zopp]; lia. }
  unfold rnd. rewrite digits_shift by lia.
  replace (Z.max (Zdigits2 m + (e + 298) - 24) 149)
     with (Z.max (Zdigits2 m - 24) (-149 - e) + (e + 298)) by lia.
  rewrite rne_div_scale by lia. f_equal. f_equal. lia.
Qed.

Lemma rndZ_abs_ge s v j : 0 <= s <= j -> 2 ^ j <= Z.abs v -> 2 ^ (j - s) <= Z.abs (rndZ s v).
Proof.
  intros Hs H. destruct (Z.abs_spec v) as [[P E]|[P E]]; rewrite E in H.
  - pose proof (rndZ_ge s v j Hs H). pose proof (pow2_pos (j - s) ltac:(lia)). lia.
  - pose proof (rndZ_le s v j Hs ltac:(lia)). pose proof (pow2_pos (j - s) ltac:(lia)). lia.
Qed.

(** A product with an infinity is not a finite number. *)
Lemma fmul_infinity p s : is_finite (fmul p (S754_infinity s)) = false.
Proof. destruct p; reflexivity. Qed.

Lemma fsub_infinity a s : is_finite a = true -> fsub a (S754_infinity s) = S754_infinity (negb s).
Proof. destruct a; try discriminate; reflexivity. Qed.

(** On a value of magnitude 256 or more the product is not a number of
    magnitude at most 1. *)
Lemma quad_large p :
  is_f32 p -> is_finite p = true -> 2 ^ 157 <= Z.abs (quanta p) ->
  is_finite (quad p) = false \/ 2 ^ 149 < Z.abs (quanta (quad p)).
Proof.
  intros V F B. unfold quad.
  pose proof (is_f32_abs p V) as Va.
  assert (Fa : is_finite (fabs p) = true) by now rewrite is_finite_abs.
  destruct (fmul_gen f16 (fabs p) eq_refl Va eq_refl Fa) as [[s ->]|(A1 & A2 & A3)].
  { rewrite fsub_infinity by reflexivity. left. apply fmul_infinity. }
  change (quanta f16) with (2 ^ 153) in A3. rewrite quanta_abs in A3.
  assert (M : 2 ^ 161 <= quanta (fmul f16 (fabs p))).
  { rewrite A3. apply (rndZ_ge 149 _ 310); [lia|].
    change (2 ^ 310) with (2 ^ 153 * 2 ^ 157). apply Z.mul_le_mono_nonneg_l; lia. }
  destruct (fsub_gen f8 (fmul f16 (fabs p)) eq_refl A1 eq_refl A2) as [[s [-> _]]|(T1 & T2 & T3)].
  { left. apply fmul_infinity. }
  change (quanta f8) with (2 ^ 152) in T3.
  assert (T : quanta (fsub f8 (fmul f16 (fabs p))) <= - 2 ^ 160).
  { rewrite T3. apply (rndZ_le 0 _ 160); [lia|].
    change (2 ^ 161) with (2 * 2 ^ 160) in M. change (2 ^ 152) with (2 ^ 152) in *.
    assert (2 ^ 152 < 2 ^ 160) by (apply Z.pow_lt_mono_r; lia). lia. }
  destruct (fmul_gen p _ V T1 F T2) as [[s ->]|(O1 & O2 & O3)]; [now left|].
  right. rewrite O3.
  assert (2 ^ 168 <= Z.abs (rndZ 149 (quanta p * quanta (fsub f8 (fmul f16 (fabs p)))))).
  { apply (rndZ_abs_ge 149 _ 317); [lia|]. rewrite Z.abs_mul.
    change (2 ^ 317) with (2 ^ 157 * 2 ^ 160).
    apply Z.mul_le_mono_nonneg; lia. }
  assert (2 ^ 149 < 2 ^ 168) by (apply Z.pow_lt_mono_r; lia). lia.
Qed.

(** Out of range the SSE2 conversion yields [0x80000000], and the branch
    subtracts [-2^31]. *)
Lemma sse_phase_outside x : is_f32 x -> ~ in_range x ->
  Sse2.cvtps_epi32 x = Sse2.int_indefinite /\
  Sse2.phase x = fsub x (fopp f2p31).
Proof.
  intros V O.
  assert (C : Sse2.cvtps_epi32 x = Sse2.int_indefinite).
  { destruct x as [s|s| |s m e]; try reflexivity.
    - exfalso. apply O. repeat split; trivial; cbn; lia.
    - pose proof (f32_finite_inv _ _ _ V) as (He & _).
      set (x := S754_finite s m e) in *.
      pose proof (repr_quanta x V) as R.
      assert (O' : ~ (- 2 ^ 180 <= quanta x < 2 ^ 180)).
      { intros B. apply O. repeat split; trivial; lia. }
      assert (D : (2 ^ (180 - 23) | quanta x)) by (apply repr_divide; trivial; lia).
      destruct D as [c Hc]. change (2 ^ (180 - 23)) with (2 ^ 8 * 2 ^ 149) in Hc.
      assert (RI : rint (quanta x) = c * 2 ^ 8) by (rewrite Hc, Z.mul_assoc; apply rint_mul).
      assert (NI : in_int32 (rint (quanta x)) = false).
      { destruct (in_int32 (rint (quanta x))) eqn:E; trivial.
        apply in_int32_iff in E. exfalso. apply O'.
        rewrite Hc. rewrite RI in E. change (2 ^ 180) with (2 ^ 31 * 2 ^ 149). lia. }
      unfold x, Sse2.cvtps_epi32. rewrite nearest_code by lia.
      fold x. rewrite NI. reflexivity. }
  split; trivial. unfold Sse2.phase. rewrite C. reflexivity.
Qed.

(** There the output is not a number of magnitude at most 1. *)
Lemma sse_lane_outside x : is_f32 x -> ~ in_range x ->
  is_finite (Sse2.lane x) = false \/ 2 ^ 149 < Z.abs (quanta (Sse2.lane x)).
Proof.
  intros V O. destruct (sse_phase_outside x V O) as [_ P].
  unfold Sse2.lane. rewrite P.
  destruct x as [s|s| |s m e].
  - exfalso. apply O. repeat split; trivial; cbn; lia.
  - left. destruct s; reflexivity.
  - left. reflexivity.
  - set (x := S754_finite s m e) in *.
    pose proof (repr_quanta x V) as R.
    assert (O' : ~ (- 2 ^ 180 <= quanta x < 2 ^ 180)).
    { intros B. apply O. repeat split; trivial; lia. }
    assert (D : (2 ^ (180 - 23) | quanta x)) by (apply repr_divide; trivial; lia).
    destruct D as [c Hc]. change (2 ^ (180 - 23)) with (2 ^ 157) in Hc.
    destruct (fsub_gen x (fopp f2p31) V eq_refl eq_refl eq_refl)
      as [(s' & -> & _)|(Q1 & Q2 & Q3)].
    + left. destruct s'; reflexivity.
    + rewrite sse_shape_quad by trivial. apply quad_large; trivial.
      rewrite Q3. change (quanta (fopp f2p31)) with (- 2 ^ 180).
      apply (rndZ_abs_ge 0 _ 157); [lia|].
      rewrite Hc in *. change (2 ^ 180) with (2 ^ 23 * 2 ^ 157) in *.
      assert (0 < 2 ^ 157) by lia. nia.
Qed.

(** ** The conversions to an integer and back *)

Lemma cvtps_epi32_word x : in_range x ->
  Sse2.cvtps_epi32 x = Sse2.word (rint (quanta x)).
Proof.
  intros (V & F & B). pose proof (rint_range _ (repr_quanta x V) B) as RR.
  destruct x as [s|s| |s m e]; try discriminate.
  - reflexivity.
  - pose proof (f32_finite_inv _ _ _ V) as (He & _).
    unfold Sse2.cvtps_epi32. rewrite nearest_code by lia.
    apply in_int32_iff in RR as RI. now rewrite RI.
Qed.

(** The float of the nearest integer is that integer, and is in range. *)
Lemma nearest_float x : in_range x ->
  in_range (Sse2.cvtepi32_ps (Sse2.cvtps_epi32 x)) /\
  quanta (Sse2.cvtepi32_ps (Sse2.cvtps_epi32 x)) = rint (quanta x) * 2 ^ 149.
Proof.
  intros I. pose proof I as (V & F & B). pose proof (repr_quanta x V) as R.
  pose proof (rint_range _ R B) as RR.
  destruct (rint_spec _ R) as (R1 & _ & _).
  unfold Sse2.cvtepi32_ps. rewrite cvtps_epi32_in by trivial.
  assert (2 ^ 31 < 2 ^ 127) by (apply Z.pow_lt_mono_r; lia).
  destruct (of_Z_quanta (rint (quanta x)) R1 ltac:(lia)) as (A1 & A2 & A3).
  split; [|trivial]. repeat split; trivial; rewrite A3;
    change (2 ^ 180) with (2 ^ 31 * 2 ^ 149); nia.
Qed.

(** The float of the truncation is that integer. *)
Lemma truncated_float x : in_range x ->
  is_f32 (of_Z (tint (quanta x))) /\ is_finite (of_Z (tint (quanta x))) = true /\
  quanta (of_Z (tint (quanta x))) = tint (quanta x) * 2 ^ 149.
Proof.
  intros (V & F & B). pose proof (repr_quanta x V) as R.
  destruct (tint_spec _ R) as (T1 & _).
  pose proof (proj1 (tint_range _ R) B) as TR.
  assert (2 ^ 31 < 2 ^ 127) by (apply Z.pow_lt_mono_r; lia).
  apply of_Z_quanta; trivial. lia.
Qed.

(* ================================================================== *)
(** * The properties of the specification *)

(** Claim C1.  With [n = 4] and the input batch [0.0, 0.25, 0.5, -0.25],
    whatever the output buffer holds before the call, the SSE2 branch and
    the scalar branch both finish and leave exactly [0.0, 1.0, 0.0, -1.0]
    in it (bit for bit, hence within any tolerance). *)
Theorem exemplar_batch (o0 o1 o2 o3 : float) :
  (exists tr, Sse2.ufxr_sin1_2 4 [o0; o1; o2; o3] batch_in
              = Done (KState batch_expected tr)) /\
  (exists tr, Scalar.ufxr_sin1_2 4 [o0; o1; o2; o3] batch_in
              = Done (KState batch_expected tr)) /\
  Forall2 Qeq (map F2Q batch_in) [0; 1 # 4; 1 # 2; - (1 # 4)]%Q /\
  Forall2 Qeq (map F2Q batch_expected) [0; 1; 0; - (1)]%Q.
Proof.
  split; [eexists; reflexivity|]. split; [eexists; reflexivity|].
  split; repeat constructor.
Qed.

(** Claim C2, amended.  For every finite input [x] with
    [-2^31 <= x < 2^31]: the SSE2 branch computes [x - n] exactly, where
    [n], the result of [_mm_cvtps_epi32], is an integer nearest to [x]
    and even when [x] is half way, so the reduced value lies in
    [[-0.5, 0.5]]; the scalar branch computes [x - m] exactly, where [m]
    is [x] truncated toward zero, so that value has the sign of [x] and a
    magnitude below 1, and the two tests that follow bring it into
    [(-0.5, 0.5)] before the multiplication. *)
Theorem phase_reduction (x : float) :
  in_range x ->
  (let n := Sse2.signed (Sse2.cvtps_epi32 x) in
   (F2Q (Sse2.phase x) == F2Q x - inject_Z n)%Q /\
   (Qabs (F2Q (Sse2.phase x)) <= 1 # 2)%Q /\
   ((Qabs (F2Q (Sse2.phase x)) == 1 # 2)%Q -> Z.even n = true)) /\
  (exists m r, Scalar.float_to_int x = Some m /\ Scalar.phase x = Some r /\
               (F2Q r == F2Q x - inject_Z m)%Q /\
               (Qabs (F2Q r) < 1)%Q /\ (Qabs (F2Q r) <= Qabs (F2Q x))%Q /\
               (0 <= F2Q r * F2Q x)%Q /\
               (Qabs (F2Q (Scalar.fold r)) < 1 # 2)%Q /\
               Scalar.elem x = Some (quad (Scalar.fold r))).
Proof.
  intros I. pose proof I as (V & F & B). pose proof (repr_quanta x V) as R.
  split.
  - cbv zeta. rewrite cvtps_epi32_in by trivial.
    destruct (sse_phase_spec x I) as (P1 & P2 & P3).
    destruct (rint_spec _ R) as (_ & _ & R3).
    split; [|split].
    + now apply F2Q_sub_int.
    + apply F2Q_abs_le. rewrite P3. lia.
    + intros T. apply rint_tie_even. unfold phaseV. rewrite <- P3.
      revert T. unfold F2Q, Qabs, Qeq. cbn [Qnum Qden]. rewrite den_F2Q. lia.
  - destruct (scalar_phase_spec x I) as (r & E & S1 & S2 & S3).
    destruct (tint_spec _ R) as (_ & _ & T3 & T4 & T5).
    exists (tint (quanta x)), r.
    split; [apply float_to_int_spec; auto|]. split; [trivial|].
    destruct (fold_spec r S1 S2 ltac:(rewrite S3; lia)) as (F1 & F2 & F3).
    pose proof (foldZ_bound (quanta r) ltac:(rewrite S3; lia)) as FB.
    repeat split.
    + now apply F2Q_sub_int.
    + apply F2Q_abs_lt. rewrite S3. lia.
    + unfold F2Q, Qabs, Qle. cbn [Qnum Qden]. rewrite den_F2Q, S3.
      apply Z.mul_le_mono_nonneg_r; lia.
    + unfold F2Q, Qmult, Qle. cbn [Qnum Qden]. rewrite S3. lia.
    + apply F2Q_abs_lt. rewrite F3. lia.
    + unfold Scalar.elem. rewrite E. reflexivity.
Qed.

(** The amended claim at [x = 0.75]. *)
Lemma phase_reduction_witness :
  in_range f0_75 /\
  (let n := Sse2.signed (Sse2.cvtps_epi32 f0_75) in
   (F2Q (Sse2.phase f0_75) == F2Q f0_75 - inject_Z n)%Q /\
   (Qabs (F2Q (Sse2.phase f0_75)) <= 1 # 2)%Q /\
   ((Qabs (F2Q (Sse2.phase f0_75)) == 1 # 2)%Q -> Z.even n = true)) /\
  (exists m r, Scalar.float_to_int f0_75 = Some m /\ Scalar.phase f0_75 = Some r /\
               (F2Q r == F2Q f0_75 - inject_Z m)%Q /\
               (Qabs (F2Q r) < 1)%Q /\ (Qabs (F2Q r) <= Qabs (F2Q f0_75))%Q /\
               (0 <= F2Q r * F2Q f0_75)%Q /\
               (Qabs (F2Q (Scalar.fold r)) < 1 # 2)%Q /\
               Scalar.elem f0_75 = Some (quad (Scalar.fold r))).
Proof.
  split; [in_range_now | apply (phase_reduction f0_75); in_range_now].
Defined.

(** The claim as stated fails: at 0.75 the scalar branch leaves 0.75,
    outside the interval, where the SSE2 branch gives -0.25; at 1.5 the
    SSE2 branch gives -0.5, which the half-open interval excludes; and at
    0.625 the scalar value after the two tests, -0.125, is not the
    SSE2 branch's -0.375 either; at [2^31] the SSE2 branch leaves
    [2^32]. *)
Lemma scalar_phase_is_truncation :
  Scalar.phase f0_75 = Some f0_75 /\ Sse2.phase f0_75 = fm0_25 /\
  ~ (Qabs (F2Q f0_75) <= 1 # 2)%Q /\
  Sse2.phase f1_5 = fm0_5 /\ ~ (- (1 # 2) < F2Q fm0_5)%Q /\
  Scalar.phase f0_625 = Some f0_625 /\
  Scalar.fold f0_625 = S754_finite true 8388608 (-26) /\
  Sse2.phase f0_625 = S754_finite true 12582912 (-25) /\
  (F2Q (Sse2.phase f2p31) == inject_Z (2 ^ 32))%Q.
Proof.
  repeat split; try reflexivity; vm_compute; intros H; now apply H || discriminate H.
Qed.

(** Claim C3, amended.  For every finite input [x] with
    [-2^31 <= x < 2^31] the scalar branch has an output, and it is the
    float the SSE2 branch computes, or both outputs are zeros (possibly of
    different sign); so the outputs differ by [0 <= 1e-6]. *)
Theorem implementations_agree (x : float) :
  in_range x ->
  exists s, Scalar.elem x = Some s /\
            (Sse2.lane x = s \/ (is_zero (Sse2.lane x) = true /\ is_zero s = true)) /\
            (Qabs (F2Q (Sse2.lane x) - F2Q s) <= 1 # 1000000)%Q.
Proof.
  intros I. destruct (lanes_same x I) as (s & E & Q & S).
  exists s. split; [trivial|]. split; [trivial|].
  apply F2Q_close. auto.
Qed.

(** The amended claim at [x = 0.75]. *)
Lemma implementations_agree_witness :
  in_range f0_75 /\
  exists s, Scalar.elem f0_75 = Some s /\
            (Sse2.lane f0_75 = s \/ (is_zero (Sse2.lane f0_75) = true /\ is_zero s = true)) /\
            (Qabs (F2Q (Sse2.lane f0_75) - F2Q s) <= 1 # 1000000)%Q.
Proof.
  split; [in_range_now | apply (implementations_agree f0_75); in_range_now].
Defined.

(** The claim as stated fails at [x = 2^31]: the scalar branch has no
    output there. *)
Lemma agreement_fails_at_2p31 :
  is_f32 f2p31 /\
  ~ (exists s, Scalar.elem f2p31 = Some s /\
               (Qabs (F2Q (Sse2.lane f2p31) - F2Q s) <= 1 # 1000000)%Q).
Proof.
  split; [reflexivity|]. intros (s & E & _). discriminate E.
Qed.

(** Claim C4, amended.  For finite inputs [x] and [y] in
    [[-2^31, 2^31)] with [y = x + k] exactly, [k] an integer, the outputs
    for [x] and [y] are equal as floating-point values ([==]) in the SSE2
    branch and in the scalar branch. *)
Theorem periodicity_on_exact_shifts (x y : float) (k : Z) :
  in_range x -> in_range y -> (F2Q y == F2Q x + inject_Z k)%Q ->
  feq (Sse2.lane y) (Sse2.lane x) = true /\
  exists sx sy, Scalar.elem x = Some sx /\ Scalar.elem y = Some sy /\
                feq sy sx = true.
Proof.
  intros Ix Iy H. apply F2Q_add_int in H.
  destruct (lanes_quanta x Ix) as (X1 & X2 & sx & Ex & Sx1 & Sx2 & Sx3).
  destruct (lanes_quanta y Iy) as (Y1 & Y2 & sy & Ey & Sy1 & Sy2 & Sy3).
  assert (Q : quanta (Sse2.lane y) = quanta (Sse2.lane x)).
  { destruct (sse_lane_spec x Ix) as (_ & _ & ->).
    destruct (sse_lane_spec y Iy) as (_ & _ & ->).
    destruct Ix as (Vx & _ & _). destruct Iy as (Vy & _ & _).
    destruct (rint_spec _ (repr_quanta x Vx)) as (_ & _ & Bx).
    destruct (rint_spec _ (repr_quanta y Vy)) as (_ & _ & By).
    apply shapeZ_periodic; trivial.
    exists (k - rint (quanta y) + rint (quanta x)). unfold phaseV. rewrite H. ring. }
  split.
  - rewrite feq_spec, Q by trivial. apply Z.eqb_refl.
  - exists sx, sy. repeat split; trivial.
    rewrite feq_spec, Sx3, Sy3, Q by trivial. apply Z.eqb_refl.
Qed.

(** The amended claim at [x = 0.5], [k = 1]. *)
Lemma periodicity_on_exact_shifts_witness :
  in_range f0_5 /\ in_range f1_5 /\ (F2Q f1_5 == F2Q f0_5 + inject_Z 1)%Q /\
  feq (Sse2.lane f1_5) (Sse2.lane f0_5) = true /\
  exists sx sy, Scalar.elem f0_5 = Some sx /\ Scalar.elem f1_5 = Some sy /\
                feq sy sx = true.
Proof.
  split; [in_range_now|]. split; [in_range_now|]. split; [reflexivity|].
  apply (periodicity_on_exact_shifts f0_5 f1_5 1); [in_range_now | in_range_now | reflexivity].
Defined.

(** The claim as stated fails: [0.5 + 1] is exactly [1.5], and the SSE2
    branch returns [+0] for the one and [-0] for the other; [-0.0 + 1] is
    exactly [1], and the scalar branch returns [-0] and [+0]; [2^-30 + 1]
    rounds to [1], and the outputs are not even equal; nor are they for
    [2^31] and [2^31 + 512]. *)
Lemma periodicity_not_bit_identical :
  fadd f0_5 (of_Z 1) = f1_5 /\ Sse2.lane f1_5 <> Sse2.lane f0_5 /\
  fadd (S754_zero true) (of_Z 1) = f1 /\
  Scalar.elem f1 <> Scalar.elem (S754_zero true) /\
  feq (Sse2.lane (fadd f2pm30 (of_Z 1))) (Sse2.lane f2pm30) = false /\
  (F2Q (fadd f2p31 (of_Z 512)) == F2Q f2p31 + inject_Z 512)%Q /\
  feq (Sse2.lane (fadd f2p31 (of_Z 512))) (Sse2.lane f2p31) = false.
Proof.
  repeat split; try reflexivity; vm_compute; (reflexivity || discriminate).
Qed.

(** Claim C5, amended.  For every finite input [x] with [|x| < 2^31]
    (so that [x] and [-x] are both in range), the output for [-x] and the
    negated output for [x] are equal as floating-point values ([==]), in
    the SSE2 branch and in the scalar branch. *)
Theorem odd_symmetry (x : float) :
  in_range x -> in_range (fopp x) ->
  feq (Sse2.lane (fopp x)) (fopp (Sse2.lane x)) = true /\
  exists s s', Scalar.elem x = Some s /\ Scalar.elem (fopp x) = Some s' /\
               feq s' (fopp s) = true.
Proof.
  intros I I'. pose proof (fopp_quanta_lane x I I') as Q.
  destruct (lanes_quanta x I) as (X1 & X2 & s & E & S1 & S2 & S3).
  destruct (lanes_quanta _ I') as (Y1 & Y2 & s' & E' & S1' & S2' & S3').
  split.
  - rewrite feq_spec, quanta_opp, Q;
      auto using is_f32_fopp; try (now rewrite is_finite_fopp).
    apply Z.eqb_refl.
  - exists s, s'. repeat split; trivial.
    rewrite feq_spec, quanta_opp, S3, S3', Q;
      auto using is_f32_fopp; try (now rewrite is_finite_fopp).
    apply Z.eqb_refl.
Qed.

(** The amended claim at [x = 0.75]. *)
Lemma odd_symmetry_witness :
  in_range f0_75 /\ in_range (fopp f0_75) /\
  feq (Sse2.lane (fopp f0_75)) (fopp (Sse2.lane f0_75)) = true /\
  exists s s', Scalar.elem f0_75 = Some s /\ Scalar.elem (fopp f0_75) = Some s' /\
               feq s' (fopp s) = true.
Proof.
  split; [in_range_now|]. split; [in_range_now|].
  apply (odd_symmetry f0_75); in_range_now.
Defined.

(** The claim as stated fails at [x = 2^31] in the SSE2 branch: the
    reduced value is not 0.5, and the output for [-x] is not the negated
    output for [x]. *)
Lemma symmetry_fails_at_2p31 :
  is_f32 f2p31 /\ fabs (Sse2.phase f2p31) <> f0_5 /\
  feq (Sse2.lane (fopp f2p31)) (fopp (Sse2.lane f2p31)) = false.
Proof.
  split; [reflexivity|]. split; [vm_compute; discriminate | reflexivity].
Qed.

(** Claim C6, amended.  For every finite input [x] with
    [-2^31 <= x < 2^31] the output is a finite number (no infinity, no
    NaN) of magnitude at most 1, in the SSE2 branch and in the scalar
    branch; 1 is reached at [x = 0.25]. *)
Theorem output_bounded (x : float) :
  in_range x ->
  (is_f32 (Sse2.lane x) /\ is_finite (Sse2.lane x) = true /\
   (Qabs (F2Q (Sse2.lane x)) <= 1)%Q) /\
  (exists s, Scalar.elem x = Some s /\ is_f32 s /\ is_finite s = true /\
             (Qabs (F2Q s) <= 1)%Q) /\
  Sse2.lane f0_25 = f1 /\ Scalar.elem f0_25 = Some f1 /\
  is_finite f1 = true /\ (F2Q f1 == 1)%Q.
Proof.
  intros I.
  destruct (lanes_quanta x I) as (X1 & X2 & s & E & S1 & S2 & S3).
  assert (B : Z.abs (quanta (Sse2.lane x)) <= 2 ^ 149).
  { destruct (sse_lane_spec x I) as (_ & _ & ->).
    destruct I as (V & _ & _).
    destruct (rint_spec _ (repr_quanta x V)) as (_ & R2 & R3).
    now apply shapeZ_bound. }
  split; [|split; [|repeat split]].
  - split; [trivial|]. split; [trivial|]. apply (F2Q_abs_le _ 1 1). lia.
  - exists s. split; [trivial|]. split; [trivial|]. split; [trivial|].
    apply (F2Q_abs_le _ 1 1). rewrite S3. lia.
Qed.

(** The amended claim at [x = 0.25]. *)
Lemma output_bounded_witness :
  in_range f0_25 /\
  (is_f32 (Sse2.lane f0_25) /\ is_finite (Sse2.lane f0_25) = true /\
   (Qabs (F2Q (Sse2.lane f0_25)) <= 1)%Q) /\
  (exists s, Scalar.elem f0_25 = Some s /\ is_f32 s /\ is_finite s = true /\
             (Qabs (F2Q s) <= 1)%Q) /\
  Sse2.lane f0_25 = f1 /\ Scalar.elem f0_25 = Some f1 /\
  is_finite f1 = true /\ (F2Q f1 == 1)%Q.
Proof.
  split; [in_range_now | apply (output_bounded f0_25); in_range_now].
Defined.

(** The claim as stated fails at [x = 2^31], where the SSE2 branch
    returns the finite number [-2^68]. *)
Lemma bound_fails_at_2p31 :
  is_f32 f2p31 /\ is_finite (Sse2.lane f2p31) = true /\
  ~ (Qabs (F2Q (Sse2.lane f2p31)) <= 1)%Q /\
  (F2Q (Sse2.lane f2p31) == - inject_Z (2 ^ 68))%Q.
Proof.
  split; [reflexivity|]. split; [reflexivity|]. split; [|reflexivity].
  vm_compute. intros H. now apply H.
Qed.

(** Claim C7, amended.  On buffers of [n] valid floats, [n] a multiple
    of the quantum, the SSE2 branch always finishes and stores the lane
    function of every element; the scalar branch finishes if and only if
    every element is finite and in [[-2^31, 2^31)], these being exactly
    the elements whose truncation is an [int]. *)
Theorem defined_domain (n : Z) (outs xs : list float) :
  Z.of_nat (length xs) = n -> length outs = length xs ->
  Z.rem n UFXR_QUANTUM = 0 -> Forall is_f32 xs ->
  (exists tr, Sse2.ufxr_sin1_2 n outs xs = Done (KState (map Sse2.lane xs) tr)) /\
  ((exists st, Scalar.ufxr_sin1_2 n outs xs = Done st) <-> Forall in_range xs) /\
  (forall x, In x xs -> ((exists y, Scalar.elem x = Some y) <-> in_range x)).
Proof.
  intros Hn Ho Hr V. split; [now apply sse_batch|]. split.
  - pose proof (scalar_batch n outs xs Hn Ho Hr) as SB.
    rewrite <- (all_elems_defined xs V).
    destruct (all_elems xs) as [ys|].
    + destruct SB as [tr E]. split; intros _; eauto.
    + rewrite SB. split; intros [? ?]; discriminate.
  - intros x Hx. apply elem_defined. rewrite Forall_forall in V. now apply V.
Qed.

(** The amended claim on the exemplar batch. *)
Lemma defined_domain_witness :
  Z.of_nat (length batch_in) = 4 /\ length [fzero; fzero; fzero; fzero] = length batch_in /\
  Z.rem 4 UFXR_QUANTUM = 0 /\ Forall is_f32 batch_in /\
  (exists tr, Sse2.ufxr_sin1_2 4 [fzero; fzero; fzero; fzero] batch_in
              = Done (KState (map Sse2.lane batch_in) tr)) /\
  ((exists st, Scalar.ufxr_sin1_2 4 [fzero; fzero; fzero; fzero] batch_in = Done st)
   <-> Forall in_range batch_in) /\
  (forall x, In x batch_in -> ((exists y, Scalar.elem x = Some y) <-> in_range x)).
Proof.
  split; [reflexivity|]. split; [reflexivity|]. split; [reflexivity|].
  split; [repeat constructor|].
  apply (defined_domain 4 [fzero; fzero; fzero; fzero] batch_in);
    [reflexivity | reflexivity | reflexivity | repeat constructor].
Defined.

(** The claim as stated fails at [x = 2^31], and at infinities and NaN:
    the conversion to [int] of the scalar branch is undefined. *)
Lemma scalar_undefined_at_2p31 :
  is_f32 f2p31 /\ (F2Q f2p31 == inject_Z (2 ^ 31))%Q /\
  Scalar.float_to_int f2p31 = None /\ Scalar.elem f2p31 = None /\
  Scalar.ufxr_sin1_2 4 [fzero; fzero; fzero; fzero] [f2p31; fzero; fzero; fzero] = Undefined /\
  Scalar.elem (S754_infinity false) = None /\ Scalar.elem S754_nan = None.
Proof. repeat split. Qed.

(** Claim C8.  The enumeration has exactly the three codes; on each of
    them [ufxr_errname] and [ufxr_errtext] return a non-empty string; no
    two codes share a name or a text; [ufxr_errname(ERR_LARGETEXT)] is
    ["LARGETEXT"]; [ERR_OK] is zero and its two strings say success.  The
    functions are pure, so they have no side effect. *)
Theorem error_registry_total :
  (forall c, In c Err.all_codes) /\
  (forall c, exists name text,
      Err.ufxr_errname (Err.to_int c) = Some name /\
      Err.ufxr_errtext (Err.to_int c) = Some text /\
      name <> EmptyString /\ text <> EmptyString) /\
  (forall c1 c2, Err.ufxr_errname (Err.to_int c1) = Err.ufxr_errname (Err.to_int c2) -> c1 = c2) /\
  (forall c1 c2, Err.ufxr_errtext (Err.to_int c1) = Err.ufxr_errtext (Err.to_int c2) -> c1 = c2) /\
  Err.ufxr_errname (Err.to_int Err.ERR_LARGETEXT) = Some "LARGETEXT"%string /\
  Err.to_int Err.ERR_OK = 0 /\
  Err.ufxr_errname (Err.to_int Err.ERR_OK) = Some "OK"%string /\
  Err.ufxr_errtext (Err.to_int Err.ERR_OK) = Some "No error."%string.
Proof.
  split; [intros []; cbn; auto|].
  split; [intros []; do 2 eexists; repeat split; discriminate|].
  split; [intros [] []; cbn; intros H; try reflexivity; discriminate H|].
  split; [intros [] []; cbn; intros H; try reflexivity; discriminate H|].
  repeat split.
Qed.

(** Claim C9.  A call with [n = 0] passes the quantum assertion
    ([0 % UFXR_QUANTUM == 0]) and, in both branches, finishes with an
    empty trace (no load from the input, no store to the output) and the
    output buffer as it was. *)
Theorem zero_length_noop (outs xs : list float) :
  Z.rem 0 UFXR_QUANTUM = 0 /\
  Sse2.ufxr_sin1_2 0 outs xs = Done (KState outs []) /\
  Scalar.ufxr_sin1_2 0 outs xs = Done (KState outs []).
Proof. repeat split. Qed.

(** Claim C10.  For every input [x] whose phase-reduced value has
    magnitude exactly 0.5 (as for [x = 0.5] and [x = -0.5]), the outputs
    for [x] and for [-x] are both zero and the output for [-x] equals the
    negated output for [x] as floating-point values; in the SSE2 branch,
    and in the scalar branch with its own phase-reduced value. *)
Theorem boundary_symmetry (x : float) :
  is_f32 x ->
  (fabs (Sse2.phase x) = f0_5 ->
   is_zero (Sse2.lane x) = true /\ is_zero (Sse2.lane (fopp x)) = true /\
   feq (Sse2.lane (fopp x)) (fopp (Sse2.lane x)) = true) /\
  (forall r, Scalar.phase x = Some r -> fabs r = f0_5 ->
   exists y y', Scalar.elem x = Some y /\ Scalar.elem (fopp x) = Some y' /\
                is_zero y = true /\ is_zero y' = true /\ feq y' (fopp y) = true).
Proof.
  intros V. split.
  - intros H. destruct (sse_half_in_range x V H) as [I I'].
    destruct (sse_lane_spec x I) as (A1 & A2 & A3).
    destruct (sse_lane_spec _ I') as (B1 & B2 & B3).
    destruct (sse_phase_spec x I) as (_ & _ & P).
    apply quanta_half in H. rewrite P in H. fold (phaseV (quanta x)) in H.
    assert (Z1 : quanta (Sse2.lane x) = 0) by (rewrite A3; now apply shapeZ_at_half).
    assert (Z2 : quanta (Sse2.lane (fopp x)) = 0).
    { rewrite B3, quanta_opp, phaseV_opp, shapeZ_opp, shapeZ_at_half; trivial. }
    split; [now apply quanta_zero_iff|]. split; [now apply quanta_zero_iff|].
    rewrite feq_spec, quanta_opp, Z1, Z2;
      auto using is_f32_fopp; now rewrite ?is_finite_fopp.
  - intros r E H. destruct (scalar_half_in_range x r V E H) as (I & I' & P).
    destruct (scalar_elem_spec x I) as (y & Ey & A1 & A2 & A3).
    destruct (scalar_elem_spec _ I') as (y' & Ey' & B1 & B2 & B3).
    assert (Z1 : quanta y = 0) by (rewrite A3, foldZ_at_half; trivial).
    assert (Z2 : quanta y' = 0).
    { rewrite B3, quanta_opp, phaseS_opp, foldZ_opp, shapeZ_opp, foldZ_at_half; trivial. }
    exists y, y'. split; [trivial|]. split; [trivial|].
    split; [now apply quanta_zero_iff|]. split; [now apply quanta_zero_iff|].
    rewrite feq_spec, quanta_opp, Z1, Z2;
      auto using is_f32_fopp; now rewrite ?is_finite_fopp.
Qed.

(** The claim at [x = 0.5]. *)
Lemma boundary_symmetry_witness :
  is_f32 f0_5 /\ fabs (Sse2.phase f0_5) = f0_5 /\
  Scalar.phase f0_5 = Some f0_5 /\ fabs f0_5 = f0_5 /\
  (is_zero (Sse2.lane f0_5) = true /\ is_zero (Sse2.lane (fopp f0_5)) = true /\
   feq (Sse2.lane (fopp f0_5)) (fopp (Sse2.lane f0_5)) = true) /\
  (exists y y', Scalar.elem f0_5 = Some y /\ Scalar.elem (fopp f0_5) = Some y' /\
                is_zero y = true /\ is_zero y' = true /\ feq y' (fopp y) = true).
Proof.
  split; [reflexivity|]. split; [reflexivity|]. split; [reflexivity|]. split; [reflexivity|].
  split.
  - apply (proj1 (boundary_symmetry f0_5 eq_refl)). reflexivity.
  - apply (proj2 (boundary_symmetry f0_5 eq_refl) f0_5); reflexivity.
Defined.

(* ================================================================== *)
(** * Further properties of the code: the calls and their buffers *)

(** Property X1.  The call is aborted by its assertion exactly when the
    count n is not a multiple of UFXR_QUANTUM: in both branches the
    outcome is the assertion failure if and only if n % UFXR_QUANTUM is
    not 0, whatever the buffers hold. *)
Theorem quantum_assertion_guards (n : Z) (outs xs : list float) :
  (Z.rem n UFXR_QUANTUM <> 0 <-> Sse2.ufxr_sin1_2 n outs xs = AssertFailed) /\
  (Z.rem n UFXR_QUANTUM <> 0 <-> Scalar.ufxr_sin1_2 n outs xs = AssertFailed).
Proof.
  unfold Sse2.ufxr_sin1_2, Scalar.ufxr_sin1_2.
  destruct (Z.eqb_spec (Z.rem n UFXR_QUANTUM) 0) as [E|E]; cbn [assert bind].
  - split; (split; [contradiction|]); intros H; exfalso; revert H.
    + apply sse_loop_no_assert.
    + apply scalar_loop_no_assert.
  - split; split; trivial.
Qed.

(** Property X2.  A call finishes without any load or store, the output
    buffer as it was, exactly when n is a multiple of the quantum that
    is zero or negative; a negative multiple such as -4 passes the
    assertion and the loop body never runs. In both branches. *)
Theorem no_access_iff (n : Z) (outs xs : list float) :
  (Sse2.ufxr_sin1_2 n outs xs = Done (KState outs []) <->
   n <= 0 /\ Z.rem n UFXR_QUANTUM = 0) /\
  (Scalar.ufxr_sin1_2 n outs xs = Done (KState outs []) <->
   n <= 0 /\ Z.rem n UFXR_QUANTUM = 0).
Proof.
  split; split.
  - intros D. destruct (sse_done_trace _ _ _ _ D) as (Hr & k & l & T & L & N).
    split; trivial. cbn [ks_trace] in T.
    destruct l as [|a [|b [|c [|d l]]]]; try (cbn [length] in L; lia).
    discriminate T.
  - intros [H0 Hr]. now apply call_nonpositive.
  - intros D. destruct (scalar_done_trace _ _ _ _ D) as (Hr & ys & T & L).
    split; trivial. cbn [ks_trace] in T.
    destruct ys; [cbn [length] in L; lia | discriminate T].
  - intros [H0 Hr]. now apply call_nonpositive.
Qed.

(** Property X3.  On buffers that hold n elements or more (n a
    non-negative multiple of the quantum), the SSE2 branch finishes,
    replaces the first n elements of the output buffer by the lane
    function of the first n inputs and leaves every later output element
    as it was; per group of four it does the four loads and then the
    four stores, in index order, and reads no input element from index n
    on. *)
Theorem sse_prefix_and_trace (n : Z) (outs xs : list float) :
  0 <= n -> Z.rem n UFXR_QUANTUM = 0 ->
  n <= Z.of_nat (length xs) -> n <= Z.of_nat (length outs) ->
  Sse2.ufxr_sin1_2 n outs xs =
  Done (KState (map Sse2.lane (firstn (Z.to_nat n) xs) ++ skipn (Z.to_nat n) outs)
               (sse_events 0 (firstn (Z.to_nat n) xs))).
Proof. apply sse_call_done. Qed.

(** The property on a count of 4 and buffers of 6 and 5 elements. *)
Lemma sse_prefix_and_trace_witness :
  0 <= 4 /\ Z.rem 4 UFXR_QUANTUM = 0 /\
  4 <= Z.of_nat (length (batch_in ++ [f0_75; f2p31])) /\
  4 <= Z.of_nat (length [f8; f8; f8; f8; f16]) /\
  Sse2.ufxr_sin1_2 4 [f8; f8; f8; f8; f16] (batch_in ++ [f0_75; f2p31]) =
  Done (KState (map Sse2.lane (firstn (Z.to_nat 4) (batch_in ++ [f0_75; f2p31]))
                  ++ skipn (Z.to_nat 4) [f8; f8; f8; f8; f16])
               (sse_events 0 (firstn (Z.to_nat 4) (batch_in ++ [f0_75; f2p31])))).
Proof.
  split; [lia|]. split; [reflexivity|]. split; [cbn; lia|]. split; [cbn; lia|].
  apply (sse_prefix_and_trace 4); [lia | reflexivity | cbn; lia | cbn; lia].
Defined.

(** Property X4.  On buffers that hold n elements or more (n a
    non-negative multiple of the quantum), the scalar branch finishes
    when each of the first n inputs has an output: it then replaces the
    first n output elements by these outputs, leaves the later ones as
    they were, and does load i, store i for i = 0, 1, ... in turn; when
    one of the first n inputs has no output (its conversion to int is
    undefined) the call is undefined. Inputs from index n on are not
    looked at. *)
Theorem scalar_prefix_and_trace (n : Z) (outs xs : list float) :
  0 <= n -> Z.rem n UFXR_QUANTUM = 0 ->
  n <= Z.of_nat (length xs) -> n <= Z.of_nat (length outs) ->
  match all_elems (firstn (Z.to_nat n) xs) with
  | Some ys =>
      Scalar.ufxr_sin1_2 n outs xs =
      Done (KState (ys ++ skipn (Z.to_nat n) outs) (scalar_events 0 ys))
  | None => Scalar.ufxr_sin1_2 n outs xs = Undefined
  end.
Proof.
  intros H0 Hr Hx Ho.
  destruct (all_elems (firstn (Z.to_nat n) xs)) as [ys|] eqn:A.
  - now apply scalar_call_done.
  - destruct (all_elems_none _ A) as (good & ys & bad & rest & E & G & B).
    assert (Lg : (length good < Z.to_nat n)%nat).
    { apply (f_equal (@length float)) in E.
      rewrite length_firstn, length_app in E. cbn [length] in E. lia. }
    rewrite <- (firstn_skipn (Z.to_nat n) xs), E, <- app_assoc. cbn [app].
    apply (scalar_call_undefined n outs good ys bad); trivial; lia.
Qed.

(** The property on a count of 4 and buffers of 6 and 5 elements; the
    element [2^31] lies past the count and does no harm. *)
Lemma scalar_prefix_and_trace_witness :
  0 <= 4 /\ Z.rem 4 UFXR_QUANTUM = 0 /\
  4 <= Z.of_nat (length (batch_in ++ [f0_75; f2p31])) /\
  4 <= Z.of_nat (length [f8; f8; f8; f8; f16]) /\
  match all_elems (firstn (Z.to_nat 4) (batch_in ++ [f0_75; f2p31])) with
  | Some ys =>
      Scalar.ufxr_sin1_2 4 [f8; f8; f8; f8; f16] (batch_in ++ [f0_75; f2p31]) =
      Done (KState (ys ++ skipn (Z.to_nat 4) [f8; f8; f8; f8; f16]) (scalar_events 0 ys))
  | None => Scalar.ufxr_sin1_2 4 [f8; f8; f8; f8; f16] (batch_in ++ [f0_75; f2p31]) = Undefined
  end.
Proof.
  split; [lia|]. split; [reflexivity|]. split; [cbn; lia|]. split; [cbn; lia|].
  apply (scalar_prefix_and_trace 4); [lia | reflexivity | cbn; lia | cbn; lia].
Defined.

(** Property X5.  When n is a positive multiple of the quantum and the
    input or the output buffer holds fewer than n elements, the SSE2
    branch runs past the end of a buffer; the scalar branch does not
    finish either: it runs past the end of a buffer, which is what
    happens when all inputs are in range, or meets an undefined
    conversion to int before that. *)
Theorem short_buffers_overrun (n : Z) (outs xs : list float) :
  0 < n -> Z.rem n UFXR_QUANTUM = 0 ->
  Z.of_nat (length xs) < n \/ Z.of_nat (length outs) < n ->
  Sse2.ufxr_sin1_2 n outs xs = OutOfBounds /\
  (Scalar.ufxr_sin1_2 n outs xs = OutOfBounds \/
   Scalar.ufxr_sin1_2 n outs xs = Undefined) /\
  (Forall in_range xs -> Scalar.ufxr_sin1_2 n outs xs = OutOfBounds).
Proof.
  intros H0 Hr Hs. split; [now apply sse_call_overrun|].
  destruct (scalar_call_overrun n outs xs H0 Hr Hs) as [E|(E & x & Hx & Ex)].
  - rewrite E. split; [now left | trivial].
  - rewrite E. split; [now right|]. intros I. exfalso.
    rewrite Forall_forall in I. specialize (I x Hx).
    pose proof I as (V & _). apply (elem_defined x V) in I.
    destruct I as [y Ey]. congruence.
Qed.

(** The property on a count of 8 and an input of 4 elements. *)
Lemma short_buffers_overrun_witness :
  0 < 8 /\ Z.rem 8 UFXR_QUANTUM = 0 /\
  (Z.of_nat (length batch_in) < 8 \/
   Z.of_nat (length [f8; f8; f8; f8; f8; f8; f8; f8]) < 8) /\
  Sse2.ufxr_sin1_2 8 [f8; f8; f8; f8; f8; f8; f8; f8] batch_in = OutOfBounds /\
  (Scalar.ufxr_sin1_2 8 [f8; f8; f8; f8; f8; f8; f8; f8] batch_in = OutOfBounds \/
   Scalar.ufxr_sin1_2 8 [f8; f8; f8; f8; f8; f8; f8; f8] batch_in = Undefined) /\
  (Forall in_range batch_in ->
   Scalar.ufxr_sin1_2 8 [f8; f8; f8; f8; f8; f8; f8; f8] batch_in = OutOfBounds).
Proof.
  split; [lia|]. split; [reflexivity|]. split; [left; cbn; lia|].
  apply (short_buffers_overrun 8); [lia | reflexivity | left; cbn; lia].
Defined.

(** Property X6.  In every call that finishes, in either branch, the
    indices loaded are 0, 1, ..., n-1 in this order, each once, and so
    are the indices stored; every store to an index comes after the load
    of that index, and the index is not loaded again afterwards. No
    index below 0 or from n on is touched. *)
Theorem access_pattern (n : Z) (outs xs : list float) (st : kstate) :
  Sse2.ufxr_sin1_2 n outs xs = Done st \/ Scalar.ufxr_sin1_2 n outs xs = Done st ->
  loads (ks_trace st) = map Z.of_nat (seq 0 (Z.to_nat n)) /\
  stores (ks_trace st) = map Z.of_nat (seq 0 (Z.to_nat n)) /\
  (forall pre post i v, ks_trace st = pre ++ EvStore i v :: post ->
                        In i (loads pre) /\ ~ In i (loads post)).
Proof.
  intros D.
  assert (A : loads (ks_trace st) = map Z.of_nat (seq 0 (Z.to_nat n)) /\
              stores (ks_trace st) = map Z.of_nat (seq 0 (Z.to_nat n)) /\
              stores_after_loads [] (ks_trace st) = true).
  { destruct D as [D|D].
    - destruct (sse_done_trace _ _ _ _ D) as (_ & k & l & -> & L & N).
      rewrite <- N. destruct (sse_events_indices k 0%nat l L) as [I1 I2].
      cbn [Z.of_nat] in I1, I2. split; [trivial|]. split; [trivial|].
      now apply (sse_events_scan k).
    - destruct (scalar_done_trace _ _ _ _ D) as (_ & ys & -> & L).
      rewrite <- L. destruct (scalar_events_indices ys 0%nat) as [I1 I2].
      cbn [Z.of_nat] in I1, I2. split; [trivial|]. split; [trivial|].
      apply scalar_events_scan. }
  destruct A as (A1 & A2 & A3). split; [trivial|]. split; [trivial|].
  intros pre post i v E.
  destruct (stores_after_loads_sound _ _ _ _ _ _ A3 E) as [[]|H].
  split; [trivial|].
  apply (nodup_app_disjoint (loads pre)); trivial.
  pose proof (indices_nodup 0 (Z.to_nat n)) as ND. rewrite <- A1, E, loads_app in ND.
  exact ND.
Qed.

(** The property on the exemplar batch, run by the SSE2 branch. *)
Lemma access_pattern_witness :
  exists st,
    (Sse2.ufxr_sin1_2 4 [f8; f8; f8; f8] batch_in = Done st \/
     Scalar.ufxr_sin1_2 4 [f8; f8; f8; f8] batch_in = Done st) /\
    loads (ks_trace st) = map Z.of_nat (seq 0 (Z.to_nat 4)) /\
    stores (ks_trace st) = map Z.of_nat (seq 0 (Z.to_nat 4)) /\
    (forall pre post i v, ks_trace st = pre ++ EvStore i v :: post ->
                          In i (loads pre) /\ ~ In i (loads post)).
Proof.
  eexists. split; [left; reflexivity|].
  apply (access_pattern 4 [f8; f8; f8; f8] batch_in). left. reflexivity.
Defined.

(** Property X7.  On buffers of n in-range elements (finite, -2^31 <= x
    < 2^31; n a multiple of the quantum) both branches finish, and their
    output buffers hold, element by element, the same float or two
    zeros. *)
Theorem batches_agree (n : Z) (outs xs : list float) :
  Z.of_nat (length xs) = n -> length outs = length xs ->
  Z.rem n UFXR_QUANTUM = 0 -> Forall in_range xs ->
  exists ys tr tr',
    Sse2.ufxr_sin1_2 n outs xs = Done (KState (map Sse2.lane xs) tr) /\
    Scalar.ufxr_sin1_2 n outs xs = Done (KState ys tr') /\
    Forall2 (fun v s => v = s \/ (is_zero v = true /\ is_zero s = true))
            (map Sse2.lane xs) ys.
Proof.
  intros Hn Ho Hr I.
  destruct (sse_batch n outs xs Hn Ho Hr) as [tr E].
  pose proof (scalar_batch n outs xs Hn Ho Hr) as SB.
  assert (A : exists ys, all_elems xs = Some ys /\
                Forall2 (fun v s => v = s \/ (is_zero v = true /\ is_zero s = true))
                        (map Sse2.lane xs) ys).
  { clear - I. induction I as [|x xs Ix _ IH]; cbn [all_elems map].
    - exists []. split; [reflexivity | constructor].
    - destruct (lanes_same x Ix) as (s & Es & _ & As).
      destruct IH as (ys & Eys & Ays). rewrite Es, Eys.
      exists (s :: ys). split; [reflexivity | now constructor]. }
  destruct A as (ys & Eys & Ays). rewrite Eys in SB. destruct SB as [tr' E'].
  exists ys, tr, tr'. auto.
Qed.

(** The property on the exemplar batch. *)
Lemma batches_agree_witness :
  Z.of_nat (length batch_in) = 4 /\ length [f8; f8; f8; f8] = length batch_in /\
  Z.rem 4 UFXR_QUANTUM = 0 /\ Forall in_range batch_in /\
  exists ys tr tr',
    Sse2.ufxr_sin1_2 4 [f8; f8; f8; f8] batch_in = Done (KState (map Sse2.lane batch_in) tr) /\
    Scalar.ufxr_sin1_2 4 [f8; f8; f8; f8] batch_in = Done (KState ys tr') /\
    Forall2 (fun v s => v = s \/ (is_zero v = true /\ is_zero s = true))
            (map Sse2.lane batch_in) ys.
Proof.
  split; [reflexivity|]. split; [reflexivity|]. split; [reflexivity|].
  assert (I : Forall in_range batch_in)
    by (repeat (apply Forall_cons; [in_range_now|]); apply Forall_nil).
  split; [exact I|].
  apply (batches_agree 4 [f8; f8; f8; f8] batch_in);
    [reflexivity | reflexivity | reflexivity | exact I].
Defined.

(* ================================================================== *)
(** * Further properties of the code: the values *)

(** Property X8.  The constant abs built from -1 shifted right by one
    bit is 0x7FFFFFFF in each lane, and the bitwise and of a register of
    floats with it is the absolute value of each lane (zeros, infinities
    and NaN included): the SSE2 branch multiplies by 8 - 16|x| as the
    scalar branch does with fabsf. *)
Theorem abs_mask_clears_sign (x : Sse2.vec4 float) :
  is_f32 (Sse2.lane0 x) -> is_f32 (Sse2.lane1 x) ->
  is_f32 (Sse2.lane2 x) -> is_f32 (Sse2.lane3 x) ->
  Sse2.abs = Sse2.V4 2147483647 2147483647 2147483647 2147483647 /\
  Sse2.mm_and_ps x Sse2.abs = Sse2.vmap fabs x.
Proof.
  intros V0 V1 V2 V3. split; [reflexivity|].
  unfold Sse2.mm_and_ps, Sse2.vmap2, Sse2.vmap.
  change (Sse2.lane1 Sse2.abs) with (Sse2.lane0 Sse2.abs).
  change (Sse2.lane2 Sse2.abs) with (Sse2.lane0 Sse2.abs).
  change (Sse2.lane3 Sse2.abs) with (Sse2.lane0 Sse2.abs).
  now rewrite !and_bits_abs.
Qed.

(** The property on a register that holds [-0.5], [-0], minus infinity
    and a NaN. *)
Lemma abs_mask_clears_sign_witness :
  Sse2.abs = Sse2.V4 2147483647 2147483647 2147483647 2147483647 /\
  Sse2.mm_and_ps (Sse2.V4 fm0_5 (S754_zero true) (S754_infinity true) S754_nan) Sse2.abs
  = Sse2.vmap fabs (Sse2.V4 fm0_5 (S754_zero true) (S754_infinity true) S754_nan).
Proof.
  apply (abs_mask_clears_sign (Sse2.V4 fm0_5 (S754_zero true) (S754_infinity true) S754_nan));
    reflexivity.
Defined.

(** Property X9.  For in-range x the output of the SSE2 branch is a zero
    if and only if x is a multiple of one half (2x is an integer); the
    scalar output is a zero for exactly the same x. *)
Theorem zeros_at_half_integers (x : float) :
  in_range x ->
  (is_zero (Sse2.lane x) = true <-> exists k : Z, (F2Q x == k # 2)%Q) /\
  exists s, Scalar.elem x = Some s /\ is_zero s = is_zero (Sse2.lane x).
Proof.
  intros I. destruct (sse_lane_spec x I) as (A1 & A2 & A3).
  destruct (lanes_same x I) as (s & E & Q & S).
  split.
  - rewrite <- (quanta_zero_iff _ A1 A2), A3, shapeZ_phase_zero.
    unfold F2Q, Qeq. cbn [Qnum Qden]. rewrite den_F2Q.
    change (Zpos 2) with 2. change (2 ^ 149) with (2 * 2 ^ 148).
    split; intros [k K]; exists k; lia.
  - exists s. split; trivial. destruct S as [<-|[-> ->]]; reflexivity.
Qed.

(** The property at [x = 1.5]. *)
Lemma zeros_at_half_integers_witness :
  in_range f1_5 /\
  (is_zero (Sse2.lane f1_5) = true <-> exists k : Z, (F2Q f1_5 == k # 2)%Q) /\
  exists s, Scalar.elem f1_5 = Some s /\ is_zero s = is_zero (Sse2.lane f1_5).
Proof.
  split; [in_range_now | apply (zeros_at_half_integers f1_5); in_range_now].
Defined.

(** Property X10.  For in-range x and every integer k: if k < x < k +
    1/2 the output is strictly positive, and if k + 1/2 < x < k + 1 it
    is strictly negative, in both branches; the output has the sign of
    sin(2 pi x) and is never rounded to zero inside a half period. *)
Theorem sign_follows_sine (x : float) (k : Z) :
  in_range x ->
  exists s, Scalar.elem x = Some s /\
    ((inject_Z k < F2Q x)%Q -> (F2Q x < inject_Z k + (1 # 2))%Q ->
     (0 < F2Q (Sse2.lane x))%Q /\ (0 < F2Q s)%Q) /\
    ((inject_Z k + (1 # 2) < F2Q x)%Q -> (F2Q x < inject_Z k + 1)%Q ->
     (F2Q (Sse2.lane x) < 0)%Q /\ (F2Q s < 0)%Q).
Proof.
  intros I. destruct (sse_lane_spec x I) as (A1 & A2 & A3).
  destruct (lanes_same x I) as (s & E & Q & _).
  exists s. split; [trivial|].
  unfold F2Q, Qlt, Qplus, inject_Z. cbn [Qnum Qden].
  rewrite Q, A3, den_F2Q. change (Zpos (1 * 2)) with 2. change (Zpos (1 * 1)) with 1.
  change (Zpos 1) with 1.
  assert (P148 : 0 < 2 ^ 148) by lia.
  change (2 ^ 149) with (2 * 2 ^ 148) in *.
  split; intros L U.
  - rewrite (phaseV_near (quanta x) k) by (change (2 ^ 149) with (2 * 2 ^ 148); lia).
    pose proof (shapeZ_pos (quanta x - k * 2 ^ 149)
                  ltac:(change (2 ^ 149) with (2 * 2 ^ 148); lia)).
    lia.
  - rewrite (phaseV_near (quanta x) (k + 1)) by (change (2 ^ 149) with (2 * 2 ^ 148); lia).
    pose proof (shapeZ_pos (- (quanta x - (k + 1) * 2 ^ 149))
                  ltac:(change (2 ^ 149) with (2 * 2 ^ 148); lia)) as S.
    rewrite shapeZ_opp in S. lia.
Qed.

(** The property at [x = 0.25]: the first half of the period from 0. *)
Lemma sign_follows_sine_witness :
  in_range f0_25 /\ (inject_Z 0 < F2Q f0_25)%Q /\ (F2Q f0_25 < inject_Z 0 + (1 # 2))%Q /\
  exists s, Scalar.elem f0_25 = Some s /\
    ((inject_Z 0 < F2Q f0_25)%Q -> (F2Q f0_25 < inject_Z 0 + (1 # 2))%Q ->
     (0 < F2Q (Sse2.lane f0_25))%Q /\ (0 < F2Q s)%Q) /\
    ((inject_Z 0 + (1 # 2) < F2Q f0_25)%Q -> (F2Q f0_25 < inject_Z 0 + 1)%Q ->
     (F2Q (Sse2.lane f0_25) < 0)%Q /\ (F2Q s < 0)%Q).
Proof.
  split; [in_range_now|]. split; [reflexivity|]. split; [reflexivity|].
  apply (sign_follows_sine f0_25 0); in_range_now.
Defined.

(** Property X11.  For in-range x and y with y = 1/2 - x exactly, the
    outputs for y and for x are equal as floating-point values, in both
    branches: the kernel is symmetric about the quarter period, as
    sin(pi - t) = sin(t). *)
Theorem quarter_wave_mirror (x y : float) :
  in_range x -> in_range y -> (F2Q y == (1 # 2) - F2Q x)%Q ->
  feq (Sse2.lane y) (Sse2.lane x) = true /\
  exists sx sy, Scalar.elem x = Some sx /\ Scalar.elem y = Some sy /\
                feq sy sx = true.
Proof.
  intros Ix Iy H.
  assert (H' : quanta y = 2 ^ 148 - quanta x).
  { revert H. unfold F2Q, Qeq, Qminus, Qplus, Qopp. cbn [Qnum Qden].
    rewrite !Pos2Z.inj_mul, den_F2Q. change (Zpos 2) with 2.
    change (2 ^ 149) with (2 * 2 ^ 148). assert (0 < 2 ^ 148) by lia. nia. }
  destruct (lanes_quanta x Ix) as (X1 & X2 & sx & Ex & Sx1 & Sx2 & Sx3).
  destruct (lanes_quanta y Iy) as (Y1 & Y2 & sy & Ey & Sy1 & Sy2 & Sy3).
  assert (Q : quanta (Sse2.lane y) = quanta (Sse2.lane x)).
  { destruct (sse_lane_spec x Ix) as (_ & _ & ->).
    destruct (sse_lane_spec y Iy) as (_ & _ & ->).
    destruct Ix as (Vx & _), Iy as (Vy & _).
    rewrite H'. apply shapeZ_mirror; [now apply repr_quanta|].
    rewrite <- H'. now apply repr_quanta. }
  split.
  - rewrite feq_spec, Q by trivial. apply Z.eqb_refl.
  - exists sx, sy. repeat split; trivial.
    rewrite feq_spec, Sx3, Sy3, Q by trivial. apply Z.eqb_refl.
Qed.

(** The property at [x = 0.75] and [y = -0.25]. *)
Lemma quarter_wave_mirror_witness :
  in_range f0_75 /\ in_range fm0_25 /\ (F2Q fm0_25 == (1 # 2) - F2Q f0_75)%Q /\
  feq (Sse2.lane fm0_25) (Sse2.lane f0_75) = true /\
  exists sx sy, Scalar.elem f0_75 = Some sx /\ Scalar.elem fm0_25 = Some sy /\
                feq sy sx = true.
Proof.
  split; [in_range_now|]. split; [in_range_now|]. split; [reflexivity|].
  apply (quarter_wave_mirror f0_75 fm0_25); [in_range_now | in_range_now | reflexivity].
Defined.

(** Property X12.  For in-range x the reduced phase p of the SSE2 branch
    is exactly x - n, n being the integer that _mm_cvtps_epi32 yields,
    and the output of either branch differs from the exact value of the
    parabola p (8 - 16 |p|) by less than 3 * 2^-25 (about 8.9e-8): the
    two roundings of the float computation and the different reduction
    of the scalar branch cost no more. *)
Theorem parabola_accuracy (x : float) :
  in_range x ->
  (F2Q (Sse2.phase x) == F2Q x - inject_Z (Sse2.signed (Sse2.cvtps_epi32 x)))%Q /\
  (Qabs (F2Q (Sse2.lane x) - parabola (F2Q (Sse2.phase x))) < 3 # 2 ^ 25)%Q /\
  exists s, Scalar.elem x = Some s /\
            (Qabs (F2Q s - parabola (F2Q (Sse2.phase x))) < 3 # 2 ^ 25)%Q.
Proof.
  intros I. split.
  { rewrite cvtps_epi32_in by trivial. apply F2Q_sub_int.
    now destruct (sse_phase_spec x I) as (_ & _ & ->). }
  destruct (sse_lane_spec x I) as (A1 & A2 & A3).
  destruct (sse_phase_spec x I) as (P1 & P2 & P3).
  destruct (lanes_same x I) as (s & E & Q & _).
  fold (phaseV (quanta x)) in P3.
  pose proof I as (V & _). pose proof (repr_quanta x V) as R.
  destruct (rint_spec _ R) as (_ & R2 & R3). fold (phaseV (quanta x)) in R2, R3.
  pose proof (shapeZ_error _ R2 R3) as B.
  assert (G : forall l, quanta l = shapeZ (phaseV (quanta x)) ->
                (Qabs (F2Q l - parabola (F2Q (Sse2.phase x))) < 3 # 2 ^ 25)%Q).
  { intros l L.
    set (p := phaseV (quanta x)) in *.
    assert (D : (F2Q l - parabola (F2Q (Sse2.phase x)) ==
                 (shapeZ p * 2 ^ 149 - p * (2 ^ 152 - 16 * Z.abs p)) # (2 ^ 298))%Q).
    { unfold parabola, F2Q, Qabs, Qeq, Qminus, Qplus, Qmult, Qopp. cbn [Qnum Qden].
      rewrite L, P3, !Pos2Z.inj_mul, den_F2Q.
      change (Zpos (2 ^ 298)) with (2 ^ 149 * 2 ^ 149).
      change (2 ^ 152) with (8 * 2 ^ 149). change (Zpos 1) with 1. ring. }
    rewrite D. unfold Qabs, Qlt. cbn [Qnum Qden].
    change (Zpos (2 ^ 298)) with (2 ^ 25 * 2 ^ 273). change (Zpos (2 ^ 25)) with (2 ^ 25).
    lia. }
  split; [now apply G|]. exists s. split; [trivial|]. apply G. congruence.
Qed.

(** The property at [x = 0.625]. *)
Lemma parabola_accuracy_witness :
  in_range f0_625 /\
  (F2Q (Sse2.phase f0_625) ==
   F2Q f0_625 - inject_Z (Sse2.signed (Sse2.cvtps_epi32 f0_625)))%Q /\
  (Qabs (F2Q (Sse2.lane f0_625) - parabola (F2Q (Sse2.phase f0_625))) < 3 # 2 ^ 25)%Q /\
  exists s, Scalar.elem f0_625 = Some s /\
            (Qabs (F2Q s - parabola (F2Q (Sse2.phase f0_625))) < 3 # 2 ^ 25)%Q.
Proof.
  split; [in_range_now | apply (parabola_accuracy f0_625); in_range_now].
Defined.

(** Property X13.  For every finite x of magnitude at most 2^-26,
    subnormal numbers included, the output is exactly 8x in both
    branches: 8 - 16|x| rounds to 8 and the product is formed without
    rounding or underflow. *)
Theorem tiny_inputs_linear (x : float) :
  is_f32 x -> is_finite x = true -> (Qabs (F2Q x) <= 1 # 2 ^ 26)%Q ->
  (F2Q (Sse2.lane x) == 8 * F2Q x)%Q /\
  exists s, Scalar.elem x = Some s /\ (F2Q s == 8 * F2Q x)%Q.
Proof.
  intros V F B.
  assert (B' : Z.abs (quanta x) <= 2 ^ 123).
  { revert B. unfold F2Q, Qabs, Qle. cbn [Qnum Qden]. rewrite den_F2Q.
    change (Zpos (2 ^ 26)) with (2 ^ 26). change (2 ^ 149) with (2 ^ 123 * 2 ^ 26). lia. }
  assert (I : in_range x).
  { repeat split; trivial.
    - assert (2 ^ 123 < 2 ^ 180) by (apply Z.pow_lt_mono_r; lia). lia.
    - assert (2 ^ 123 < 2 ^ 180) by (apply Z.pow_lt_mono_r; lia). lia. }
  destruct (sse_lane_spec x I) as (A1 & A2 & A3).
  destruct (lanes_same x I) as (s & E & Q & _).
  assert (L : quanta (Sse2.lane x) = 8 * quanta x).
  { rewrite A3. unfold phaseV. rewrite rint_small.
    - rewrite Z.mul_0_l, Z.sub_0_r. apply shapeZ_small; [now apply repr_quanta | trivial].
    - change (2 ^ 149) with (2 ^ 26 * 2 ^ 123). lia. }
  assert (G : forall l, quanta l = 8 * quanta x -> (F2Q l == 8 * F2Q x)%Q).
  { intros l H. unfold F2Q, Qeq, Qmult. cbn [Qnum Qden]. rewrite H.
    rewrite Pos2Z.inj_mul. change (Zpos 1) with 1. ring. }
  split; [now apply G|]. exists s. split; [trivial|]. apply G. congruence.
Qed.

(** The property at [x = 2^-30]. *)
Lemma tiny_inputs_linear_witness :
  is_f32 f2pm30 /\ is_finite f2pm30 = true /\ (Qabs (F2Q f2pm30) <= 1 # 2 ^ 26)%Q /\
  (F2Q (Sse2.lane f2pm30) == 8 * F2Q f2pm30)%Q /\
  exists s, Scalar.elem f2pm30 = Some s /\ (F2Q s == 8 * F2Q f2pm30)%Q.
Proof.
  split; [reflexivity|]. split; [reflexivity|]. split; [vm_compute; discriminate|].
  apply (tiny_inputs_linear f2pm30); [reflexivity | reflexivity | vm_compute; discriminate].
Defined.

(** Property X14.  For every float x (infinities and NaN included) the
    output of the SSE2 branch is a finite number of magnitude at most 1
    if and only if x is finite with -2^31 <= x < 2^31. For every other x
    the conversion _mm_cvtps_epi32 yields 0x80000000 and the branch
    computes with x - (-2^31) in place of a reduced phase. *)
Theorem bounded_iff_in_range (x : float) :
  is_f32 x ->
  (in_range x <->
   is_finite (Sse2.lane x) = true /\ (Qabs (F2Q (Sse2.lane x)) <= 1)%Q) /\
  (~ in_range x ->
   Sse2.cvtps_epi32 x = 2 ^ 31 /\ Sse2.phase x = fsub x (fopp f2p31)).
Proof.
  intros V. split; [split|].
  - intros I. destruct (sse_lane_spec x I) as (A1 & A2 & A3). split; [trivial|].
    apply (F2Q_abs_le _ 1 1). rewrite A3.
    pose proof (repr_quanta x V) as R.
    destruct (rint_spec _ R) as (_ & R2 & R3).
    pose proof (shapeZ_bound _ R2 R3) as B. fold (phaseV (quanta x)) in B. lia.
  - intros [F B].
    assert (D : in_range x \/ ~ in_range x).
    { unfold in_range. destruct (is_finite x); [|right; intros (_ & ? & _); discriminate].
      destruct (Z_le_gt_dec (- 2 ^ 180) (quanta x)); [|right; intros (_ & _ & ?); lia].
      destruct (Z_lt_le_dec (quanta x) (2 ^ 180)); [|right; intros (_ & _ & ?); lia].
      left. auto. }
    destruct D as [I|O]; [trivial|]. exfalso.
    destruct (sse_lane_outside x V O) as [N|N]; [congruence|].
    revert B. unfold F2Q, Qabs, Qle. cbn [Qnum Qden]. rewrite den_F2Q. lia.
  - apply sse_phase_outside; trivial.
Qed.

(** The property at [x = 2^31]. *)
Lemma bounded_iff_in_range_witness :
  is_f32 f2p31 /\
  (in_range f2p31 <->
   is_finite (Sse2.lane f2p31) = true /\ (Qabs (F2Q (Sse2.lane f2p31)) <= 1)%Q) /\
  (~ in_range f2p31 ->
   Sse2.cvtps_epi32 f2p31 = 2 ^ 31 /\ Sse2.phase f2p31 = fsub f2p31 (fopp f2p31)).
Proof.
  split; [reflexivity | apply (bounded_iff_in_range f2p31); reflexivity].
Defined.

(** Property X15.  For in-range x of magnitude 2^22 = 4194304 or more
    the output is a zero in both branches: such floats are multiples of
    one half, so nothing of the phase is left. *)
Theorem large_inputs_vanish (x : float) :
  in_range x -> (inject_Z (2 ^ 22) <= Qabs (F2Q x))%Q ->
  is_zero (Sse2.lane x) = true /\
  exists s, Scalar.elem x = Some s /\ is_zero s = true.
Proof.
  intros I B.
  assert (B' : 2 ^ 171 <= Z.abs (quanta x)).
  { revert B. unfold F2Q, Qabs, Qle, inject_Z. cbn [Qnum Qden]. rewrite den_F2Q.
    change (Zpos 1) with 1. change (2 ^ 171) with (2 ^ 22 * 2 ^ 149). lia. }
  destruct (sse_lane_spec x I) as (A1 & A2 & A3).
  destruct (lanes_same x I) as (s & E & Q & S).
  assert (Z : is_zero (Sse2.lane x) = true).
  { apply (quanta_zero_iff _ A1 A2). rewrite A3. apply shapeZ_phase_zero.
    destruct I as (V & _).
    apply (repr_divide (quanta x) 171); [now apply repr_quanta | lia | trivial]. }
  split; [trivial|]. exists s. split; [trivial|].
  destruct S as [<-|[_ S]]; trivial.
Qed.

(** The property at [x = 4194304.5]. *)
Lemma large_inputs_vanish_witness :
  in_range f4194304_5 /\ (inject_Z (2 ^ 22) <= Qabs (F2Q f4194304_5))%Q /\
  is_zero (Sse2.lane f4194304_5) = true /\
  exists s, Scalar.elem f4194304_5 = Some s /\ is_zero s = true.
Proof.
  split; [in_range_now|]. split; [vm_compute; discriminate|].
  apply (large_inputs_vanish f4194304_5); [in_range_now | vm_compute; discriminate].
Defined.

(** Property X16.  For in-range x the conversions to an integer and back
    lose nothing: the float made from the nearest integer of the SSE2
    branch is exactly that integer and converts back to the same 32-bit
    word; the float made from the truncated integer of the scalar branch
    is exactly that integer and converts back to it. *)
Theorem int_conversion_round_trip (x : float) :
  in_range x ->
  (let w := Sse2.cvtps_epi32 x in
   (F2Q (Sse2.cvtepi32_ps w) == inject_Z (Sse2.signed w))%Q /\
   Sse2.cvtps_epi32 (Sse2.cvtepi32_ps w) = w) /\
  (exists m, Scalar.float_to_int x = Some m /\
             (F2Q (of_Z m) == inject_Z m)%Q /\
             Scalar.float_to_int (of_Z m) = Some m).
Proof.
  intros I. pose proof I as (V & F & B). pose proof (repr_quanta x V) as R.
  assert (G : forall f n, quanta f = n * 2 ^ 149 -> (F2Q f == inject_Z n)%Q).
  { intros f n H. unfold F2Q, Qeq, inject_Z. cbn [Qnum Qden].
    rewrite H, den_F2Q. change (Zpos 1) with 1. ring. }
  split.
  - cbv zeta. destruct (nearest_float x I) as [I' Q]. split.
    + apply G. now rewrite cvtps_epi32_in.
    + rewrite (cvtps_epi32_word _ I'), Q, rint_mul. symmetry. now apply cvtps_epi32_word.
  - exists (tint (quanta x)).
    destruct (truncated_float x I) as (T1 & T2 & T3).
    pose proof (proj1 (tint_range _ R) B) as TR.
    split; [apply float_to_int_spec; auto|]. split; [now apply G|].
    apply float_to_int_spec; trivial. rewrite T3, tint_mul.
    split; [trivial|]. split; [trivial|].
    change (2 ^ 180) with (2 ^ 31 * 2 ^ 149). nia.
Qed.

(** The property at [x = 4194304.5]. *)
Lemma int_conversion_round_trip_witness :
  in_range f4194304_5 /\
  (let w := Sse2.cvtps_epi32 f4194304_5 in
   (F2Q (Sse2.cvtepi32_ps w) == inject_Z (Sse2.signed w))%Q /\
   Sse2.cvtps_epi32 (Sse2.cvtepi32_ps w) = w) /\
  (exists m, Scalar.float_to_int f4194304_5 = Some m /\
             (F2Q (of_Z m) == inject_Z m)%Q /\
             Scalar.float_to_int (of_Z m) = Some m).
Proof.
  split; [in_range_now | apply (int_conversion_round_trip f4194304_5); in_range_now].
Defined.

(** Property X17.  The two tests of the scalar branch reflect without
    rounding: for a finite value r of magnitude below 1 (as the
    truncation leaves), the value that is multiplied is exactly 1/2 - r
    when r > 1/4, exactly -1/2 - r when r < -1/4, and r itself in
    between; it is a finite float, and the output is the product formed
    from it. *)
Theorem scalar_reflection_exact (r : float) :
  is_f32 r -> is_finite r = true -> (Qabs (F2Q r) < 1)%Q ->
  is_f32 (Scalar.fold r) /\ is_finite (Scalar.fold r) = true /\
  Scalar.shape r = quad (Scalar.fold r) /\
  ((1 # 4 < F2Q r)%Q -> (F2Q (Scalar.fold r) == (1 # 2) - F2Q r)%Q) /\
  ((F2Q r < - (1 # 4))%Q -> (F2Q (Scalar.fold r) == - (1 # 2) - F2Q r)%Q) /\
  ((- (1 # 4) <= F2Q r)%Q -> (F2Q r <= 1 # 4)%Q -> (F2Q (Scalar.fold r) == F2Q r)%Q).
Proof.
  intros V F B.
  assert (B' : Z.abs (quanta r) < 2 ^ 149).
  { revert B. unfold F2Q, Qabs, Qlt. cbn [Qnum Qden]. rewrite den_F2Q.
    change (Zpos 1) with 1. lia. }
  destruct (fold_spec r V F B') as (F1 & F2 & F3).
  split; [trivial|]. split; [trivial|]. split; [apply scalar_shape_quad|].
  unfold F2Q, Qeq, Qlt, Qle, Qminus, Qplus, Qopp. cbn [Qnum Qden].
  rewrite F3, !Pos2Z.inj_mul, den_F2Q. change (Zpos 4) with 4. change (Zpos 2) with 2.
  change (2 ^ 149) with (4 * 2 ^ 147) in *. unfold foldZ.
  assert (0 < 2 ^ 147) by lia.
  split; [|split].
  - intros H1. destruct (Z.ltb_spec (2 ^ 147) (quanta r)); [|lia].
    change (2 ^ 148) with (2 * 2 ^ 147). ring.
  - intros H1. destruct (Z.ltb_spec (2 ^ 147) (quanta r)); [lia|].
    destruct (Z.ltb_spec (quanta r) (- 2 ^ 147)); [|lia].
    change (2 ^ 148) with (2 * 2 ^ 147). ring.
  - intros H1 H2. destruct (Z.ltb_spec (2 ^ 147) (quanta r)); [lia|].
    destruct (Z.ltb_spec (quanta r) (- 2 ^ 147)); [lia|]. reflexivity.
Qed.

(** The property at [r = 0.75], which the first test replaces by
    [-0.25]. *)
Lemma scalar_reflection_exact_witness :
  is_f32 f0_75 /\ is_finite f0_75 = true /\ (Qabs (F2Q f0_75) < 1)%Q /\
  (1 # 4 < F2Q f0_75)%Q /\
  is_f32 (Scalar.fold f0_75) /\ is_finite (Scalar.fold f0_75) = true /\
  Scalar.shape f0_75 = quad (Scalar.fold f0_75) /\
  ((1 # 4 < F2Q f0_75)%Q -> (F2Q (Scalar.fold f0_75) == (1 # 2) - F2Q f0_75)%Q) /\
  ((F2Q f0_75 < - (1 # 4))%Q -> (F2Q (Scalar.fold f0_75) == - (1 # 2) - F2Q f0_75)%Q) /\
  ((- (1 # 4) <= F2Q f0_75)%Q -> (F2Q f0_75 <= 1 # 4)%Q ->
   (F2Q (Scalar.fold f0_75) == F2Q f0_75)%Q).
Proof.
  split; [reflexivity|]. split; [reflexivity|]. split; [reflexivity|].
  split; [reflexivity|].
  apply (scalar_reflection_exact f0_75); reflexivity.
Defined.
